(** * pop3_check: a shallow embedding of [pop3_check.go]

    The program connects to a POP3 mailbox, logs in, issues [LIST] and
    warns about large messages and about a large mailbox.  This file
    embeds the line session ([readLine], [readLines], [writeLine],
    [Close]) and the checker ([checkMailbox]) together with the parts of
    the Go standard library they rely on ([strings.HasPrefix],
    [strings.TrimSpace], [fmt.Sscanf] with the format ["%d %d"]), and
    proves the properties of the specification about them.

    Conventions.  A Go [string] is a sequence of bytes: Rocq's [string].
    A Go [int] is a 64-bit two's complement integer (the usual target):
    a [Z] kept in range by [wrapInt].  A Go [error] value that may be
    [nil] is an [option error]. *)

From Stdlib Require Import ZArith List String Ascii Bool Lia.
Import ListNotations.

Local Open Scope string_scope.
Local Open Scope list_scope.
Local Open Scope Z_scope.

Set Implicit Arguments.

(* ================================================================== *)
(** * Bytes, runes and UTF-8 *)
(* ================================================================== *)

Module Utf8.

Definition byteZ (a : ascii) : Z := Z.of_N (N_of_ascii a).

(** [utf8.RuneError], [utf8.RuneSelf] and the continuation byte range. *)
Definition RuneError : Z := 0xFFFD.
Definition RuneSelf : Z := 0x80.
Definition locb : Z := 0x80.
Definition hicb : Z := 0xBF.

(** The table [first] of package [utf8]: what the first byte of an
    encoding announces.  [fLead sz lo hi] is a lead byte of an encoding
    of [sz] bytes whose second byte must lie in [lo..hi]. *)
Inductive firstInfo : Type :=
| fAS
| fXX
| fLead (sz : nat) (lo hi : Z).

Definition first (b : Z) : firstInfo :=
  if b <? 0x80 then fAS
  else if b <? 0xC2 then fXX
  else if b <? 0xE0 then fLead 2 locb hicb
  else if b =? 0xE0 then fLead 3 0xA0 hicb
  else if b <? 0xED then fLead 3 locb hicb
  else if b =? 0xED then fLead 3 locb 0x9F
  else if b <? 0xF0 then fLead 3 locb hicb
  else if b =? 0xF0 then fLead 4 0x90 hicb
  else if b <? 0xF4 then fLead 4 locb hicb
  else if b =? 0xF4 then fLead 4 locb 0x8F
  else fXX.

Definition inRange (lo hi b : Z) : bool := (lo <=? b) && (b <=? hi).

(** [utf8.DecodeRuneInString]: the first rune of [s] and its width in
    bytes.  An invalid or truncated encoding yields [(RuneError, 1)],
    the empty string [(RuneError, 0)]. *)
Definition DecodeRuneInString (s : string) : Z * nat :=
  match s with
  | EmptyString => (RuneError, 0%nat)
  | String c0 t0 =>
    let s0 := byteZ c0 in
    match first s0 with
    | fAS => (s0, 1%nat)
    | fXX => (RuneError, 1%nat)
    | fLead sz lo hi =>
      match t0 with
      | EmptyString => (RuneError, 1%nat)
      | String c1 t1 =>
        let s1 := byteZ c1 in
        if negb (inRange lo hi s1) then (RuneError, 1%nat)
        else if (sz <=? 2)%nat
        then (Z.lor (Z.shiftl (Z.land s0 0x1F) 6) (Z.land s1 0x3F), 2%nat)
        else
          match t1 with
          | EmptyString => (RuneError, 1%nat)
          | String c2 t2 =>
            let s2 := byteZ c2 in
            if negb (inRange locb hicb s2) then (RuneError, 1%nat)
            else if (sz <=? 3)%nat
            then (Z.lor (Z.lor (Z.shiftl (Z.land s0 0x0F) 12)
                               (Z.shiftl (Z.land s1 0x3F) 6))
                        (Z.land s2 0x3F), 3%nat)
            else
              match t2 with
              | EmptyString => (RuneError, 1%nat)
              | String c3 _ =>
                let s3 := byteZ c3 in
                if negb (inRange locb hicb s3) then (RuneError, 1%nat)
                else (Z.lor (Z.lor (Z.lor (Z.shiftl (Z.land s0 0x07) 18)
                                          (Z.shiftl (Z.land s1 0x3F) 12))
                                   (Z.shiftl (Z.land s2 0x3F) 6))
                            (Z.land s3 0x3F), 4%nat)
              end
          end
      end
    end
  end.

Fixpoint take (n : nat) (s : string) : string :=
  match n, s with
  | S n', String c t => String c (take n' t)
  | _, _ => EmptyString
  end.

Fixpoint drop (n : nat) (s : string) : string :=
  match n, s with
  | S n', String _ t => drop n' t
  | _, _ => s
  end.

(** The runes of a string in order, each with the bytes it was decoded
    from: what [for _, r := range s] and a rune reader over [s] deliver.
    Every step consumes at least one byte, so [length s] steps are
    enough ([decodeAll_fuel] below). *)
Fixpoint decodeAll (fuel : nat) (s : string) : list (Z * string) :=
  match fuel with
  | O => []
  | S fuel' =>
    match s with
    | EmptyString => []
    | String _ _ =>
      let '(r, w) := DecodeRuneInString s in
      (r, take w s) :: decodeAll fuel' (drop w s)
    end
  end.

Definition decode (s : string) : list (Z * string) :=
  decodeAll (String.length s) s.

Definition runes (s : string) : list Z := map fst (decode s).

Definition encode (l : list (Z * string)) : string :=
  fold_right (fun p acc => (snd p ++ acc)%string) "" l.

End Utf8.

(* ================================================================== *)
(** * Package [strings] *)
(* ================================================================== *)

Module strings.

(** [strings.HasPrefix(s, prefix)]. *)
Definition HasPrefix (s prefix : string) : bool := String.prefix prefix s.

(** [unicode.IsSpace]: the Latin-1 spaces and the code points with the
    White_Space property. *)
Definition IsSpace (r : Z) : bool :=
  Utf8.inRange 0x09 0x0D r || (r =? 0x20) || (r =? 0x85) || (r =? 0xA0)
  || (r =? 0x1680) || Utf8.inRange 0x2000 0x200A r
  || Utf8.inRange 0x2028 0x2029 r || (r =? 0x202F) || (r =? 0x205F)
  || (r =? 0x3000).

Fixpoint dropSpaces (l : list (Z * string)) : list (Z * string) :=
  match l with
  | [] => []
  | p :: l' => if IsSpace (fst p) then dropSpaces l' else l
  end.

(** [strings.TrimSpace(s)]: [s] without its leading and trailing white
    space runes.  Go scans the tail backwards with
    [utf8.DecodeLastRuneInString]; a white space rune is never encoded
    with a first byte that is a continuation byte, so the backward scan
    meets the same white space runes as the forward decoding used
    here. *)
Definition TrimSpace (s : string) : string :=
  Utf8.encode (rev (dropSpaces (rev (dropSpaces (Utf8.decode s))))).

End strings.

(* ================================================================== *)
(** * Go error values *)
(* ================================================================== *)

(** The error values the program can meet.  [net_Error timeout msg] is
    a value that implements [net.Error], with the answer of its
    [Timeout()] method; [plain_error] is any other error of the
    transport (connection reset, broken pipe, ...).  [scan_EOF] is the
    end-of-input error of [fmt.Sscanf] ([io.EOF] or
    [io.ErrUnexpectedEOF]; the program only prints it). *)
Inductive error : Type :=
| io_EOF
| net_Error (timeout : bool) (msg : string)
| plain_error (msg : string)
| errors_New (msg : string)
| scan_EOF
| strconv_NumError (fn : string) (num : list Z) (isRange : bool).

(** [netError, ok := err.(net.Error); ok && netError.Timeout()] *)
Definition isNetTimeout (e : error) : bool :=
  match e with
  | net_Error timeout _ => timeout
  | _ => false
  end.

(** [err == io.EOF] *)
Definition isEOF (e : error) : bool :=
  match e with
  | io_EOF => true
  | _ => false
  end.

(* ================================================================== *)
(** * Go's [int] *)
(* ================================================================== *)

Definition intBits : Z := 64.
Definition minInt : Z := - 2 ^ (intBits - 1).
Definition maxInt : Z := 2 ^ (intBits - 1) - 1.

(** The value an [int] holds after an arithmetic result [z]: two's
    complement wrap-around. *)
Definition wrapInt (z : Z) : Z :=
  (z + 2 ^ (intBits - 1)) mod 2 ^ intBits - 2 ^ (intBits - 1).

Definition inInt (z : Z) : Prop := minInt <= z <= maxInt.

(* ================================================================== *)
(** * Package [strconv] *)
(* ================================================================== *)

Module strconv.

Definition maxUint64 : Z := 2 ^ 64 - 1.

(** The digit loop of [strconv.ParseUint(s, 10, 64)] over the bytes of
    [s], with the value accumulated so far. *)
Fixpoint ParseUint_loop (s0 s : list Z) (n : Z) : Z * option error :=
  match s with
  | [] => (n, None)
  | c :: s' =>
    if negb (Utf8.inRange 48 57 c)
    then (0, Some (strconv_NumError "ParseUint" s0 false))
    else
      let d := c - 48 in
      if maxUint64 / 10 + 1 <=? n
      then (maxUint64, Some (strconv_NumError "ParseUint" s0 true))
      else
        let n1 := n * 10 + d in
        if maxUint64 <? n1
        then (maxUint64, Some (strconv_NumError "ParseUint" s0 true))
        else ParseUint_loop s0 s' n1
  end.

Definition ParseUint (s : list Z) : Z * option error :=
  match s with
  | [] => (0, Some (strconv_NumError "ParseUint" s false))
  | _ => ParseUint_loop s s 0
  end.

Definition isRangeError (e : option error) : bool :=
  match e with
  | Some (strconv_NumError _ _ true) => true
  | _ => false
  end.

(** [strconv.ParseInt(s, 10, 64)] over the bytes of [s]. *)
Definition ParseInt (s0 : list Z) : Z * option error :=
  match s0 with
  | [] => (0, Some (strconv_NumError "ParseInt" s0 false))
  | c :: t =>
    let '(neg, s) :=
      if c =? 43 then (false, t)
      else if c =? 45 then (true, t)
      else (false, s0) in
    let '(un, err) := ParseUint s in
    match err with
    | Some _ =>
      if negb (isRangeError err)
      then (0, Some (strconv_NumError "ParseInt" s0 false))
      else
        (* [un] is [maxUint64] here: one of the two range tests fires *)
        if neg then (- 2 ^ 63, Some (strconv_NumError "ParseInt" s0 true))
        else (2 ^ 63 - 1, Some (strconv_NumError "ParseInt" s0 true))
    | None =>
      let cutoff := 2 ^ 63 in
      if negb neg && (cutoff <=? un)
      then (cutoff - 1, Some (strconv_NumError "ParseInt" s0 true))
      else if neg && (cutoff <? un)
      then (- cutoff, Some (strconv_NumError "ParseInt" s0 true))
      else ((if neg then - un else un), None)
    end
  end.

End strconv.

(* ================================================================== *)
(** * Package [fmt]: [Sscanf] with the format ["%d %d"] *)
(* ================================================================== *)

Module fmt.

Definition eof : Z := -1.
Definition hugeWid : Z := Z.shiftl 1 30.

(** The table [space] of [fmt/scan.go] and its lookup. *)
Definition space : list (Z * Z) :=
  [ (0x0009, 0x000d); (0x0020, 0x0020); (0x0085, 0x0085);
    (0x00a0, 0x00a0); (0x1680, 0x1680); (0x2000, 0x200a);
    (0x2028, 0x2029); (0x202f, 0x202f); (0x205f, 0x205f);
    (0x3000, 0x3000) ].

Fixpoint isSpace_loop (rx : Z) (tbl : list (Z * Z)) : bool :=
  match tbl with
  | [] => false
  | (lo, hi) :: tbl' =>
    if rx <? lo then false
    else if rx <=? hi then true
    else isSpace_loop rx tbl'
  end.

Definition isSpace (r : Z) : bool :=
  if Z.shiftl 1 16 <=? r then false
  else isSpace_loop (r mod 2 ^ 16) space.

(** The scanner's view of its input: the runes not read yet and
    [ss.count], the number of runes consumed.  [ss.limit] and
    [ss.argLimit] are both [hugeWid] for this format (no width). *)
Definition reader : Type := list Z * Z.

(** [ss.getRune]: the next rune, or [eof] at the end of the input or at
    the rune limit. *)
Definition getRune (s : reader) : Z * reader :=
  let '(l, count) := s in
  if hugeWid <=? count then (eof, s)
  else match l with
       | [] => (eof, s)
       | r :: l' => (r, (l', count + 1))
       end.

(** [ss.UnreadRune]; the rune read last is handed back by the caller. *)
Definition UnreadRune (r : Z) (s : reader) : reader :=
  let '(l, count) := s in (r :: l, count - 1).

Definition indexRune (ok : list Z) (r : Z) : bool := existsb (Z.eqb r) ok.

(** [ss.peek(ok)] *)
Definition peek (ok : list Z) (s : reader) : bool :=
  let '(r, _) := getRune s in indexRune ok r.

(** [ss.SkipSpace] with [nlIsSpace = false]: the loop reads one rune
    per turn ([getRune] is written out so that the recursion is on the
    input). *)
Fixpoint SkipSpace_loop (l : list Z) (count : Z) : error + reader :=
  match l with
  | [] => inr (l, count)
  | r :: l' =>
    if hugeWid <=? count then inr (l, count)
    else
      let count' := count + 1 in
      if (r =? 13) && peek [10] (l', count') then SkipSpace_loop l' count'
      else if r =? 10 then inl (errors_New "unexpected newline")
      else if negb (isSpace r) then inr (UnreadRune r (l', count'))
      else SkipSpace_loop l' count'
  end.

Definition SkipSpace (s : reader) : error + reader :=
  SkipSpace_loop (fst s) (snd s).

(** [ss.notEOF]: panics with [io.EOF] at the end of the input. *)
Definition notEOF (s : reader) : error + reader :=
  let '(r, _) := getRune s in
  if r =? eof then inl scan_EOF else inr s.

(** [ss.accept(ok)], that is [ss.consume(ok, true)]: the rune is moved
    to the token buffer if it is one of [ok], and unread otherwise. *)
Definition accept (ok : list Z) (s : reader) (buf : list Z)
  : bool * reader * list Z :=
  let '(r, s') := getRune s in
  if r =? eof then (false, s', buf)
  else if indexRune ok r then (true, s', buf ++ [r])
  else (false, UnreadRune r s', buf).

Definition sign : list Z := [43; 45].
Definition decimalDigits : list Z := [48; 49; 50; 51; 52; 53; 54; 55; 56; 57].

(** [for s.accept(digits) { }] *)
Fixpoint acceptAll (ok : list Z) (l : list Z) (count : Z) (buf : list Z)
  : reader * list Z :=
  match l with
  | [] => ((l, count), buf)
  | r :: l' =>
    if hugeWid <=? count then ((l, count), buf)
    else if indexRune ok r then acceptAll ok l' (count + 1) (buf ++ [r])
    else ((l, count), buf)
  end.

(** [ss.scanNumber(digits, false)] *)
Definition scanNumber (digits : list Z) (s : reader) (buf : list Z)
  : error + (reader * list Z) :=
  match notEOF s with
  | inl e => inl e
  | inr s =>
    let '(ok, s, buf) := accept digits s buf in
    if negb ok then inl (errors_New "expected integer")
    else inr (acceptAll digits (fst s) (snd s) buf)
  end.

(** [ss.scanInt('d', intBits)] followed by the conversion to [int]. *)
Definition scanInt (s : reader) : error + (Z * reader) :=
  match SkipSpace s with
  | inl e => inl e
  | inr s =>
    match notEOF s with
    | inl e => inl e
    | inr s =>
      let '(_, s, buf) := accept sign s [] in
      match scanNumber decimalDigits s buf with
      | inl e => inl e
      | inr (s, tok) =>
        let '(i, err) := strconv.ParseInt tok in
        match err with
        | Some e => inl e
        | None =>
          if negb (wrapInt i =? i)
          then inl (errors_New "integer overflow on token")
          else inr (i, s)
        end
      end
    end
  end.

(** What [ss.advance] does for the space between the two verbs: one
    space of the format matches one or more spaces of the input, or
    the end of the input; a newline does not match. *)
Fixpoint advanceSpace_loop (l : list Z) (count : Z) : reader :=
  match l with
  | [] => (l, count)
  | r :: l' =>
    if hugeWid <=? count then (l, count)
    else if isSpace r && negb (r =? 10)
         then advanceSpace_loop l' (count + 1)
         else (l, count)
  end.

Definition advanceSpace (s : reader) : error + reader :=
  let '(inputc, s') := getRune s in
  if negb (isSpace inputc) && negb (inputc =? eof)
  then inl (errors_New "expected space in input to match format")
  else if inputc =? 10
  then inl (errors_New "newline in input does not match format")
  else if inputc =? eof then inr s'
  else inr (advanceSpace_loop (fst s') (snd s')).

(** The result of [fmt.Sscanf(str, "%d %d", &id, &size)]: the count of
    operands stored, the error, and the values of [id] and [size]
    after the call (both start at zero). *)
Record scanned : Type := mkScanned {
  countScanned : Z;
  scanErr : option error;
  scannedId : Z;
  scannedSize : Z
}.

(** [doScanf] unfolded for the format ["%d %d"] and two [*int]
    operands: white space is skipped before each verb; what follows the
    second number is left unread. *)
Definition Sscanf_d_d (str : string) : scanned :=
  let s0 : reader := (Utf8.runes str, 0) in
  match SkipSpace s0 with
  | inl e => mkScanned 0 (Some e) 0 0
  | inr s =>
    match scanInt s with
    | inl e => mkScanned 0 (Some e) 0 0
    | inr (id, s) =>
      match advanceSpace s with
      | inl e => mkScanned 1 (Some e) id 0
      | inr s =>
        match SkipSpace s with
        | inl e => mkScanned 1 (Some e) id 0
        | inr s =>
          match scanInt s with
          | inl e => mkScanned 1 (Some e) id 0
          | inr (size, _) => mkScanned 2 None id size
          end
        end
      end
    end
  end.

End fmt.

(** [%d] of [fmt.Sprintf] for an [int]: the decimal digits, with a minus
    sign for a negative number. *)
Module itoa.

Definition digitChar (d : Z) : ascii := ascii_of_N (Z.to_N (48 + d)).

(** The digits of [n >= 0], last digit first; [fuel] bounds their
    number. *)
Fixpoint digitsRev (fuel : nat) (n : Z) : list Z :=
  match fuel with
  | O => []
  | S fuel' =>
    if n <? 10 then [n]
    else n mod 10 :: digitsRev fuel' (n / 10)
  end.

Definition digits (n : Z) : list Z :=
  rev (digitsRev (S (Z.to_nat (Z.log2 n))) n).

Definition ofDigits (l : list Z) : string :=
  fold_right (fun d acc => String (digitChar d) acc) EmptyString l.

Definition FormatInt (z : Z) : string :=
  if z <? 0 then String "-"%char (ofDigits (digits (- z)))
  else ofDigits (digits z).

End itoa.

Definition CR : string := String (ascii_of_nat 13) EmptyString.
Definition LF : string := String (ascii_of_nat 10) EmptyString.
Definition CRLF : string := (CR ++ LF)%string.

(* ================================================================== *)
(** * The process: connection, log and the state monad *)
(* ================================================================== *)

(** An operand of [log.Printf]. *)
Inductive Arg : Type :=
| AStr (s : string)
| AInt (z : Z)
| AErr (e : error).

(** One call of [log.Printf(format, args...)]: the log is kept as the
    sequence of calls, the text is not rendered. *)
Inductive LogEntry : Type :=
| Printf (format : string) (args : list Arg).

(** The connection as the program sees it.  [readResults] are the
    results of the coming calls of [Reader.ReadString('\n')], in order;
    when they are used up the peer has closed the stream and every
    further call reports [io.EOF].  [writeResults] and [flushResults]
    are the results of the coming calls of [Writer.WriteString] and
    [Writer.Flush]; when they are used up a call succeeds.  [written]
    collects what was handed to [WriteString], [deadlines] counts the
    read deadlines set, [closed] tells whether [Close] was called. *)
Record Conn : Type := mkConn {
  readResults : list (string * option error);
  writeResults : list (option error);
  flushResults : list (option error);
  remoteAddr : string;
  written : list string;
  deadlines : nat;
  closed : bool
}.

(** What [net.Dial] returns. *)
Inductive DialResult : Type :=
| DialFails (e : error)
| DialOk (rawConn : Conn).

Record Proc : Type := mkProc {
  conn : Conn;
  log : list LogEntry
}.

Definition M (A : Type) : Type := Proc -> A * Proc.

Definition ret {A} (a : A) : M A := fun p => (a, p).

Definition bind {A B} (m : M A) (k : A -> M B) : M B :=
  fun p => let '(a, p') := m p in k a p'.

Declare Scope proc_scope.
Delimit Scope proc_scope with proc.
Notation "x <- m ;; k" := (bind m (fun x => k))
  (at level 61, m at next level, right associativity) : proc_scope.
Notation "' pat <- m ;; k" := (bind m (fun x => match x with pat => k end))
  (at level 61, pat pattern, m at next level, right associativity) : proc_scope.
Notation "m ;; k" := (bind m (fun _ => k))
  (at level 61, right associativity) : proc_scope.
Local Open Scope proc_scope.

Definition log_Printf (format : string) (args : list Arg) : M unit :=
  fun p => (tt, mkProc (conn p) (log p ++ [Printf format args])).

Definition when (b : bool) (m : M unit) : M unit :=
  if b then m else ret tt.

Definition modifyConn (f : Conn -> Conn) : M unit :=
  fun p => (tt, mkProc (f (conn p)) (log p)).

(** [conn.Conn.SetReadDeadline(...)] *)
Definition SetReadDeadline : M unit :=
  modifyConn (fun c => mkConn (readResults c) (writeResults c) (flushResults c)
                              (remoteAddr c) (written c) (S (deadlines c)) (closed c)).

(** [conn.ReadWriter.Reader.ReadString('\n')] *)
Definition ReadString : M (string * option error) :=
  fun p =>
    let c := conn p in
    match readResults c with
    | [] => (("", Some io_EOF), p)
    | r :: rest =>
      (r, mkProc (mkConn rest (writeResults c) (flushResults c) (remoteAddr c)
                         (written c) (deadlines c) (closed c)) (log p))
    end.

(** The next result of a script of write or flush results. *)
Definition popResult (l : list (option error)) : option error * list (option error) :=
  match l with
  | [] => (None, [])
  | r :: rest => (r, rest)
  end.

(** [conn.ReadWriter.Writer.WriteString(s)], without the byte count. *)
Definition WriteString (s : string) : M (option error) :=
  fun p =>
    let c := conn p in
    let '(r, rest) := popResult (writeResults c) in
    (r, mkProc (mkConn (readResults c) rest (flushResults c) (remoteAddr c)
                       (written c ++ [s]) (deadlines c) (closed c)) (log p)).

(** [conn.ReadWriter.Writer.Flush()] *)
Definition Flush : M (option error) :=
  fun p =>
    let c := conn p in
    let '(r, rest) := popResult (flushResults c) in
    (r, mkProc (mkConn (readResults c) (writeResults c) rest (remoteAddr c)
                       (written c) (deadlines c) (closed c)) (log p)).

(* ================================================================== *)
(** * The line session *)
(* ================================================================== *)

(** [newConn]: the buffered reader and writer are part of [Conn]. *)
Definition newConn (rawConn : Conn) : Conn := rawConn.

(** [Conn.Close] *)
Definition Close : M unit :=
  modifyConn (fun c => mkConn (readResults c) (writeResults c) (flushResults c)
                              (remoteAddr c) (written c) (deadlines c) true).

(** [Conn.setReadDeadline] *)
Definition setReadDeadline : M unit := SetReadDeadline.

(** [Conn.readLine] *)
Definition readLine : M (string * option error) :=
  setReadDeadline ;;
  '(line, err) <- ReadString ;;
  match err with
  | Some e =>
    log_Printf "Read failure: %s" [AErr e] ;;
    ret ("", Some e)
  | None =>
    let line := strings.TrimSpace line in
    ret (line, None)
  end.

(** The loop of [Conn.readLines], with the lines collected so far.  A
    turn either returns or has consumed one read result, so
    [S (length (readResults c))] turns are enough: [readLines] below
    starts it with that many, and the exit at [O] is never taken
    ([readLines_loop_enough]). *)
Fixpoint readLines_loop (fuel : nat) (endCheck : string -> bool)
         (lines : list string) : M (list string * option error) :=
  match fuel with
  | O => ret (lines, None)
  | S fuel' =>
    '(line, err) <- readLine ;;
    match err with
    | Some e =>
      if isNetTimeout e then ret (lines, None)
      else if isEOF e then ret (lines, None)
      else
        log_Printf "Read error: %s" [AErr e] ;;
        ret ([], Some e)
    | None =>
      let lines := lines ++ [line] in
      if endCheck line then ret (lines, None)
      else readLines_loop fuel' endCheck lines
    end
  end.

(** [Conn.readLines] *)
Definition readLines (endCheck : string -> bool)
  : M (list string * option error) :=
  fun p => readLines_loop (S (List.length (readResults (conn p)))) endCheck [] p.

(* ================================================================== *)
(** * The checker *)
(* ================================================================== *)

(** [connectPort] *)
Definition connectPort : Z := 110.

(** The two [endCheck] closures that [checkMailbox] hands to
    [readLines]. *)
Definition endOK (s : string) : bool := strings.HasPrefix s "+OK".
Definition endDot (s : string) : bool := (s =? ".")%string.

(** [fmt.Sprintf("%s:%d", host, connectPort)] *)
Definition hostPortOf (host : string) : string :=
  (host ++ ":" ++ itoa.FormatInt connectPort)%string.

(** [lines[0]], used only where [len(lines) == 1] has been tested. *)
Definition index0 (lines : list string) : string := nth 0 lines "".

Definition lenIs1 (lines : list string) : bool := Nat.eqb (List.length lines) 1.

Section Checker.

(** The package variable [verboseOutput]: set by [getArgs] before the
    check starts, constant during it. *)
Variable verboseOutput : bool.

(** [Conn.writeLine] *)
Definition writeLine (s : string) : M (option error) :=
  when verboseOutput (log_Printf "Writing line [%s]" [AStr s]) ;;
  err <- WriteString (s ++ CRLF)%string ;;
  match err with
  | Some e =>
    log_Printf "Failure writing: %s" [AErr e] ;;
    ret (Some e)
  | None =>
    err <- Flush ;;
    match err with
    | Some e =>
      log_Printf "Flush error: %s" [AErr e] ;;
      ret (Some e)
    | None => ret None
    end
  end.

(** The [for _, line := range lines] loop of [checkMailbox] with the
    value of [sizeOfAllMessages] on entry.  The result is the error of
    an early [return] if there is one, and [sizeOfAllMessages] after
    the loop. *)
Fixpoint listLoop (warnSize : Z) (lines : list string)
         (sizeOfAllMessages : Z) : M (option error * Z) :=
  match lines with
  | [] => ret (None, sizeOfAllMessages)
  | line :: rest =>
    when verboseOutput (log_Printf "Read LIST line: %s" [AStr line]) ;;
    if strings.HasPrefix line "+OK" || (line =? ".")%string
    then listLoop warnSize rest sizeOfAllMessages
    else
      let r := fmt.Sscanf_d_d line in
      let id := fmt.scannedId r in
      let size := fmt.scannedSize r in
      match fmt.scanErr r with
      | Some e =>
        log_Printf "LIST line parse failure: %s" [AErr e] ;;
        ret (Some (errors_New "Unable to parse LIST line"), sizeOfAllMessages)
      | None =>
        if negb (fmt.countScanned r =? 2)
        then
          log_Printf "LIST line not fully parsed: %s" [AStr line] ;;
          ret (Some (errors_New "Failed to parse LIST line"), sizeOfAllMessages)
        else
          when (warnSize <? size)
               (log_Printf "Warning: Message %d has size %d" [AInt id; AInt size]) ;;
          listLoop warnSize rest (wrapInt (sizeOfAllMessages + size))
      end
  end.

(** The body of [checkMailbox] from the greeting on, run on the
    connection that [net.Dial] returned. *)
Definition checkMailbox_connected (user pass : string)
           (warnSize quotaWarnSize : Z) : M (option error) :=
  (* ensure we get OK line before we do anything. *)
  '(lines, err) <- readLines endOK ;;
  match err with
  | Some e =>
    log_Printf "Error reading lines: %s" [AErr e] ;;
    ret (Some e)
  | None =>
  if negb (lenIs1 lines)
  then
    log_Printf "Unexpected number of lines: %s" [AInt (Z.of_nat (List.length lines))] ;;
    ret (Some (errors_New "Unexpected line count"))
  else
  if negb (strings.HasPrefix (index0 lines) "+OK ")
  then
    log_Printf "Greeting line is not OK: %s" [AStr (index0 lines)] ;;
    ret (Some (errors_New "Invalid greeting"))
  else
  (* try to log in now. *)
  let s := ("USER " ++ user)%string in
  err <- writeLine s ;;
  match err with
  | Some e =>
    log_Printf "Login failure: user: %s" [AErr e] ;;
    ret (Some e)
  | None =>
  '(lines, err) <- readLines endOK ;;
  match err with
  | Some e =>
    log_Printf "Failed to read lines: %s" [AErr e] ;;
    ret (Some e)
  | None =>
  if negb (lenIs1 lines) || negb (strings.HasPrefix (index0 lines) "+OK")
  then
    log_Printf "Unexpected USER response" [] ;;
    ret (Some (errors_New "Unexpected user respose"))
  else
  (* password. *)
  let s := ("PASS " ++ pass)%string in
  err <- writeLine s ;;
  match err with
  | Some e =>
    log_Printf "Login failure: pass: %s" [AErr e] ;;
    ret (Some e)
  | None =>
  '(lines, err) <- readLines endOK ;;
  match err with
  | Some e =>
    log_Printf "Failed to read lines: pass: %s" [AErr e] ;;
    ret (Some e)
  | None =>
  if negb (lenIs1 lines) || negb (strings.HasPrefix (index0 lines) "+OK")
  then
    log_Printf "Unexpected PASS response" [] ;;
    ret (Some (errors_New "Unexpected PASS respose"))
  else
  (* now list messages: the error of this writeLine is overwritten by
     the next assignment to err. *)
  _ <- writeLine "LIST" ;;
  '(lines, err) <- readLines endDot ;;
  match err with
  | Some e =>
    log_Printf "Failed to list messages: %s" [AErr e] ;;
    ret (Some e)
  | None =>
  '(ret_err, sizeOfAllMessages) <- listLoop warnSize lines 0 ;;
  match ret_err with
  | Some e => ret (Some e)
  | None =>
  when verboseOutput
       (log_Printf "Total size of mailbox: %d" [AInt sizeOfAllMessages]) ;;
  when (quotaWarnSize <? sizeOfAllMessages)
       (log_Printf "Warning: Mailbox has total used size: %d" [AInt sizeOfAllMessages]) ;;
  ret None
  end end end end end end end.

(** What a call of [checkMailbox] leaves behind: the error returned
    ([None] is [nil]), the connection if one was made, and the log. *)
Record Outcome : Type := mkOutcome {
  result : option error;
  finalConn : option Conn;
  logged : list LogEntry
}.

(** [checkMailbox]; [dial] answers [net.Dial("tcp4", hostPort)]. *)
Definition checkMailbox (dial : string -> DialResult)
           (host user pass : string) (warnSize quotaWarnSize : Z) : Outcome :=
  let log0 := if verboseOutput
              then [Printf "Connecting to %s..." [AStr host]] else [] in
  let hostPort := hostPortOf host in
  match dial hostPort with
  | DialFails e =>
    mkOutcome (Some e) None
              (log0 ++ [Printf "Failed to connect to [%s]: %s" [AStr hostPort; AErr e]])
  | DialOk rawConn =>
    let log1 := if verboseOutput
                then log0 ++ [Printf "Connected to [%s] (%s)"
                                     [AStr hostPort; AStr (remoteAddr rawConn)]]
                else log0 in
    let c := newConn rawConn in
    let '(err, p) := checkMailbox_connected user pass warnSize quotaWarnSize
                                            (mkProc c log1) in
    mkOutcome err (Some (conn p)) (log p)
  end.

End Checker.

#[global] Arguments strings.TrimSpace : simpl never.
#[global] Arguments strings.HasPrefix : simpl never.
#[global] Arguments fmt.Sscanf_d_d : simpl never.

(* ================================================================== *)
(** * Vocabulary of the statements *)
(* ================================================================== *)

(** [checkMailbox_connected] cut at the comments of the source: from
    [// now list messages.], from [// password.] and from
    [// try to log in now.] to the end ([checkMailbox_connected_stages]
    relates them to the function). *)
Definition fromList (verboseOutput : bool) (warnSize quotaWarnSize : Z)
  : M (option error) :=
  _ <- writeLine verboseOutput "LIST" ;;
  '(lines, err) <- readLines endDot ;;
  match err with
  | Some e =>
    log_Printf "Failed to list messages: %s" [AErr e] ;;
    ret (Some e)
  | None =>
  '(ret_err, sizeOfAllMessages) <- listLoop verboseOutput warnSize lines 0 ;;
  match ret_err with
  | Some e => ret (Some e)
  | None =>
  when verboseOutput
       (log_Printf "Total size of mailbox: %d" [AInt sizeOfAllMessages]) ;;
  when (quotaWarnSize <? sizeOfAllMessages)
       (log_Printf "Warning: Mailbox has total used size: %d" [AInt sizeOfAllMessages]) ;;
  ret None
  end end.

Definition fromPass (verboseOutput : bool) (pass : string)
           (warnSize quotaWarnSize : Z) : M (option error) :=
  let s := ("PASS " ++ pass)%string in
  err <- writeLine verboseOutput s ;;
  match err with
  | Some e =>
    log_Printf "Login failure: pass: %s" [AErr e] ;;
    ret (Some e)
  | None =>
  '(lines, err) <- readLines endOK ;;
  match err with
  | Some e =>
    log_Printf "Failed to read lines: pass: %s" [AErr e] ;;
    ret (Some e)
  | None =>
  if negb (lenIs1 lines) || negb (strings.HasPrefix (index0 lines) "+OK")
  then
    log_Printf "Unexpected PASS response" [] ;;
    ret (Some (errors_New "Unexpected PASS respose"))
  else fromList verboseOutput warnSize quotaWarnSize
  end end.

Definition fromUser (verboseOutput : bool) (user pass : string)
           (warnSize quotaWarnSize : Z) : M (option error) :=
  let s := ("USER " ++ user)%string in
  err <- writeLine verboseOutput s ;;
  match err with
  | Some e =>
    log_Printf "Login failure: user: %s" [AErr e] ;;
    ret (Some e)
  | None =>
  '(lines, err) <- readLines endOK ;;
  match err with
  | Some e =>
    log_Printf "Failed to read lines: %s" [AErr e] ;;
    ret (Some e)
  | None =>
  if negb (lenIs1 lines) || negb (strings.HasPrefix (index0 lines) "+OK")
  then
    log_Printf "Unexpected USER response" [] ;;
    ret (Some (errors_New "Unexpected user respose"))
  else fromPass verboseOutput pass warnSize quotaWarnSize
  end end.

Definition fromGreeting (verboseOutput : bool) (user pass : string)
           (warnSize quotaWarnSize : Z) : M (option error) :=
  '(lines, err) <- readLines endOK ;;
  match err with
  | Some e =>
    log_Printf "Error reading lines: %s" [AErr e] ;;
    ret (Some e)
  | None =>
  if negb (lenIs1 lines)
  then
    log_Printf "Unexpected number of lines: %s" [AInt (Z.of_nat (List.length lines))] ;;
    ret (Some (errors_New "Unexpected line count"))
  else
  if negb (strings.HasPrefix (index0 lines) "+OK ")
  then
    log_Printf "Greeting line is not OK: %s" [AStr (index0 lines)] ;;
    ret (Some (errors_New "Invalid greeting"))
  else fromUser verboseOutput user pass warnSize quotaWarnSize
  end.

(** The connection after [n] more reads that left [rest] to read. *)
Definition afterReads (c : Conn) (rest : list (string * option error)) (n : nat) : Conn :=
  mkConn rest (writeResults c) (flushResults c) (remoteAddr c) (written c)
         (n + deadlines c) (closed c).

(** The connection after one [WriteString(s)] and one [Flush]. *)
Definition afterWrite (c : Conn) (s : string) : Conn :=
  mkConn (readResults c) (snd (popResult (writeResults c)))
         (snd (popResult (flushResults c))) (remoteAddr c)
         (written c ++ [s]) (deadlines c) (closed c).

(** [readLines] as a function of the read results alone: the value
    returned, the results left, the log entries and the number of reads
    ([readLines_script]). *)
Fixpoint readScript (endCheck : string -> bool)
         (script : list (string * option error)) (lines : list string)
  : (list string * option error) * list (string * option error)
    * list LogEntry * nat :=
  match script with
  | [] => ((lines, None), [], [Printf "Read failure: %s" [AErr io_EOF]], 1%nat)
  | (raw, Some e) :: rest =>
    if isNetTimeout e || isEOF e
    then ((lines, None), rest, [Printf "Read failure: %s" [AErr e]], 1%nat)
    else (([], Some e), rest,
          [Printf "Read failure: %s" [AErr e]; Printf "Read error: %s" [AErr e]],
          1%nat)
  | (raw, None) :: rest =>
    let line := strings.TrimSpace raw in
    if endCheck line then ((lines ++ [line], None), rest, [], 1%nat)
    else
      let '(r, rest', out, n) := readScript endCheck rest (lines ++ [line]) in
      (r, rest', out, S n)
  end.

(** A connection that has just been made and will deliver [script]. *)
Definition freshConn (script : list (string * option error)) : Conn :=
  mkConn script [] [] "" [] 0 false.

(** What [readLines endCheck] returns when the reads deliver [script]. *)
Definition collected (endCheck : string -> bool)
           (script : list (string * option error)) : list string * option error :=
  fst (readLines endCheck (mkProc (freshConn script) [])).

(** What was handed to the writer during a check. *)
Definition sent (o : Outcome) : list string :=
  match finalConn o with
  | Some c => written c
  | None => []
  end.

(** The entries that only the verbose mode logs. *)
Definition isDiagnostic (e : LogEntry) : bool :=
  let '(Printf format _) := e in
  (format =? "Connecting to %s...")%string
  || (format =? "Connected to [%s] (%s)")%string
  || (format =? "Writing line [%s]")%string
  || (format =? "Read LIST line: %s")%string
  || (format =? "Total size of mailbox: %d")%string.

Definition quiet (l : list LogEntry) : list LogEntry :=
  filter (fun e => negb (isDiagnostic e)) l.

(** The two warnings of the program. *)
Definition messageWarning (e : Z * Z) : LogEntry :=
  Printf "Warning: Message %d has size %d" [AInt (fst e); AInt (snd e)].

Definition quotaWarning (total : Z) : LogEntry :=
  Printf "Warning: Mailbox has total used size: %d" [AInt total].

Definition isWarning (e : LogEntry) : bool :=
  let '(Printf format _) := e in
  (format =? "Warning: Message %d has size %d")%string
  || (format =? "Warning: Mailbox has total used size: %d")%string.

Definition warnings (l : list LogEntry) : list LogEntry := filter isWarning l.

(** The LIST lines that the loop passes over, the lines it scans with
    success, and the entry (id, size) scanned from a line. *)
Definition skipped (line : string) : bool :=
  strings.HasPrefix line "+OK" || (line =? ".")%string.

Definition parses (line : string) : bool :=
  let r := fmt.Sscanf_d_d line in
  match fmt.scanErr r with
  | Some _ => false
  | None => fmt.countScanned r =? 2
  end.

Definition entryOf (line : string) : Z * Z :=
  let r := fmt.Sscanf_d_d line in (fmt.scannedId r, fmt.scannedSize r).

Definition entries (lines : list string) : list (Z * Z) :=
  map entryOf (filter (fun l => negb (skipped l)) lines).

Definition messageWarnings (warnSize : Z) (es : list (Z * Z)) : list LogEntry :=
  map messageWarning (filter (fun e => warnSize <? snd e) es).

Definition sumSizes (es : list (Z * Z)) : Z :=
  fold_right Z.add 0 (map snd es).

(** A read result that delivers the line [s]. *)
Definition okLine (s : string) : string * option error := ((s ++ CRLF)%string, None).

(** Whether the [n]-th coming write (or flush) succeeds. *)
Definition succeeds (l : list (option error)) (n : nat) : Prop :=
  nth n l None = None.

(** [grows p p']: going from [p] to [p'] the connection was not closed
    or reopened, and the commands written and the log only grew at the
    end. *)
Definition grows (p p' : Proc) : Prop :=
  closed (conn p') = closed (conn p)
  /\ (exists ws, written (conn p') = written (conn p) ++ ws)
  /\ (exists es, log p' = log p ++ es).

Definition Grows {A} (m : M A) : Prop := forall p, grows p (snd (m p)).

(** The verbose run and the quiet run side by side: the same
    connection, and the quiet log is the verbose log without the
    diagnostics. *)
Definition alike (p1 p2 : Proc) : Prop :=
  conn p1 = conn p2 /\ log p2 = quiet (log p1).

Definition Alike {A} (m1 m2 : M A) : Prop :=
  forall p1 p2, alike p1 p2 ->
    fst (m1 p1) = fst (m2 p2) /\ alike (snd (m1 p1)) (snd (m2 p2)).

(** A read result that delivers a line on which [endCheck] is false,
    and the lines that a sequence of read results delivers. *)
Definition passesBy (endCheck : string -> bool) (r : string * option error) : Prop :=
  snd r = None /\ endCheck (strings.TrimSpace (fst r)) = false.

Definition trimmed (rs : list (string * option error)) : list string :=
  map (fun r => strings.TrimSpace (fst r)) rs.

(** A read that fails with a timeout. *)
Definition timeoutRead : string * option error :=
  ("", Some (net_Error true "i/o timeout")).

(** The three commands of the session as they are handed to the writer. *)
Definition userCmd (user : string) : string := (("USER " ++ user) ++ CRLF)%string.
Definition passCmd (pass : string) : string := (("PASS " ++ pass) ++ CRLF)%string.
Definition listCmd : string := ("LIST" ++ CRLF)%string.

(** The entry that [writeLine] logs in verbose mode. *)
Definition writingEntry (v : bool) (s : string) : list LogEntry :=
  if v then [Printf "Writing line [%s]" [AStr s]] else [].

(** [sizeOfAllMessages] after the loop has added the sizes of [es] to
    [t], one [+=] at a time. *)
Definition totalAfter (t : Z) (es : list (Z * Z)) : Z :=
  fold_left (fun acc e => wrapInt (acc + snd e)) es t.

(** A LIST line that the loop gets past: it is skipped or it scans. *)
Definition passes (line : string) : Prop :=
  skipped line = true \/ parses line = true.

(** The entries that end a successful check: the total in verbose mode
    and the quota warning. *)
Definition totalEntry (v : bool) (total : Z) : list LogEntry :=
  if v then [Printf "Total size of mailbox: %d" [AInt total]] else [].

Definition quotaEntry (quotaWarnSize total : Z) : list LogEntry :=
  if quotaWarnSize <? total then [quotaWarning total] else [].

(** The server accepts the login on connection [c] and then answers
    LIST with the read results [rest]: the greeting and the two
    acknowledgements are single [+OK] lines and the USER and PASS
    commands go out. *)
Definition loggedIn (c : Conn) (rest : list (string * option error)) : Prop :=
  exists g u pa,
    readResults c = (g, None) :: (u, None) :: (pa, None) :: rest
    /\ strings.HasPrefix (strings.TrimSpace g) "+OK " = true
    /\ strings.HasPrefix (strings.TrimSpace u) "+OK" = true
    /\ strings.HasPrefix (strings.TrimSpace pa) "+OK" = true
    /\ succeeds (writeResults c) 0 /\ succeeds (flushResults c) 0
    /\ succeeds (writeResults c) 1 /\ succeeds (flushResults c) 1.

(** A server that accepts the login and answers LIST with [response];
    every write succeeds. *)
Definition session (response : list (string * option error)) : Conn :=
  freshConn ([okLine "+OK POP3 ready"; okLine "+OK"; okLine "+OK"] ++ response).

Definition dialTo (c : Conn) : string -> DialResult := fun _ => DialOk c.

(** The LIST response of the specification's example, and variations. *)
Definition exampleResponse : list (string * option error) :=
  [okLine "+OK 2 messages"; okLine "1 1024"; okLine "2 6000000"; okLine "."].

Definition trailingResponse : list (string * option error) :=
  [okLine "+OK 2 messages"; okLine "1 2 3"; okLine "+OK 7 900"; okLine "."].

Definition brokenResponse : list (string * option error) :=
  [okLine "+OK 3 messages"; okLine "1 6000"; okLine "not-a-number";
   okLine "3 7000"; okLine "."].

Definition hugeResponse : list (string * option error) :=
  [okLine "+OK 2 messages"; okLine "1 9223372036854775807"; okLine "2 1"; okLine "."].

Definition negativeResponse : list (string * option error) :=
  [okLine "+OK 2 messages"; okLine "1 100"; okLine "-2 -500"; okLine "."].

(** A server that accepts the login, with given results for the writes
    and the flushes. *)
Definition sessionWith (wr fl : list (option error))
           (response : list (string * option error)) : Conn :=
  mkConn ([okLine "+OK POP3 ready"; okLine "+OK"; okLine "+OK"] ++ response)
         wr fl "" [] 0 false.

(** The entry that the loop logs for each line in verbose mode. *)
Definition readEntry (v : bool) (line : string) : list LogEntry :=
  if v then [Printf "Read LIST line: %s" [AStr line]] else [].

(* ================================================================== *)
(** * Further vocabulary *)
(* ================================================================== *)

(** The runes of [itoa.FormatInt z], and a LIST line as a server
    writes it for the entry [e]: the id, one space, the size. *)
Definition digitRunes (n : Z) : list Z := map (fun d => 48 + d) (itoa.digits n).

Definition intRunes (z : Z) : list Z :=
  if z <? 0 then 45 :: digitRunes (- z) else digitRunes z.

Definition renderEntry (e : Z * Z) : string :=
  (itoa.FormatInt (fst e) ++ " " ++ itoa.FormatInt (snd e))%string.

(** The value of a sequence of decimal digits, first digit first. *)
Definition digitsValue (ds : list Z) (n : Z) : Z :=
  fold_left (fun acc d => acc * 10 + d) ds n.

(** Where a number ends in the input of the scanner: at the end of the
    input or before a rune that is not a digit. *)
Definition numberEnds (rest : list Z) : Prop :=
  match rest with
  | [] => True
  | r :: _ => fmt.indexRune fmt.decimalDigits r = false
  end.

(** An entry whose id and size are values of an [int]. *)
Definition intEntry (e : Z * Z) : Prop := inInt (fst e) /\ inInt (snd e).

(* ================================================================== *)
(** * The password file, the arguments and [main] *)
(* ================================================================== *)

(** A file as [os.Open] returns it: [data] are the bytes that can
    still be read, [fault] is the error that the read after the last
    byte reports instead of [io.EOF], if there is one, and [fileClosed]
    tells whether [Close] was called. *)
Record File : Type := mkFile {
  data : string;
  fault : option error;
  fileClosed : bool
}.

(** What [os.Open] returns. *)
Inductive OpenResult : Type :=
| OpenFails (e : error)
| OpenOk (fi : File).

(** The first line of [s] with its line feed, and what follows it. *)
Fixpoint cutLine (s : string) : option (string * string) :=
  match s with
  | EmptyString => None
  | String c t =>
    if Ascii.eqb c (ascii_of_nat 10) then Some (String c EmptyString, t)
    else match cutLine t with
         | Some (line, rest) => Some (String c line, rest)
         | None => None
         end
  end.

(** [reader.ReadString('\\n')] on a buffered reader over the file: the
    bytes up to and including the first line feed or, when there is
    none, the bytes that are left together with the error. *)
Definition File_ReadString (fi : File) : (string * option error) * File :=
  match cutLine (data fi) with
  | Some (line, rest) => ((line, None), mkFile rest (fault fi) (fileClosed fi))
  | None =>
    ((data fi, Some (match fault fi with Some e => e | None => io_EOF end)),
     mkFile EmptyString (fault fi) (fileClosed fi))
  end.

(** [fi.Close()] *)
Definition File_Close (fi : File) : File := mkFile (data fi) (fault fi) true.

(** The loop of [readFile] with the contents collected so far,
    followed by the [fi.Close()] and the [return] of its exit.  A turn
    that goes on has consumed a line feed, so [S (length data)] turns
    are enough ([readFile_loop_enough]). *)
Fixpoint readFile_loop (fuel : nat) (fi : File) (contents : string)
  : (string * option error) * File :=
  match fuel with
  | O => ((contents, None), File_Close fi)
  | S fuel' =>
    let '((line, err), fi) := File_ReadString fi in
    match err with
    | Some e =>
      if isEOF e then ((contents, None), File_Close fi)
      else (("", Some e), File_Close fi)
    | None =>
      let line := strings.TrimSpace line in
      readFile_loop fuel' fi (contents ++ line)%string
    end
  end.

(** [readFile]; [open] answers [os.Open(path)].  The result is the
    pair returned and the file, if one was opened, as it is left. *)
Definition readFile (open : string -> OpenResult) (path : string)
  : (string * option error) * option File :=
  if Nat.eqb (String.length path) 0
  then (("", Some (errors_New "invalid path")), None)
  else
    match open path with
    | OpenFails e => (("", Some e), None)
    | OpenOk fi =>
      let '(r, fi) := readFile_loop (S (String.length (data fi))) fi "" in
      (r, Some fi)
    end.

(** [argDef] *)
Record argDef : Type := mkArgDef {
  Host : string;
  User : string;
  Pass : string;
  Size : Z;
  Quota : Z
}.

(** The values of the flags after [flag.Parse()]: what the command
    line gave, or the default of the flag. *)
Record Flags : Type := mkFlags {
  flagHost : string;
  flagUser : string;
  flagPasswordFile : string;
  flagSize : Z;
  flagQuota : Z;
  flagVerbose : bool
}.

(** The defaults of the flags [-size] and [-quota]. *)
Definition defaultSize : Z := 5 * 1024 * 1024.
Definition defaultQuota : Z := 10 * 1024 * 1024.

(** What [getArgs] prints on a failure. *)
Inductive ArgsEvent : Type :=
| log_Print (s : string)
| flag_PrintDefaults.

Record ArgsResult : Type := mkArgsResult {
  args : option argDef;
  argsErr : option error;
  argsVerbose : bool;
  argsEvents : list ArgsEvent;
  argsFile : option File
}.

Section Arguments.

(** The text of an error, [err.Error()]. *)
Variable errorText : error -> string.

(** The failure exit of [getArgs]. *)
Definition argsFail (errString : string) (verboseOutput : bool)
           (fi : option File) : ArgsResult :=
  mkArgsResult None (Some (errors_New errString)) verboseOutput
               [log_Print errString; flag_PrintDefaults] fi.

(** [getArgs], from the values of the flags; [verboseOutput] is the
    package variable before the call, [argsVerbose] after it. *)
Definition getArgs (flags : Flags) (open : string -> OpenResult)
           (verboseOutput : bool) : ArgsResult :=
  if Nat.eqb (String.length (flagHost flags)) 0
  then argsFail "You must provide a host." verboseOutput None
  else if Nat.eqb (String.length (flagUser flags)) 0
  then argsFail "You must provide a username." verboseOutput None
  else if Nat.eqb (String.length (flagPasswordFile flags)) 0
  then argsFail "You must provide a password file." verboseOutput None
  else
    let '((pass, err), fi) := readFile open (flagPasswordFile flags) in
    match err with
    | Some e =>
      argsFail ("Unable to read password file: " ++ errorText e)%string
               verboseOutput fi
    | None =>
      if flagSize flags <=? 0
      then argsFail "You must provide a size larger than zero." verboseOutput fi
      else if flagQuota flags <=? 0
      then argsFail "You must provide a quota larger than zero." verboseOutput fi
      else
        let verboseOutput := if flagVerbose flags then true else verboseOutput in
        mkArgsResult (Some (mkArgDef (flagHost flags) (flagUser flags) pass
                                     (flagSize flags) (flagQuota flags)))
                     None verboseOutput [] fi
    end.



End Arguments.

(** A string without a line feed. *)
Definition noLF (s : string) : Prop := cutLine s = None.

(** A file of lines: every element of [ls] followed by a line feed. *)
Definition unlines (ls : list string) : string :=
  fold_right (fun l acc => (l ++ LF ++ acc)%string) "" ls.

(** The lines trimmed of their white space, one after the other. *)
Definition trimmedLines (ls : list string) : string :=
  fold_right (fun l acc => (strings.TrimSpace l ++ acc)%string) "" ls.

(** What [readFile] returns at the end of the file when [contents]
    were collected, for a file with the fault [flt]. *)
Definition atEnd (flt : option error) (contents : string) : string * option error :=
  match flt with
  | Some e => if isEOF e then (contents, None) else ("", Some e)
  | None => (contents, None)
  end.

(** A step that writes nothing to the server. *)
Definition Keeps {A} (m : M A) : Prop :=
  forall p, written (conn (snd (m p))) = written (conn p).

(** A part of the check that hands the first [n] of the commands [cmds]
    to the writer, in order, and nothing else; all of them when it
    returns [nil]. *)
Definition Sends (m : M (option error)) (cmds : list string) : Prop :=
  forall p, exists n,
    written (conn (snd (m p))) = written (conn p) ++ firstn n cmds
    /\ (fst (m p) = None -> n = List.length cmds).

(** The log without the warnings, and two runs side by side that
    differ in their warnings at most. *)
Definition plain (l : list LogEntry) : list LogEntry :=
  filter (fun e => negb (isWarning e)) l.

#[global] Arguments plain : simpl never.

Definition akin (p1 p2 : Proc) : Prop :=
  conn p1 = conn p2 /\ plain (log p1) = plain (log p2).

Definition Akin {A} (m1 m2 : M A) : Prop :=
  forall p1 p2, akin p1 p2 ->
    fst (m1 p1) = fst (m2 p2) /\ akin (snd (m1 p1)) (snd (m2 p2)).

(** The connection after a login that was accepted, when [rest] is
    left to read: three reads and two writes later. *)
Definition afterLogin (c : Conn) (user pass : string)
           (rest : list (string * option error)) : Conn :=
  mkConn rest
         (snd (popResult (snd (popResult (writeResults c)))))
         (snd (popResult (snd (popResult (flushResults c)))))
         (remoteAddr c)
         (written c ++ [userCmd user; passCmd pass])
         (3 + deadlines c) (closed c).

(** Examples for [getArgs] and [main]: the text of an error, a
    password file without a final newline, and flags. *)
Definition exampleText (e : error) : string :=
  match e with
  | errors_New msg => msg
  | plain_error msg => msg
  | _ => "error"
  end.

Definition exampleOpen : string -> OpenResult :=
  fun _ => OpenOk (mkFile "secret" None false).

Definition exampleFlags : Flags :=
  mkFlags "mail.example.com" "u" "/etc/pop3.pass" defaultSize defaultQuota false.

Definition noHostFlags : Flags :=
  mkFlags "" "u" "/etc/pop3.pass" defaultSize defaultQuota true.


(* ================================================================== *)
(** * Basic facts *)
(* ================================================================== *)

Lemma checkMailbox_connected_stages v user pass w q :
  checkMailbox_connected v user pass w q = fromGreeting v user pass w q.
Proof. reflexivity. Qed.

Lemma readLines_loop_script (endCheck : string -> bool) :
  forall script fuel lines c lg,
    readResults c = script ->
    (List.length script < fuel)%nat ->
    readLines_loop fuel endCheck lines (mkProc c lg) =
    let '(r, rest, out, n) := readScript endCheck script lines in
    (r, mkProc (afterReads c rest n) (lg ++ out)).
Proof.
  induction script as [|[raw err] rest IH]; intros fuel lines c lg Hc Hf.
  - destruct fuel as [|fuel]; [simpl in Hf; lia|].
    destruct c; simpl in Hc; subst.
    reflexivity.
  - destruct fuel as [|fuel]; [simpl in Hf; lia|].
    destruct c as [rr wr fr ra w d cl]; simpl in Hc; subst rr.
    destruct err as [e|].
    + simpl. unfold bind, readLine, setReadDeadline, SetReadDeadline, modifyConn, ReadString, log_Printf, ret; simpl.
      destruct (isNetTimeout e); simpl; [reflexivity|].
      destruct (isEOF e); simpl; [reflexivity|].
      rewrite <- app_assoc. reflexivity.
    + cbn [readLines_loop readScript].
      unfold bind at 1. unfold readLine at 1.
      unfold bind, setReadDeadline, SetReadDeadline, modifyConn, ReadString, ret; simpl.
      destruct (endCheck (strings.TrimSpace raw)) eqn:E.
      * unfold afterReads; simpl. rewrite app_nil_r. reflexivity.
      * rewrite (IH fuel (lines ++ [strings.TrimSpace raw])
                    (mkConn rest wr fr ra w (S d) cl) lg eq_refl); [|simpl in Hf; lia].
        destruct (readScript endCheck rest (lines ++ [strings.TrimSpace raw])) as [[[r rest'] out] n].
        unfold afterReads; simpl.
        replace (n + S d)%nat with (S (n + d)) by lia. reflexivity.
Qed.

(** The loop of [readLines] never runs out of turns: any number of
    turns above the number of read results gives the same outcome. *)
Lemma readLines_loop_enough (endCheck : string -> bool) fuel1 fuel2 lines p :
  (List.length (readResults (conn p)) < fuel1)%nat ->
  (List.length (readResults (conn p)) < fuel2)%nat ->
  readLines_loop fuel1 endCheck lines p = readLines_loop fuel2 endCheck lines p.
Proof.
  intros H1 H2. destruct p as [c lg]. cbn [conn] in *.
  rewrite (@readLines_loop_script endCheck (readResults c) fuel1 lines c lg eq_refl H1).
  rewrite (@readLines_loop_script endCheck (readResults c) fuel2 lines c lg eq_refl H2).
  reflexivity.
Qed.

Lemma readLines_script (endCheck : string -> bool) (p : Proc) :
  readLines endCheck p =
  let '(r, rest, out, n) := readScript endCheck (readResults (conn p)) [] in
  (r, mkProc (afterReads (conn p) rest n) (log p ++ out)).
Proof.
  destruct p as [c lg]. unfold readLines. cbn [conn log].
  apply readLines_loop_script; [reflexivity|lia].
Qed.

Lemma collected_script endCheck script :
  collected endCheck script = fst (fst (fst (readScript endCheck script []))).
Proof.
  unfold collected. rewrite readLines_script. cbn [conn freshConn readResults].
  destruct (readScript endCheck script []) as [[[r rest] out] n]. reflexivity.
Qed.

(* ================================================================== *)
(** * What every step of the session preserves *)
(* ================================================================== *)

Lemma grows_refl p : grows p p.
Proof.
  repeat split; exists []; now rewrite app_nil_r.
Qed.

Lemma grows_trans p1 p2 p3 : grows p1 p2 -> grows p2 p3 -> grows p1 p3.
Proof.
  intros (Hc1 & [w1 Hw1] & [e1 He1]) (Hc2 & [w2 Hw2] & [e2 He2]).
  repeat split.
  - congruence.
  - exists (w1 ++ w2). rewrite Hw2, Hw1. now rewrite app_assoc.
  - exists (e1 ++ e2). rewrite He2, He1. now rewrite app_assoc.
Qed.

Lemma Grows_ret {A} (a : A) : Grows (ret a).
Proof. intros p. apply grows_refl. Qed.

Lemma Grows_bind {A B} (m : M A) (k : A -> M B) :
  Grows m -> (forall a, Grows (k a)) -> Grows (bind m k).
Proof.
  intros Hm Hk p. unfold bind.
  specialize (Hm p). destruct (m p) as [a p1]. cbn [snd] in Hm.
  eapply grows_trans; [exact Hm|apply Hk].
Qed.

Lemma Grows_log f args : Grows (log_Printf f args).
Proof.
  intros p. repeat split; cbn.
  - exists []. now rewrite app_nil_r.
  - eexists. reflexivity.
Qed.

Lemma Grows_when b (m : M unit) : Grows m -> Grows (when b m).
Proof. intros H. destruct b; [exact H|apply Grows_ret]. Qed.

Lemma Grows_SetReadDeadline : Grows SetReadDeadline.
Proof.
  intros p. repeat split; cbn; exists []; now rewrite app_nil_r.
Qed.

Lemma Grows_ReadString : Grows ReadString.
Proof.
  intros p. unfold ReadString.
  destruct (readResults (conn p)); [apply grows_refl|].
  repeat split; cbn; exists []; now rewrite app_nil_r.
Qed.

Lemma Grows_WriteString s : Grows (WriteString s).
Proof.
  intros p. unfold WriteString.
  destruct (popResult (writeResults (conn p))) as [r rest].
  repeat split; cbn.
  - eexists. reflexivity.
  - exists []. now rewrite app_nil_r.
Qed.

Lemma Grows_Flush : Grows Flush.
Proof.
  intros p. unfold Flush.
  destruct (popResult (flushResults (conn p))) as [r rest].
  repeat split; cbn; exists []; now rewrite app_nil_r.
Qed.

(** One step of a proof that a program built from [bind], [ret],
    matches and the primitives preserves [grows]. *)
Ltac grows_step :=
  match goal with
  | |- Grows (bind _ _) => apply Grows_bind; [|intros]
  | |- Grows (ret _) => apply Grows_ret
  | |- Grows (log_Printf _ _) => apply Grows_log
  | |- Grows (when _ _) => apply Grows_when
  | |- Grows SetReadDeadline => apply Grows_SetReadDeadline
  | |- Grows ReadString => apply Grows_ReadString
  | |- Grows (WriteString _) => apply Grows_WriteString
  | |- Grows Flush => apply Grows_Flush
  | |- Grows (match ?x with _ => _ end) => destruct x
  end.

Lemma Grows_readLine : Grows readLine.
Proof. unfold readLine, setReadDeadline. repeat grows_step. Qed.

Lemma Grows_readLines_loop endCheck fuel :
  forall lines, Grows (readLines_loop fuel endCheck lines).
Proof.
  induction fuel as [|fuel IH]; intros lines; cbn [readLines_loop].
  - apply Grows_ret.
  - apply Grows_bind; [apply Grows_readLine|].
    intros [line err]. repeat grows_step. apply IH.
Qed.

Lemma Grows_readLines endCheck : Grows (readLines endCheck).
Proof. intros p. unfold readLines. apply Grows_readLines_loop. Qed.

Lemma Grows_writeLine v s : Grows (writeLine v s).
Proof. unfold writeLine. repeat grows_step. Qed.

Lemma Grows_listLoop v w lines : forall t, Grows (listLoop v w lines t).
Proof.
  induction lines as [|line rest IH]; intros t; cbn [listLoop].
  - apply Grows_ret.
  - repeat grows_step; apply IH.
Qed.

Ltac grows_auto :=
  repeat (grows_step
          || apply Grows_readLines || apply Grows_writeLine
          || apply Grows_listLoop).

Lemma Grows_fromList v w q : Grows (fromList v w q).
Proof. unfold fromList. grows_auto. Qed.

Lemma Grows_fromPass v pass w q : Grows (fromPass v pass w q).
Proof. unfold fromPass. grows_auto. apply Grows_fromList. Qed.

Lemma Grows_fromUser v user pass w q : Grows (fromUser v user pass w q).
Proof. unfold fromUser. grows_auto. apply Grows_fromPass. Qed.

Lemma Grows_fromGreeting v user pass w q : Grows (fromGreeting v user pass w q).
Proof. unfold fromGreeting. grows_auto. apply Grows_fromUser. Qed.

(* ================================================================== *)
(** * The verbose run against the quiet run *)
(* ================================================================== *)

Lemma quiet_app l1 l2 : quiet (l1 ++ l2) = quiet l1 ++ quiet l2.
Proof. unfold quiet. apply filter_app. Qed.

Lemma Alike_ret {A} (a : A) : Alike (ret a) (ret a).
Proof. intros p1 p2 H. split; [reflexivity|exact H]. Qed.

Lemma Alike_bind {A B} (m1 m2 : M A) (k1 k2 : A -> M B) :
  Alike m1 m2 -> (forall a, Alike (k1 a) (k2 a)) ->
  Alike (bind m1 k1) (bind m2 k2).
Proof.
  intros Hm Hk p1 p2 H. unfold bind.
  destruct (Hm p1 p2 H) as [Ha Hp].
  destruct (m1 p1) as [a1 q1], (m2 p2) as [a2 q2]. cbn [fst snd] in *.
  subst a2. apply Hk, Hp.
Qed.

Lemma Alike_log f args :
  isDiagnostic (Printf f args) = false ->
  Alike (log_Printf f args) (log_Printf f args).
Proof.
  intros Hd p1 p2 [Hc Hl]. split; [reflexivity|]. split; cbn; [exact Hc|].
  rewrite quiet_app, Hl. unfold quiet at 3. cbn [filter]. rewrite Hd. reflexivity.
Qed.

Lemma Alike_diagnostic f args :
  isDiagnostic (Printf f args) = true ->
  Alike (when true (log_Printf f args)) (when false (log_Printf f args)).
Proof.
  intros Hd p1 p2 [Hc Hl]. split; [reflexivity|]. split; cbn; [exact Hc|].
  rewrite quiet_app, Hl. unfold quiet at 3. cbn [filter]. rewrite Hd.
  cbn. now rewrite app_nil_r.
Qed.

Lemma Alike_when b (m1 m2 : M unit) :
  Alike m1 m2 -> Alike (when b m1) (when b m2).
Proof. intros H. destruct b; [exact H|apply Alike_ret]. Qed.

(** An action that does not touch the log. *)
Lemma Alike_conn_only {A} (f : Conn -> A * Conn) :
  Alike (fun p => let '(a, c) := f (conn p) in (a, mkProc c (log p)))
        (fun p => let '(a, c) := f (conn p) in (a, mkProc c (log p))).
Proof.
  intros p1 p2 [Hc Hl]. rewrite Hc.
  destruct (f (conn p2)) as [a c]. cbn. repeat split. exact Hl.
Qed.

Lemma Alike_SetReadDeadline : Alike SetReadDeadline SetReadDeadline.
Proof.
  intros p1 p2 [Hc Hl]. cbn. rewrite Hc. repeat split. exact Hl.
Qed.

Lemma Alike_ReadString : Alike ReadString ReadString.
Proof.
  intros p1 p2 [Hc Hl]. unfold ReadString. rewrite Hc.
  destruct (readResults (conn p2)); cbn; repeat split; assumption.
Qed.

Lemma Alike_WriteString s : Alike (WriteString s) (WriteString s).
Proof.
  intros p1 p2 [Hc Hl]. unfold WriteString. rewrite Hc.
  destruct (popResult (writeResults (conn p2))); cbn; repeat split; assumption.
Qed.

Lemma Alike_Flush : Alike Flush Flush.
Proof.
  intros p1 p2 [Hc Hl]. unfold Flush. rewrite Hc.
  destruct (popResult (flushResults (conn p2))); cbn; repeat split; assumption.
Qed.

Ltac alike_step :=
  match goal with
  | |- Alike (bind _ _) (bind _ _) => apply Alike_bind; [|intros]
  | |- Alike (ret _) (ret _) => apply Alike_ret
  | |- Alike (when true (log_Printf _ _)) (when false (log_Printf _ _)) =>
    apply Alike_diagnostic; reflexivity
  | |- Alike (log_Printf _ _) (log_Printf _ _) => apply Alike_log; reflexivity
  | |- Alike (when ?b _) (when ?b _) => apply Alike_when
  | |- Alike SetReadDeadline SetReadDeadline => apply Alike_SetReadDeadline
  | |- Alike ReadString ReadString => apply Alike_ReadString
  | |- Alike (WriteString _) (WriteString _) => apply Alike_WriteString
  | |- Alike Flush Flush => apply Alike_Flush
  | |- Alike (match ?x with _ => _ end) (match ?x with _ => _ end) => destruct x
  end.

Lemma Alike_readLine : Alike readLine readLine.
Proof. unfold readLine, setReadDeadline. repeat alike_step. Qed.

Lemma Alike_readLines_loop endCheck fuel :
  forall lines, Alike (readLines_loop fuel endCheck lines)
                      (readLines_loop fuel endCheck lines).
Proof.
  induction fuel as [|fuel IH]; intros lines; cbn [readLines_loop].
  - apply Alike_ret.
  - apply Alike_bind; [apply Alike_readLine|].
    intros [line err]. repeat alike_step. apply IH.
Qed.

Lemma Alike_readLines endCheck : Alike (readLines endCheck) (readLines endCheck).
Proof.
  intros p1 p2 H. unfold readLines. rewrite (proj1 H).
  now apply Alike_readLines_loop.
Qed.

Lemma Alike_writeLine s : Alike (writeLine true s) (writeLine false s).
Proof. unfold writeLine. repeat alike_step. Qed.

Lemma Alike_listLoop w lines :
  forall t, Alike (listLoop true w lines t) (listLoop false w lines t).
Proof.
  induction lines as [|line rest IH]; intros t; cbn [listLoop].
  - apply Alike_ret.
  - repeat alike_step; apply IH.
Qed.

Ltac alike_auto :=
  repeat (alike_step
          || apply Alike_readLines || apply Alike_writeLine
          || apply Alike_listLoop).

Lemma Alike_fromList w q : Alike (fromList true w q) (fromList false w q).
Proof. unfold fromList. alike_auto. Qed.

Lemma Alike_fromPass pass w q :
  Alike (fromPass true pass w q) (fromPass false pass w q).
Proof. unfold fromPass. alike_auto. apply Alike_fromList. Qed.

Lemma Alike_fromUser user pass w q :
  Alike (fromUser true user pass w q) (fromUser false user pass w q).
Proof. unfold fromUser. alike_auto. apply Alike_fromPass. Qed.

Lemma Alike_fromGreeting user pass w q :
  Alike (fromGreeting true user pass w q) (fromGreeting false user pass w q).
Proof. unfold fromGreeting. alike_auto. apply Alike_fromUser. Qed.

Lemma warning_not_diagnostic e : isWarning e = true -> isDiagnostic e = false.
Proof.
  destruct e as [f args]. unfold isWarning. intros H.
  apply orb_true_iff in H. destruct H as [H|H];
    apply String.eqb_eq in H; subst f; reflexivity.
Qed.

Lemma warnings_quiet l : warnings (quiet l) = warnings l.
Proof.
  induction l as [|e l IH]; [reflexivity|].
  unfold warnings, quiet in *. cbn [filter].
  destruct (isDiagnostic e) eqn:Hd; cbn [negb filter].
  - destruct (isWarning e) eqn:Hw; [|exact IH].
    apply warning_not_diagnostic in Hw. congruence.
  - destruct (isWarning e); [f_equal|]; exact IH.
Qed.

(* ================================================================== *)
(** * The claims of the specification *)
(* ================================================================== *)

(** C10.  For any answers of the network, the verbose run and the quiet
    run of [checkMailbox] return the same error or success, leave the
    connection in the same state (the same reads, the same commands
    written) and log the same warnings; the quiet log is the verbose
    log with the diagnostic entries removed. *)
Theorem verbose_only_adds_diagnostics dial host user pass w q :
  let ov := checkMailbox true dial host user pass w q in
  let oq := checkMailbox false dial host user pass w q in
  result ov = result oq
  /\ finalConn ov = finalConn oq
  /\ logged oq = quiet (logged ov)
  /\ warnings (logged ov) = warnings (logged oq).
Proof.
  cbv zeta.
  assert (H : result (checkMailbox true dial host user pass w q)
              = result (checkMailbox false dial host user pass w q)
              /\ finalConn (checkMailbox true dial host user pass w q)
                 = finalConn (checkMailbox false dial host user pass w q)
              /\ logged (checkMailbox false dial host user pass w q)
                 = quiet (logged (checkMailbox true dial host user pass w q))).
  { unfold checkMailbox.
    destruct (dial (hostPortOf host)) as [e|c].
    - cbn. repeat split.
    - rewrite (checkMailbox_connected_stages true), (checkMailbox_connected_stages false).
      unfold newConn.
      pose proof (@Alike_fromGreeting user pass w q
                    (mkProc c ([Printf "Connecting to %s..." [AStr host]]
                               ++ [Printf "Connected to [%s] (%s)"
                                          [AStr (hostPortOf host); AStr (remoteAddr c)]]))
                    (mkProc c [])) as HA.
      destruct HA as [Hr [Hc Hl]]; [split; reflexivity|].
      destruct (fromGreeting true user pass w q _) as [e1 p1].
      destruct (fromGreeting false user pass w q _) as [e2 p2].
      cbn [fst snd conn log result finalConn logged] in *. subst. repeat split; congruence. }
  destruct H as (Hr & Hc & Hl). repeat split; try assumption.
  rewrite Hl. symmetry. apply warnings_quiet.
Qed.

(** C1, as amended.  [checkMailbox] never calls [Close]: on every path,
    success or failure, the connection that [net.Dial] returned is in
    the same open-or-closed state when the check returns as it was when
    it was made. *)
Theorem connection_never_closed v dial host user pass w q c :
  dial (hostPortOf host) = DialOk c ->
  exists c', finalConn (checkMailbox v dial host user pass w q) = Some c'
             /\ closed c' = closed c.
Proof.
  intros Hd. unfold checkMailbox. rewrite Hd.
  rewrite checkMailbox_connected_stages. unfold newConn.
  match goal with
  | |- context [fromGreeting v user pass w q ?p0] =>
    pose proof (@Grows_fromGreeting v user pass w q p0) as HG;
    destruct (fromGreeting v user pass w q p0) as [e p]
  end.
  exists (conn p). split; [reflexivity|].
  destruct HG as [Hc _]. exact Hc.
Qed.

Lemma readScript_passesBy endCheck pre :
  forall tail acc,
    Forall (passesBy endCheck) pre ->
    readScript endCheck (pre ++ tail) acc =
    let '(r, rest, out, n) := readScript endCheck tail (acc ++ trimmed pre) in
    (r, rest, out, (List.length pre + n)%nat).
Proof.
  induction pre as [|[raw err] pre IH]; intros tail acc HF.
  - cbn. rewrite app_nil_r.
    destruct (readScript endCheck tail acc) as [[[r rest] out] n]. reflexivity.
  - inversion HF as [|? ? [Herr Hend] HF']; subst. cbn [fst snd] in Herr, Hend. subst err.
    cbn [app readScript]. rewrite Hend.
    rewrite (IH tail (acc ++ [strings.TrimSpace raw]) HF').
    cbn [trimmed map fst]. rewrite <- app_assoc. cbn [app].
    fold (trimmed pre).
    destruct (readScript endCheck tail (acc ++ strings.TrimSpace raw :: trimmed pre))
      as [[[r rest] out] n].
    reflexivity.
Qed.

(** C3.  Let the coming reads be [pre ++ tail] where every read of [pre]
    delivers a line that does not satisfy [endCheck].  [readLines]
    returns the (trimmed) lines in the order received, and stops at the
    first read of [tail]: if it delivers a line that satisfies
    [endCheck], that line is the last element of the result and nothing
    after it is read; if it is a timeout or [io.EOF] (also when the
    reads are used up), the lines collected so far are returned with no
    error; any other read error is returned with no lines at all. *)
Theorem readLines_collects endCheck p pre tail :
  readResults (conn p) = pre ++ tail ->
  Forall (passesBy endCheck) pre ->
  match tail with
  | [] =>
    fst (readLines endCheck p) = (trimmed pre, None)
  | (raw, None) :: rest =>
    endCheck (strings.TrimSpace raw) = true ->
    fst (readLines endCheck p) = (trimmed pre ++ [strings.TrimSpace raw], None)
    /\ readResults (conn (snd (readLines endCheck p))) = rest
  | (raw, Some e) :: rest =>
    (isNetTimeout e = true \/ isEOF e = true ->
     fst (readLines endCheck p) = (trimmed pre, None))
    /\ (isNetTimeout e = false -> isEOF e = false ->
        fst (readLines endCheck p) = ([], Some e))
    /\ readResults (conn (snd (readLines endCheck p))) = rest
  end.
Proof.
  intros Hr HF. rewrite readLines_script, Hr.
  rewrite (readScript_passesBy tail [] HF). cbn [app].
  destruct tail as [|[raw [e|]] rest]; cbn [readScript].
  - reflexivity.
  - destruct (isNetTimeout e) eqn:Ht; [|destruct (isEOF e) eqn:He]; cbn [orb fst snd conn afterReads readResults].
    + repeat split; intros; try reflexivity; discriminate.
    + repeat split; intros; try reflexivity; discriminate.
    + repeat split; intros; try reflexivity.
      destruct H; discriminate.
  - intros Hend. rewrite Hend. cbn. split; reflexivity.
Qed.

Lemma readLines_collects_witness :
  let p := mkProc (freshConn [okLine "+OK 2 messages"; okLine "1 1024";
                              timeoutRead; okLine "2 6000000"]) [] in
  Forall (passesBy endDot) [okLine "+OK 2 messages"; okLine "1 1024"]
  /\ fst (readLines endDot p) = (["+OK 2 messages"; "1 1024"], None)
  /\ readResults (conn (snd (readLines endDot p))) = [okLine "2 6000000"].
Proof.
  cbv zeta.
  assert (HF : Forall (passesBy endDot) [okLine "+OK 2 messages"; okLine "1 1024"]).
  { repeat constructor. }
  split; [exact HF|].
  pose proof (@readLines_collects endDot
                (mkProc (freshConn [okLine "+OK 2 messages"; okLine "1 1024";
                                    timeoutRead; okLine "2 6000000"]) [])
                [okLine "+OK 2 messages"; okLine "1 1024"]
                [timeoutRead; okLine "2 6000000"] eq_refl HF) as H.
  cbv beta iota delta [timeoutRead] in H.
  destruct H as (H1 & _ & H3).
  split; [|exact H3].
  etransitivity; [exact (H1 (or_introl eq_refl))|vm_compute; reflexivity].
Defined.

(** C8.  If the very first read of a [readLines] call ends in a timeout
    or in [io.EOF], the call returns the empty sequence and no error: a
    success.  It is the caller that tells it from a response: at the
    greeting, [checkMailbox] then fails on its count of lines, with
    nothing written to the server. *)
Theorem first_read_timeout_is_empty_success endCheck c lg raw e rest :
  readResults c = (raw, Some e) :: rest ->
  isNetTimeout e = true \/ isEOF e = true ->
  fst (readLines endCheck (mkProc c lg)) = ([], None)
  /\ forall v dial host user pass w q,
      dial (hostPortOf host) = DialOk c ->
      let o := checkMailbox v dial host user pass w q in
      result o = Some (errors_New "Unexpected line count")
      /\ sent o = written c.
Proof.
  intros Hr He.
  assert (Hor : isNetTimeout e || isEOF e = true).
  { apply orb_true_iff. exact He. }
  split.
  - rewrite readLines_script. cbn [conn]. rewrite Hr. cbn [readScript].
    rewrite Hor. reflexivity.
  - intros v dial host user pass w q Hd. cbv zeta.
    unfold checkMailbox. rewrite Hd, checkMailbox_connected_stages.
    unfold newConn, fromGreeting, bind.
    rewrite readLines_script. cbn [conn]. rewrite Hr. cbn [readScript].
    rewrite Hor. cbn. split; reflexivity.
Qed.

Lemma first_read_timeout_is_empty_success_witness :
  let c := freshConn [timeoutRead; okLine "+OK POP3 ready"] in
  fst (readLines endOK (mkProc c [])) = ([], None)
  /\ result (checkMailbox false (fun _ => DialOk c) "mail" "u" "p" 1000 1000)
     = Some (errors_New "Unexpected line count").
Proof.
  cbv zeta.
  destruct (@first_read_timeout_is_empty_success endOK
              (freshConn [timeoutRead; okLine "+OK POP3 ready"]) []
              "" (net_Error true "i/o timeout") [okLine "+OK POP3 ready"]
              eq_refl (or_introl eq_refl)) as [H1 H2].
  split; [exact H1|].
  exact (proj1 (H2 false (fun _ => DialOk (freshConn [timeoutRead; okLine "+OK POP3 ready"]))
                   "mail" "u" "p" 1000 1000 eq_refl)).
Defined.

(* ------------------------------------------------------------------ *)
(** ** Steps of the session *)

Lemma prefix_app_l (s1 s2 : string) :
  forall s, String.prefix (s1 ++ s2) s = true -> String.prefix s1 s = true.
Proof.
  induction s1 as [|a s1 IH]; intros s H.
  - destruct s; reflexivity.
  - destruct s as [|b s]; cbn [String.prefix String.append] in *; [discriminate|].
    destruct (ascii_dec a b); [apply IH, H|discriminate].
Qed.

Lemma HasPrefix_OK_space s :
  strings.HasPrefix s "+OK " = true -> strings.HasPrefix s "+OK" = true.
Proof. unfold strings.HasPrefix. apply (prefix_app_l "+OK" " "). Qed.

Lemma lenIs1_single (lines : list string) :
  lenIs1 lines = true -> lines = [index0 lines].
Proof.
  destruct lines as [|l [|l' lines]]; cbn; try discriminate. reflexivity.
Qed.

Lemma lenIs1_length (lines : list string) :
  lenIs1 lines = true <-> List.length lines = 1%nat.
Proof. unfold lenIs1. apply Nat.eqb_eq. Qed.

Lemma writeLine_written v s p :
  written (conn (snd (writeLine v s p))) = written (conn p) ++ [(s ++ CRLF)%string].
Proof.
  destruct p as [c lg]. unfold writeLine, bind, when, WriteString, Flush, log_Printf, ret.
  destruct v; cbn [conn log];
    destruct (popResult (writeResults c)) as [[e|] wr]; cbn; try reflexivity;
      destruct (popResult (flushResults c)) as [[e|] fr]; reflexivity.
Qed.

Lemma writeLine_ok v s c lg :
  succeeds (writeResults c) 0 -> succeeds (flushResults c) 0 ->
  writeLine v s (mkProc c lg)
  = (None, mkProc (afterWrite c (s ++ CRLF)) (lg ++ writingEntry v s)).
Proof.
  unfold succeeds. intros Hw Hf.
  unfold writeLine, bind, when, WriteString, Flush, log_Printf, ret, afterWrite, writingEntry.
  destruct c as [rr wr fr ra wn d cl]. cbn [writeResults flushResults] in *.
  destruct wr as [|r wr]; destruct fr as [|r' fr]; cbn in Hw, Hf; subst;
    destruct v; cbn; rewrite ?app_nil_r; reflexivity.
Qed.

(** After a step that writes exactly [ws0], whatever follows leaves
    [ws0] where it is in the sequence of commands written. *)
Lemma bind_written {A B} (m : M A) (k : A -> M B) ws0 :
  (forall p, written (conn (snd (m p))) = written (conn p) ++ ws0) ->
  (forall a, Grows (k a)) ->
  forall p, exists ws,
      written (conn (snd (bind m k p))) = written (conn p) ++ ws0 ++ ws.
Proof.
  intros Hm Hk p. unfold bind. specialize (Hm p).
  destruct (m p) as [a p1]. cbn [snd] in Hm.
  destruct (Hk a p1) as (_ & [ws Hws] & _).
  exists ws. rewrite Hws, Hm. now rewrite app_assoc.
Qed.

Lemma fromUser_writes v user pass w q p :
  exists ws, written (conn (snd (fromUser v user pass w q p)))
             = written (conn p) ++ userCmd user :: ws.
Proof.
  unfold fromUser. cbv zeta.
  apply (@bind_written _ _ (writeLine v ("USER " ++ user)) _ [userCmd user]).
  - intros p0. apply writeLine_written.
  - intros err. grows_auto. apply Grows_fromPass.
Qed.

Lemma fromPass_writes v pass w q p :
  exists ws, written (conn (snd (fromPass v pass w q p)))
             = written (conn p) ++ passCmd pass :: ws.
Proof.
  unfold fromPass. cbv zeta.
  apply (@bind_written _ _ (writeLine v ("PASS " ++ pass)) _ [passCmd pass]).
  - intros p0. apply writeLine_written.
  - intros err. grows_auto. apply Grows_fromList.
Qed.

Lemma fromList_writes v w q p :
  exists ws, written (conn (snd (fromList v w q p)))
             = written (conn p) ++ listCmd :: ws.
Proof.
  unfold fromList.
  apply (@bind_written _ _ (writeLine v "LIST") _ [listCmd]).
  - intros p0. apply writeLine_written.
  - intros err. grows_auto.
Qed.

(** Case analysis on what was collected, for the statements below. *)
Ltac claim_cases :=
  repeat match goal with
         | |- _ /\ _ => split
         | |- _ <-> _ => split
         | |- forall _, _ => intro
         | H : (_, _) = (_, _) |- _ => inversion H; subst; clear H
         | H : exists _, _ |- _ => destruct H
         | H : _ /\ _ |- _ => destruct H
         end;
  try discriminate; try congruence; try reflexivity.

(** The greeting step on a connection, in terms of what [readLines]
    collects. *)
Lemma fromGreeting_cases v user pass w q c lg :
  let '(r, rest, out, n) := readScript endOK (readResults c) [] in
  let p1 := mkProc (afterReads c rest n) (lg ++ out) in
  fromGreeting v user pass w q (mkProc c lg) =
  match r with
  | (_, Some e) =>
    (Some e, mkProc (conn p1) (log p1 ++ [Printf "Error reading lines: %s" [AErr e]]))
  | (lines, None) =>
    if negb (lenIs1 lines)
    then (Some (errors_New "Unexpected line count"),
          mkProc (conn p1)
                 (log p1 ++ [Printf "Unexpected number of lines: %s"
                                    [AInt (Z.of_nat (List.length lines))]]))
    else if negb (strings.HasPrefix (index0 lines) "+OK ")
         then (Some (errors_New "Invalid greeting"),
               mkProc (conn p1)
                      (log p1 ++ [Printf "Greeting line is not OK: %s"
                                         [AStr (index0 lines)]]))
         else fromUser v user pass w q p1
  end.
Proof.
  unfold fromGreeting, bind. rewrite readLines_script. cbn [conn log].
  destruct (readScript endOK (readResults c) []) as [[[[lines [e|]] rest] out] n].
  - reflexivity.
  - destruct (negb (lenIs1 lines)); [reflexivity|].
    destruct (negb (strings.HasPrefix (index0 lines) "+OK ")); reflexivity.
Qed.

(** C6.  On a connection just made, let [r] be what [readLines]
    collects up to the first line that begins with [+OK].  The check
    goes on to authentication (its first command, [USER], is handed to
    the writer) if and only if [r] is exactly one line and that line
    begins with [+OK ] (with the space).  With zero or several lines
    the check fails with "Unexpected line count", with one line that
    does not begin with [+OK ] it fails with "Invalid greeting", and a
    read error is returned as it is; in all three cases nothing has been
    written. *)
Theorem greeting_decides v dial host user pass w q c :
  dial (hostPortOf host) = DialOk c ->
  written c = [] ->
  let o := checkMailbox v dial host user pass w q in
  let r := collected endOK (readResults c) in
  (hd_error (sent o) = Some (userCmd user)
   <-> exists l, r = ([l], None) /\ strings.HasPrefix l "+OK " = true)
  /\ (forall lines, r = (lines, None) -> List.length lines <> 1%nat ->
      result o = Some (errors_New "Unexpected line count") /\ sent o = [])
  /\ (forall l, r = ([l], None) -> strings.HasPrefix l "+OK " = false ->
      result o = Some (errors_New "Invalid greeting") /\ sent o = [])
  /\ (forall lines e, r = (lines, Some e) ->
      result o = Some e /\ sent o = []).
Proof.
  intros Hd Hw. cbv zeta.
  rewrite collected_script.
  unfold checkMailbox. rewrite Hd, checkMailbox_connected_stages. unfold newConn.
  match goal with
  | |- context [fromGreeting v user pass w q (mkProc c ?lg)] =>
    pose proof (@fromGreeting_cases v user pass w q c lg) as HC;
    pose proof (@fromUser_writes v user pass w q) as HU;
    generalize dependent (fromGreeting v user pass w q (mkProc c lg))
  end.
  destruct (readScript endOK (readResults c) []) as [[[[lines [e|]] rest] out] n];
    cbn [fst conn log]; intros res HC; subst res.
  - (* read error *)
    unfold sent; cbn [result finalConn afterReads written conn]. rewrite Hw.
    claim_cases.
  - destruct (lenIs1 lines) eqn:Hlen; cbn [negb].
    + pose proof (lenIs1_single _ Hlen) as Hone.
      apply lenIs1_length in Hlen.
      destruct (strings.HasPrefix (index0 lines) "+OK ") eqn:Hp; cbn [negb].
      * (* the greeting is accepted *)
        match goal with
        | |- context [fromUser v user pass w q ?p1] =>
          destruct (HU p1) as [ws Hws];
          destruct (fromUser v user pass w q p1) as [e p2]
        end.
        cbn [snd conn afterReads written] in Hws. rewrite Hw in Hws.
        unfold sent; cbn [result finalConn]. rewrite Hws. cbn [app hd_error].
        claim_cases.
        exists (index0 lines). split; [now rewrite <- Hone|exact Hp].
      * unfold sent; cbn [result finalConn afterReads written conn]. rewrite Hw.
        claim_cases; cbn [index0 nth] in Hp; congruence.
    + unfold sent; cbn [result finalConn afterReads written conn]. rewrite Hw.
      assert (Hne : List.length lines <> 1%nat).
      { intros Hc. apply lenIs1_length in Hc. congruence. }
      claim_cases; cbn in Hne; congruence.
Qed.

Lemma succeeds_next l n : succeeds l (S n) -> succeeds (snd (popResult l)) n.
Proof.
  unfold succeeds. destruct l as [|r l]; cbn; [destruct n; reflexivity|auto].
Qed.

Lemma greeting_ok v user pass w q c lg g rest :
  readResults c = (g, None) :: rest ->
  strings.HasPrefix (strings.TrimSpace g) "+OK " = true ->
  fromGreeting v user pass w q (mkProc c lg)
  = fromUser v user pass w q (mkProc (afterReads c rest 1) lg).
Proof.
  intros Hr Hp. pose proof (@fromGreeting_cases v user pass w q c lg) as HC.
  rewrite Hr in HC. cbn [readScript] in HC.
  unfold endOK in HC at 1. rewrite (HasPrefix_OK_space _ Hp) in HC.
  cbn [app lenIs1 List.length Nat.eqb negb index0 nth] in HC. rewrite Hp in HC.
  cbn [negb] in HC. rewrite app_nil_r in HC. exact HC.
Qed.

(** The USER exchange when the command goes out. *)
Lemma fromUser_cases v user pass w q c lg :
  succeeds (writeResults c) 0 -> succeeds (flushResults c) 0 ->
  let '(r, rest, out, n) := readScript endOK (readResults c) [] in
  let p2 := mkProc (afterReads (afterWrite c (userCmd user)) rest n)
                   ((lg ++ writingEntry v ("USER " ++ user)) ++ out) in
  fromUser v user pass w q (mkProc c lg) =
  match r with
  | (_, Some e) =>
    (Some e, mkProc (conn p2) (log p2 ++ [Printf "Failed to read lines: %s" [AErr e]]))
  | (lines, None) =>
    if negb (lenIs1 lines) || negb (strings.HasPrefix (index0 lines) "+OK")
    then (Some (errors_New "Unexpected user respose"),
          mkProc (conn p2) (log p2 ++ [Printf "Unexpected USER response" []]))
    else fromPass v pass w q p2
  end.
Proof.
  intros Hw Hf. unfold fromUser. cbv zeta. unfold bind at 1.
  rewrite (writeLine_ok v _ c lg Hw Hf). unfold bind.
  rewrite readLines_script. cbn [conn log afterWrite readResults].
  destruct (readScript endOK (readResults c) []) as [[[[lines [e|]] rest] out] n].
  - reflexivity.
  - destruct (negb (lenIs1 lines) || negb (strings.HasPrefix (index0 lines) "+OK"));
      reflexivity.
Qed.

(** The PASS exchange when the command goes out. *)
Lemma fromPass_cases v pass w q c lg :
  succeeds (writeResults c) 0 -> succeeds (flushResults c) 0 ->
  let '(r, rest, out, n) := readScript endOK (readResults c) [] in
  let p2 := mkProc (afterReads (afterWrite c (passCmd pass)) rest n)
                   ((lg ++ writingEntry v ("PASS " ++ pass)) ++ out) in
  fromPass v pass w q (mkProc c lg) =
  match r with
  | (_, Some e) =>
    (Some e, mkProc (conn p2) (log p2 ++ [Printf "Failed to read lines: pass: %s" [AErr e]]))
  | (lines, None) =>
    if negb (lenIs1 lines) || negb (strings.HasPrefix (index0 lines) "+OK")
    then (Some (errors_New "Unexpected PASS respose"),
          mkProc (conn p2) (log p2 ++ [Printf "Unexpected PASS response" []]))
    else fromList v w q p2
  end.
Proof.
  intros Hw Hf. unfold fromPass. cbv zeta. unfold bind at 1.
  rewrite (writeLine_ok v _ c lg Hw Hf). unfold bind.
  rewrite readLines_script. cbn [conn log afterWrite readResults].
  destruct (readScript endOK (readResults c) []) as [[[[lines [e|]] rest] out] n].
  - reflexivity.
  - destruct (negb (lenIs1 lines) || negb (strings.HasPrefix (index0 lines) "+OK"));
      reflexivity.
Qed.

Lemma user_ok v user pass w q c lg u rest :
  succeeds (writeResults c) 0 -> succeeds (flushResults c) 0 ->
  readResults c = (u, None) :: rest ->
  strings.HasPrefix (strings.TrimSpace u) "+OK" = true ->
  fromUser v user pass w q (mkProc c lg)
  = fromPass v pass w q
             (mkProc (afterReads (afterWrite c (userCmd user)) rest 1)
                     (lg ++ writingEntry v ("USER " ++ user))).
Proof.
  intros Hw Hf Hr Hp.
  pose proof (@fromUser_cases v user pass w q c lg Hw Hf) as HC.
  rewrite Hr in HC. cbn [readScript] in HC.
  unfold endOK in HC at 1. rewrite Hp in HC.
  cbn [app lenIs1 List.length Nat.eqb negb index0 nth orb] in HC. rewrite Hp in HC.
  cbn [negb] in HC. rewrite app_nil_r in HC. exact HC.
Qed.

Lemma pass_ok v pass w q c lg u rest :
  succeeds (writeResults c) 0 -> succeeds (flushResults c) 0 ->
  readResults c = (u, None) :: rest ->
  strings.HasPrefix (strings.TrimSpace u) "+OK" = true ->
  fromPass v pass w q (mkProc c lg)
  = fromList v w q
             (mkProc (afterReads (afterWrite c (passCmd pass)) rest 1)
                     (lg ++ writingEntry v ("PASS " ++ pass))).
Proof.
  intros Hw Hf Hr Hp.
  pose proof (@fromPass_cases v pass w q c lg Hw Hf) as HC.
  rewrite Hr in HC. cbn [readScript] in HC.
  unfold endOK in HC at 1. rewrite Hp in HC.
  cbn [app lenIs1 List.length Nat.eqb negb index0 nth orb] in HC. rewrite Hp in HC.
  cbn [negb] in HC. rewrite app_nil_r in HC. exact HC.
Qed.

Lemma single_OK_test (lines : list string) :
  negb (lenIs1 lines) || negb (strings.HasPrefix (index0 lines) "+OK") = false
  <-> exists l, lines = [l] /\ strings.HasPrefix l "+OK" = true.
Proof.
  split.
  - intros H. apply orb_false_iff in H. destruct H as [H1 H2].
    apply negb_false_iff in H1, H2.
    exists (index0 lines). split; [now apply lenIs1_single|exact H2].
  - intros (l & Hl & Hp). subst lines. cbn. now rewrite Hp.
Qed.

(** C7.  Once the greeting [g] has been accepted: if the USER command
    goes out, let [r] be what [readLines] then collects; the check goes
    on (the PASS command is handed to the writer) if and only if [r] is
    exactly one line and it begins with [+OK]; otherwise, with zero
    lines, several lines or a line that does not begin with [+OK], the
    check fails with the error "Unexpected user respose" and nothing
    more is written.  The same holds for the PASS exchange, after which
    the check goes on to LIST or fails with "Unexpected PASS respose". *)
Theorem auth_decides v dial host user pass w q c g :
  dial (hostPortOf host) = DialOk c ->
  written c = [] ->
  strings.HasPrefix (strings.TrimSpace g) "+OK " = true ->
  let o := checkMailbox v dial host user pass w q in
  (forall rest,
      readResults c = (g, None) :: rest ->
      succeeds (writeResults c) 0 -> succeeds (flushResults c) 0 ->
      let r := collected endOK rest in
      (nth_error (sent o) 1 = Some (passCmd pass)
       <-> exists l, r = ([l], None) /\ strings.HasPrefix l "+OK" = true)
      /\ (forall lines, r = (lines, None) ->
          ~ (exists l, lines = [l] /\ strings.HasPrefix l "+OK" = true) ->
          result o = Some (errors_New "Unexpected user respose")
          /\ sent o = [userCmd user]))
  /\ (forall u rest,
      readResults c = (g, None) :: (u, None) :: rest ->
      strings.HasPrefix (strings.TrimSpace u) "+OK" = true ->
      succeeds (writeResults c) 0 -> succeeds (flushResults c) 0 ->
      succeeds (writeResults c) 1 -> succeeds (flushResults c) 1 ->
      let r := collected endOK rest in
      (nth_error (sent o) 2 = Some listCmd
       <-> exists l, r = ([l], None) /\ strings.HasPrefix l "+OK" = true)
      /\ (forall lines, r = (lines, None) ->
          ~ (exists l, lines = [l] /\ strings.HasPrefix l "+OK" = true) ->
          result o = Some (errors_New "Unexpected PASS respose")
          /\ sent o = [userCmd user; passCmd pass])).
Proof.
  intros Hd Hwr Hg. cbv zeta. split.
  - (* USER *)
    intros rest Hr Hw0 Hf0.
    rewrite collected_script.
    unfold checkMailbox. rewrite Hd, checkMailbox_connected_stages. unfold newConn.
    rewrite (greeting_ok v user pass w q c _ Hr Hg).
    match goal with
    | |- context [fromUser v user pass w q (mkProc ?c1 ?lg)] =>
      pose proof (@fromUser_cases v user pass w q c1 lg Hw0 Hf0) as HC;
      generalize dependent (fromUser v user pass w q (mkProc c1 lg))
    end.
    cbn [afterReads readResults].
    destruct (readScript endOK rest []) as [[[[lines [e|]] rest'] out] n];
      cbn [fst conn log]; intros res HC; subst res.
    + unfold sent; cbn [result finalConn afterReads afterWrite written conn].
      rewrite Hwr. cbn [app nth_error]. claim_cases.
    + destruct (negb (lenIs1 lines) || negb (strings.HasPrefix (index0 lines) "+OK"))
        eqn:Ht.
      * assert (Hno : ~ exists l, lines = [l] /\ strings.HasPrefix l "+OK" = true).
        { intros Hex. apply single_OK_test in Hex. congruence. }
        unfold sent; cbn [result finalConn afterReads afterWrite written conn].
        rewrite Hwr. cbn [app nth_error].
        split; [split; [discriminate|]|].
        -- intros (l & Hl & Hp). inversion Hl; subst lines.
           elim Hno. exists l. split; [reflexivity|exact Hp].
        -- intros lines' Hl _. split; reflexivity.
      * apply single_OK_test in Ht.
        match goal with
        | |- context [fromPass v pass w q ?p2] =>
          destruct (@fromPass_writes v pass w q p2) as [ws Hws];
          destruct (fromPass v pass w q p2) as [e p3]
        end.
        cbn [snd conn afterReads afterWrite written] in Hws. rewrite Hwr in Hws.
        unfold sent; cbn [result finalConn]. rewrite Hws. cbn [app nth_error].
        split; [split; [intros _|reflexivity]|].
        -- destruct Ht as (l & Hl & Hp). exists l. subst lines. split; [reflexivity|exact Hp].
        -- intros lines' Hl Hno. inversion Hl; subst lines'. elim Hno. exact Ht.
  - (* PASS *)
    intros u rest Hr Hu Hw0 Hf0 Hw1 Hf1.
    rewrite collected_script.
    unfold checkMailbox. rewrite Hd, checkMailbox_connected_stages. unfold newConn.
    rewrite (greeting_ok v user pass w q c _ Hr Hg).
    rewrite (@user_ok v user pass w q (afterReads c ((u, None) :: rest) 1) _ u rest
                      Hw0 Hf0 eq_refl Hu).
    match goal with
    | |- context [fromPass v pass w q (mkProc ?c1 ?lg)] =>
      pose proof (@fromPass_cases v pass w q c1 lg
                    (succeeds_next Hw1) (succeeds_next Hf1)) as HC;
      generalize dependent (fromPass v pass w q (mkProc c1 lg))
    end.
    cbn [afterReads afterWrite readResults].
    destruct (readScript endOK rest []) as [[[[lines [e|]] rest'] out] n];
      cbn [fst conn log]; intros res HC; subst res.
    + unfold sent; cbn [result finalConn afterReads afterWrite written conn].
      rewrite Hwr. cbn [app nth_error]. claim_cases.
    + destruct (negb (lenIs1 lines) || negb (strings.HasPrefix (index0 lines) "+OK"))
        eqn:Ht.
      * assert (Hno : ~ exists l, lines = [l] /\ strings.HasPrefix l "+OK" = true).
        { intros Hex. apply single_OK_test in Hex. congruence. }
        unfold sent; cbn [result finalConn afterReads afterWrite written conn].
        rewrite Hwr. cbn [app nth_error].
        split; [split; [discriminate|]|].
        -- intros (l & Hl & Hp). inversion Hl; subst lines.
           elim Hno. exists l. split; [reflexivity|exact Hp].
        -- intros lines' Hl _. split; reflexivity.
      * apply single_OK_test in Ht.
        match goal with
        | |- context [fromList v w q ?p2] =>
          destruct (@fromList_writes v w q p2) as [ws Hws];
          destruct (fromList v w q p2) as [e p3]
        end.
        cbn [snd conn afterReads afterWrite written] in Hws. rewrite Hwr in Hws.
        unfold sent; cbn [result finalConn]. rewrite Hws. cbn [app nth_error].
        split; [split; [intros _|reflexivity]|].
        -- destruct Ht as (l & Hl & Hp). exists l. subst lines. split; [reflexivity|exact Hp].
        -- intros lines' Hl Hno. inversion Hl; subst lines'. elim Hno. exact Ht.
Qed.

(* ------------------------------------------------------------------ *)
(** ** The LIST response *)

Lemma warnings_app l1 l2 : warnings (l1 ++ l2) = warnings l1 ++ warnings l2.
Proof. unfold warnings. apply filter_app. Qed.

Lemma warnings_writingEntry v s : warnings (writingEntry v s) = [].
Proof. destruct v; reflexivity. Qed.

(** [Sscanf] stores two operands exactly when it reports no error. *)
Lemma Sscanf_count_iff_no_error s :
  fmt.scanErr (fmt.Sscanf_d_d s) = None <-> fmt.countScanned (fmt.Sscanf_d_d s) = 2.
Proof.
  unfold fmt.Sscanf_d_d.
  repeat match goal with
         | |- context [match ?x with _ => _ end] => destruct x
         end; cbn; split; intros H; try discriminate; reflexivity.
Qed.

Lemma parses_false_error line :
  parses line = false -> exists e, fmt.scanErr (fmt.Sscanf_d_d line) = Some e.
Proof.
  unfold parses. intros H.
  destruct (fmt.scanErr (fmt.Sscanf_d_d line)) as [e|] eqn:He; [now exists e|].
  apply Sscanf_count_iff_no_error in He. rewrite He in H. discriminate.
Qed.

Lemma parses_true line :
  parses line = true ->
  fmt.scanErr (fmt.Sscanf_d_d line) = None
  /\ fmt.countScanned (fmt.Sscanf_d_d line) = 2.
Proof.
  unfold parses. intros H.
  destruct (fmt.scanErr (fmt.Sscanf_d_d line)) as [e|] eqn:He; [discriminate|].
  split; [reflexivity|]. now apply Z.eqb_eq.
Qed.

(** The loop on a line that is skipped, on a line that scans, and on a
    line that does not. *)
Lemma listLoop_skipped v w line rest t p :
  skipped line = true ->
  listLoop v w (line :: rest) t p
  = listLoop v w rest t
             (mkProc (conn p)
                     (log p ++ (if v then [Printf "Read LIST line: %s" [AStr line]] else []))).
Proof.
  intros Hs. cbn [listLoop]. unfold skipped in Hs. rewrite Hs.
  unfold bind, when, log_Printf, ret. destruct v; cbn [conn log].
  - reflexivity.
  - rewrite app_nil_r. destruct p; reflexivity.
Qed.

Lemma listLoop_parsed v w line rest t p :
  skipped line = false -> parses line = true ->
  listLoop v w (line :: rest) t p
  = listLoop v w rest (wrapInt (t + snd (entryOf line)))
             (mkProc (conn p)
                     (log p ++ (if v then [Printf "Read LIST line: %s" [AStr line]] else [])
                            ++ messageWarnings w [entryOf line])).
Proof.
  intros Hs Hp. cbn [listLoop]. unfold skipped in Hs. rewrite Hs.
  destruct (parses_true _ Hp) as [He Hc]. rewrite He, Hc. cbn [Z.eqb negb Pos.eqb].
  unfold messageWarnings, entryOf, messageWarning. cbn [filter snd fst].
  unfold bind, when, log_Printf, ret.
  destruct (w <? fmt.scannedSize (fmt.Sscanf_d_d line)); destruct v; cbn [conn log map app];
    rewrite <- ?app_assoc, ?app_nil_r; cbn [app]; try reflexivity;
      destruct p; reflexivity.
Qed.

Lemma listLoop_bad v w line rest t p :
  skipped line = false -> parses line = false ->
  exists e,
    fmt.scanErr (fmt.Sscanf_d_d line) = Some e
    /\ listLoop v w (line :: rest) t p
       = ((Some (errors_New "Unable to parse LIST line"), t),
          mkProc (conn p)
                 (log p ++ (if v then [Printf "Read LIST line: %s" [AStr line]] else [])
                        ++ [Printf "LIST line parse failure: %s" [AErr e]])).
Proof.
  intros Hs Hp. destruct (parses_false_error _ Hp) as [e He]. exists e.
  split; [exact He|].
  cbn [listLoop]. unfold skipped in Hs. rewrite Hs, He.
  unfold bind, when, log_Printf, ret.
  destruct v; cbn [conn log app]; rewrite <- ?app_assoc; reflexivity.
Qed.

Lemma entries_cons_skipped line lines :
  skipped line = true -> entries (line :: lines) = entries lines.
Proof. intros H. unfold entries. cbn [filter]. now rewrite H. Qed.

Lemma entries_cons_kept line lines :
  skipped line = false -> entries (line :: lines) = entryOf line :: entries lines.
Proof. intros H. unfold entries. cbn [filter]. now rewrite H. Qed.

Lemma entries_app l1 l2 : entries (l1 ++ l2) = entries l1 ++ entries l2.
Proof. unfold entries. now rewrite filter_app, map_app. Qed.

Lemma messageWarnings_cons w e es :
  messageWarnings w (e :: es) = messageWarnings w [e] ++ messageWarnings w es.
Proof.
  unfold messageWarnings. cbn [filter]. destruct (w <? snd e); reflexivity.
Qed.

Lemma warnings_messageWarnings w es :
  warnings (messageWarnings w es) = messageWarnings w es.
Proof.
  unfold messageWarnings, warnings.
  induction (filter (fun e => w <? snd e) es) as [|e l IH]; [reflexivity|].
  cbn. now rewrite IH.
Qed.

Lemma quiet_messageWarnings w es :
  quiet (messageWarnings w es) = messageWarnings w es.
Proof.
  unfold messageWarnings, quiet.
  induction (filter (fun e => w <? snd e) es) as [|e l IH]; [reflexivity|].
  cbn. now rewrite IH.
Qed.

(** The loop over lines that all pass, followed by anything: the lines
    are handled in order, each entry warned about if it is large and
    added to the total. *)
Lemma listLoop_passes v w pre :
  forall tail t p,
    Forall passes pre ->
    exists out,
      listLoop v w (pre ++ tail) t p
      = listLoop v w tail (totalAfter t (entries pre))
                 (mkProc (conn p) (log p ++ out))
      /\ warnings out = messageWarnings w (entries pre)
      /\ (v = false -> out = messageWarnings w (entries pre)).
Proof.
  induction pre as [|line pre IH]; intros tail t p HF.
  - exists []. rewrite app_nil_r. destruct p. repeat split.
  - inversion HF as [|? ? Hl HF']; subst.
    destruct (skipped line) eqn:Hs.
    + cbn [app]. rewrite (listLoop_skipped v w line (pre ++ tail) t p Hs).
      destruct (IH tail t (mkProc (conn p)
                                  (log p ++ (if v then [Printf "Read LIST line: %s" [AStr line]] else [])))
                   HF') as (out & Heq & Hw & Hq).
      exists ((if v then [Printf "Read LIST line: %s" [AStr line]] else []) ++ out).
      rewrite entries_cons_skipped by exact Hs.
      cbn [conn log] in Heq. rewrite Heq, <- app_assoc.
      repeat split.
      * rewrite warnings_app, Hw. destruct v; reflexivity.
      * intros ->. rewrite (Hq eq_refl). reflexivity.
    + destruct Hl as [Hl|Hl]; [congruence|].
      cbn [app]. rewrite (listLoop_parsed v w line (pre ++ tail) t p Hs Hl).
      match goal with
      | |- context [listLoop v w (pre ++ tail) ?t' ?p'] =>
        destruct (IH tail t' p' HF') as (out & Heq & Hw & Hq)
      end.
      exists (((if v then [Printf "Read LIST line: %s" [AStr line]] else [])
               ++ messageWarnings w [entryOf line]) ++ out).
      rewrite entries_cons_kept by exact Hs.
      cbn [conn log] in Heq. rewrite Heq. cbn [totalAfter fold_left].
      rewrite <- !app_assoc.
      repeat split.
      * rewrite !warnings_app, Hw, warnings_messageWarnings.
        rewrite (messageWarnings_cons w (entryOf line) (entries pre)).
        destruct v; reflexivity.
      * intros ->. rewrite (Hq eq_refl).
        rewrite (messageWarnings_cons w (entryOf line) (entries pre)). reflexivity.
Qed.

(* ------------------------------------------------------------------ *)
(** ** Arithmetic of [int] *)

Lemma wrapInt_id z : inInt z -> wrapInt z = z.
Proof.
  unfold inInt, minInt, maxInt, wrapInt, intBits. intros H.
  rewrite Z.mod_small; lia.
Qed.

Lemma wrapInt_add_l a b : wrapInt (wrapInt a + b) = wrapInt (a + b).
Proof.
  unfold wrapInt. f_equal.
  replace ((a + 2 ^ (intBits - 1)) mod 2 ^ intBits - 2 ^ (intBits - 1) + b
           + 2 ^ (intBits - 1))
    with ((a + 2 ^ (intBits - 1)) mod 2 ^ intBits + b) by lia.
  rewrite Zplus_mod_idemp_l. f_equal. lia.
Qed.

Lemma wrapInt_inInt z : inInt (wrapInt z).
Proof.
  unfold inInt, minInt, maxInt, wrapInt, intBits.
  pose proof (Z.mod_pos_bound (z + 2 ^ (64 - 1)) (2 ^ 64) ltac:(lia)). lia.
Qed.

Lemma totalAfter_wrap es : forall t,
  totalAfter (wrapInt t) es = wrapInt (t + sumSizes es).
Proof.
  induction es as [|e es IH]; intros t; cbn [totalAfter fold_left sumSizes map fold_right].
  - f_equal. lia.
  - fold (totalAfter (wrapInt (wrapInt t + snd e)) es).
    rewrite wrapInt_add_l, IH. fold (sumSizes es). f_equal. lia.
Qed.

Lemma totalAfter_0 es : totalAfter 0 es = wrapInt (sumSizes es).
Proof. apply (totalAfter_wrap es 0). Qed.

(* ------------------------------------------------------------------ *)
(** ** From the login to the LIST response *)

Lemma readScript_no_warnings endCheck script :
  forall acc, warnings (snd (fst (readScript endCheck script acc))) = [].
Proof.
  induction script as [|[raw [e|]] rest IH]; intros acc; cbn [readScript].
  - reflexivity.
  - destruct (isNetTimeout e || isEOF e); reflexivity.
  - destruct (endCheck (strings.TrimSpace raw)); [reflexivity|].
    specialize (IH (acc ++ [strings.TrimSpace raw])).
    destruct (readScript endCheck rest (acc ++ [strings.TrimSpace raw])) as [[[r rest'] out] n].
    exact IH.
Qed.

Lemma writeLine_any v s c lg :
  exists err p' out,
    writeLine v s (mkProc c lg) = (err, p')
    /\ log p' = lg ++ out
    /\ readResults (conn p') = readResults c
    /\ warnings out = []
    /\ (v = false -> quiet out = out).
Proof.
  destruct c as [rr wr fr ra wn d cl].
  unfold writeLine, bind, when, WriteString, Flush, log_Printf, ret.
  destruct v, wr as [|[e|] wr], fr as [|[e'|] fr]; cbn;
    do 3 eexists; (split; [reflexivity|]); cbn [log conn readResults];
      (split; [first [ symmetry; apply app_nil_r
                     | rewrite <- app_assoc; reflexivity
                     | reflexivity ]|]);
      repeat split; intros; try discriminate; reflexivity.
Qed.

Lemma login_ok v dial host user pass w q c rest :
  dial (hostPortOf host) = DialOk c ->
  loggedIn c rest ->
  exists c3 lg3,
    readResults c3 = rest
    /\ warnings lg3 = []
    /\ (v = false -> lg3 = [])
    /\ checkMailbox v dial host user pass w q
       = let '(err, p) := fromList v w q (mkProc c3 lg3) in
         mkOutcome err (Some (conn p)) (log p).
Proof.
  intros Hd (g & u & pa & Hr & Hg & Hu & Hpa & Hw0 & Hf0 & Hw1 & Hf1).
  unfold checkMailbox. rewrite Hd, checkMailbox_connected_stages. unfold newConn.
  rewrite (greeting_ok v user pass w q c _ Hr Hg).
  rewrite (@user_ok v user pass w q (afterReads c ((u, None) :: (pa, None) :: rest) 1)
                    _ u ((pa, None) :: rest) Hw0 Hf0 eq_refl Hu).
  rewrite (@pass_ok v pass w q
                    (afterReads (afterWrite (afterReads c ((u, None) :: (pa, None) :: rest) 1)
                                            (userCmd user))
                                ((pa, None) :: rest) 1)
                    _ pa rest (succeeds_next Hw1) (succeeds_next Hf1) eq_refl Hpa).
  do 2 eexists. split; [|split; [|split; [|reflexivity]]].
  - reflexivity.
  - destruct v; reflexivity.
  - intros ->. reflexivity.
Qed.

Lemma readScript_quiet endCheck script :
  forall acc, let out := snd (fst (readScript endCheck script acc)) in
              filter (fun e => negb (isDiagnostic e)) out = out.
Proof.
  induction script as [|[raw [e|]] rest IH]; intros acc; cbn [readScript].
  - reflexivity.
  - destruct (isNetTimeout e || isEOF e); reflexivity.
  - destruct (endCheck (strings.TrimSpace raw)); [reflexivity|].
    specialize (IH (acc ++ [strings.TrimSpace raw])).
    destruct (readScript endCheck rest (acc ++ [strings.TrimSpace raw])) as [[[r rest'] out] n].
    exact IH.
Qed.

Lemma fromList_collected v w q c lg lines :
  collected endDot (readResults c) = (lines, None) ->
  exists c1 out1,
    warnings out1 = []
    /\ (v = false -> quiet out1 = out1)
    /\ fromList v w q (mkProc c lg)
       = let '((ret_err, total), p3) := listLoop v w lines 0 (mkProc c1 (lg ++ out1)) in
         match ret_err with
         | Some e => (Some e, p3)
         | None => (None, mkProc (conn p3)
                                 (log p3 ++ totalEntry v total ++ quotaEntry q total))
         end.
Proof.
  rewrite collected_script. intros Hcol.
  destruct (writeLine_any v "LIST" c lg) as (werr & p1 & o1 & Hwl & Hlog & Hrr & Hw1 & Hq1).
  unfold fromList, bind. rewrite Hwl, readLines_script, Hrr.
  pose proof (readScript_no_warnings endDot (readResults c) []) as Hnw.
  pose proof (readScript_quiet endDot (readResults c) []) as Hqo.
  destruct (readScript endDot (readResults c) []) as [[[r rest] out] n].
  cbn [fst snd] in Hcol, Hnw, Hqo. subst r.
  exists (afterReads (conn p1) rest n), (o1 ++ out).
  split; [|split].
  - now rewrite warnings_app, Hw1, Hnw.
  - intros Hv. unfold quiet. rewrite filter_app. fold (quiet o1). rewrite (Hq1 Hv).
    f_equal. apply Hqo.
  - rewrite Hlog, <- app_assoc.
    destruct (listLoop v w lines 0 _) as [[[e|] total] p3]; [reflexivity|].
    unfold when, totalEntry, quotaEntry, quotaWarning, bind, log_Printf, ret.
    destruct v, (q <? total); cbn [conn log app]; rewrite <- ?app_assoc, ?app_nil_r;
      try reflexivity; destruct p3; reflexivity.
Qed.

Lemma loggedIn_session response : loggedIn (session response) response.
Proof.
  exists (fst (okLine "+OK POP3 ready")), (fst (okLine "+OK")), (fst (okLine "+OK")).
  repeat split.
Qed.

(** C5, as amended.  When the server accepts the login and every line
    of the LIST response is skipped (it begins with [+OK] or is the
    terminator) or scans as an entry, the check succeeds; the warnings
    it logs are one per-message warning for each entry whose size is
    above [warnSize], in the order of the response, followed by the
    quota warning exactly when the total is above [quotaWarnSize]; the
    total is the sum of the sizes of the entries, each counted once,
    wrapped to the range of [int], and it is the exact sum whenever
    that sum fits an [int]. *)
Theorem list_evaluation v dial host user pass w q c rest lines :
  dial (hostPortOf host) = DialOk c ->
  loggedIn c rest ->
  collected endDot rest = (lines, None) ->
  Forall passes lines ->
  let o := checkMailbox v dial host user pass w q in
  let es := entries lines in
  let total := wrapInt (sumSizes es) in
  result o = None
  /\ warnings (logged o) = messageWarnings w es ++ quotaEntry q total
  /\ (v = true -> In (Printf "Total size of mailbox: %d" [AInt total]) (logged o))
  /\ (v = false -> logged o = quiet (logged o))
  /\ (inInt (sumSizes es) -> total = sumSizes es).
Proof.
  intros Hd Hlog Hcol HF. cbv zeta.
  destruct (login_ok v dial host user pass w q Hd Hlog)
    as (c3 & lg3 & Hr3 & Hw3 & Hq3 & Hrun).
  rewrite Hrun. subst rest.
  destruct (fromList_collected v w q c3 lg3 Hcol) as (c1 & out1 & Hw1 & Hq1 & Hfl).
  rewrite Hfl.
  destruct (@listLoop_passes v w lines [] 0 (mkProc c1 (lg3 ++ out1)) HF)
    as (out & Hloop & Hwo & Hqo).
  rewrite app_nil_r in Hloop. rewrite Hloop. cbn [listLoop ret conn log].
  rewrite totalAfter_0. cbn [result logged].
  split; [reflexivity|]. split; [|split; [|split]].
  - rewrite !warnings_app, Hw3, Hw1, Hwo. cbn [app]. f_equal.
    unfold totalEntry, quotaEntry. destruct v, (q <? wrapInt (sumSizes (entries lines)));
      reflexivity.
  - intros ->. apply in_or_app. right. apply in_or_app. left. left. reflexivity.
  - intros ->. rewrite (Hq3 eq_refl), (Hqo eq_refl). cbn [app totalEntry].
    rewrite !quiet_app, (Hq1 eq_refl), quiet_messageWarnings.
    unfold quotaEntry. destruct (q <? wrapInt (sumSizes (entries lines))); reflexivity.
  - apply wrapInt_id.
Qed.

(** C4, as amended.  When the server accepts the login and the LIST
    response is [pre ++ bad :: post], where every line of [pre] is
    skipped or scans and [bad] is neither skipped nor scanned with
    success by [Sscanf] with the format ["%d %d"], the check fails with
    the error "Unable to parse LIST line" and nothing after [bad] is
    processed: the warnings logged are the per-message warnings of the
    entries of [pre] and no others. *)
Theorem parse_failure_aborts v dial host user pass w q c rest pre bad post :
  dial (hostPortOf host) = DialOk c ->
  loggedIn c rest ->
  collected endDot rest = (pre ++ bad :: post, None) ->
  Forall passes pre ->
  skipped bad = false ->
  parses bad = false ->
  let o := checkMailbox v dial host user pass w q in
  result o = Some (errors_New "Unable to parse LIST line")
  /\ warnings (logged o) = messageWarnings w (entries pre).
Proof.
  intros Hd Hlog Hcol HF Hs Hp. cbv zeta.
  destruct (login_ok v dial host user pass w q Hd Hlog)
    as (c3 & lg3 & Hr3 & Hw3 & Hq3 & Hrun).
  rewrite Hrun. subst rest.
  destruct (fromList_collected v w q c3 lg3 Hcol) as (c1 & out1 & Hw1 & Hq1 & Hfl).
  rewrite Hfl.
  destruct (@listLoop_passes v w pre (bad :: post) 0 (mkProc c1 (lg3 ++ out1)) HF)
    as (out & Hloop & Hwo & Hqo).
  rewrite Hloop.
  match goal with
  | |- context [listLoop v w (bad :: post) ?t ?p] =>
    destruct (@listLoop_bad v w bad post t p Hs Hp) as (e & He & Hbad)
  end.
  rewrite Hbad. cbn [result logged conn log].
  split; [reflexivity|].
  rewrite !warnings_app, Hw3, Hw1, Hwo. cbn [app].
  destruct v; cbn; now rewrite app_nil_r.
Qed.

(* ------------------------------------------------------------------ *)
(** ** The claims on concrete sessions *)

Ltac split_conj := repeat match goal with |- _ /\ _ => split end.

(** C1, the claim as stated fails: after a successful check, and
    after a check that fails at the greeting, the connection has not
    been closed. *)
Lemma connection_left_open :
  (exists c, finalConn (checkMailbox false (dialTo (session exampleResponse))
                          "mail" "u" "p" 5000000 7000000) = Some c
             /\ result (checkMailbox false (dialTo (session exampleResponse))
                          "mail" "u" "p" 5000000 7000000) = None
             /\ closed c = false)
  /\ (exists c, finalConn (checkMailbox false (dialTo (freshConn [okLine "-ERR busy"]))
                             "mail" "u" "p" 5000000 7000000) = Some c
                /\ result (checkMailbox false (dialTo (freshConn [okLine "-ERR busy"]))
                             "mail" "u" "p" 5000000 7000000)
                   = Some (errors_New "Invalid greeting")
                /\ closed c = false).
Proof.
  split; eexists; (split; [vm_compute; reflexivity|]); split; vm_compute; reflexivity.
Qed.

Lemma connection_never_closed_witness :
  exists c', finalConn (checkMailbox true (dialTo (session exampleResponse))
                          "mail" "u" "p" 5000000 7000000) = Some c'
             /\ closed c' = closed (session exampleResponse).
Proof.
  exact (@connection_never_closed true (dialTo (session exampleResponse))
           "mail" "u" "p" 5000000 7000000 (session exampleResponse) eq_refl).
Defined.

(** C2, the code at a write that fails: the flush of the LIST command
    reports an error, the error is dropped, the response is awaited
    (here until the read times out) and the check reports success. *)
Theorem list_write_error_is_dropped :
  let c := sessionWith [] [None; None; Some (plain_error "write: broken pipe")]
                       [timeoutRead] in
  let o := checkMailbox false (dialTo c) "mail" "u" "p" 5242880 10485760 in
  result o = None
  /\ sent o = [userCmd "u"; passCmd "p"; listCmd]
  /\ logged o = [Printf "Flush error: %s" [AErr (plain_error "write: broken pipe")];
                 Printf "Read failure: %s" [AErr (net_Error true "i/o timeout")]]
  /\ (exists c', finalConn o = Some c' /\ readResults c' = [] /\ deadlines c' = 4%nat).
Proof.
  cbv zeta. split_conj; try (vm_compute; reflexivity).
  eexists. split; [vm_compute; reflexivity|]. split; vm_compute; reflexivity.
Qed.

(** The USER and PASS steps do check the result of their write. *)
Example user_write_error_aborts :
  let c := sessionWith [] [Some (plain_error "write: broken pipe")]
                       [okLine "+OK"; okLine "+OK"] in
  let o := checkMailbox false (dialTo c) "mail" "u" "p" 5242880 10485760 in
  result o = Some (plain_error "write: broken pipe")
  /\ (exists c', finalConn o = Some c' /\ deadlines c' = 1%nat).
Proof.
  cbv zeta. split; [vm_compute; reflexivity|].
  eexists. split; [vm_compute; reflexivity|vm_compute; reflexivity].
Qed.

(** C4, the claim as stated fails: the line ["1 2 3"] is not two
    integers and the line ["+OK 7 900"] is not the leading line, yet the
    check succeeds; the first counts as the entry (1, 2) and the second
    is passed over. *)
Lemma trailing_text_is_accepted :
  let o := checkMailbox true (dialTo (session trailingResponse))
                        "mail" "u" "p" 5000000 7000000 in
  result o = None
  /\ collected endDot trailingResponse
     = (["+OK 2 messages"; "1 2 3"; "+OK 7 900"; "."], None)
  /\ entries ["+OK 2 messages"; "1 2 3"; "+OK 7 900"; "."] = [(1, 2)]
  /\ In (Printf "Total size of mailbox: %d" [AInt 2]) (logged o).
Proof.
  cbv zeta. split_conj; try (vm_compute; reflexivity).
  vm_compute. repeat (first [left; reflexivity | right]).
Qed.

Lemma parse_failure_aborts_witness :
  Forall passes ["+OK 3 messages"; "1 6000"]
  /\ skipped "not-a-number" = false
  /\ parses "not-a-number" = false
  /\ result (checkMailbox false (dialTo (session brokenResponse))
                          "mail" "u" "p" 5000 6000)
     = Some (errors_New "Unable to parse LIST line")
  /\ warnings (logged (checkMailbox false (dialTo (session brokenResponse))
                                    "mail" "u" "p" 5000 6000))
     = [messageWarning (1, 6000)].
Proof.
  assert (HF : Forall passes ["+OK 3 messages"; "1 6000"]).
  { constructor; [left; reflexivity|]. constructor; [right; vm_compute; reflexivity|].
    constructor. }
  assert (Hs : skipped "not-a-number" = false) by reflexivity.
  assert (Hp : parses "not-a-number" = false) by (vm_compute; reflexivity).
  assert (Hc : collected endDot brokenResponse
               = (["+OK 3 messages"; "1 6000"] ++ "not-a-number" :: ["3 7000"; "."], None))
    by (vm_compute; reflexivity).
  split; [exact HF|]. split; [exact Hs|]. split; [exact Hp|].
  exact (@parse_failure_aborts false (dialTo (session brokenResponse))
           "mail" "u" "p" 5000 6000 (session brokenResponse) brokenResponse
           ["+OK 3 messages"; "1 6000"] "not-a-number" ["3 7000"; "."]
           eq_refl (loggedIn_session brokenResponse) Hc HF Hs Hp).
Defined.

(** C5, the claim as stated fails: the sizes 9223372036854775807 and 1
    add up to 9223372036854775808, the total computed is
    -9223372036854775808, and no quota warning is logged although the
    sum is above the quota threshold. *)
Lemma total_wraps_around :
  let o := checkMailbox true (dialTo (session hugeResponse))
                        "mail" "u" "p" 5242880 10485760 in
  result o = None
  /\ entries (fst (collected endDot hugeResponse))
     = [(1, 9223372036854775807); (2, 1)]
  /\ sumSizes (entries (fst (collected endDot hugeResponse))) = 9223372036854775808
  /\ In (Printf "Total size of mailbox: %d" [AInt (-9223372036854775808)]) (logged o)
  /\ warnings (logged o) = [messageWarning (1, 9223372036854775807)].
Proof.
  cbv zeta. split_conj; try (vm_compute; reflexivity).
  vm_compute. repeat (first [left; reflexivity | right]).
Qed.

Lemma list_evaluation_witness :
  Forall passes ["+OK 2 messages"; "1 1024"; "2 6000000"; "."]
  /\ result (checkMailbox true (dialTo (session exampleResponse))
                          "mail" "u" "p" 5000000 6000000) = None
  /\ warnings (logged (checkMailbox true (dialTo (session exampleResponse))
                                    "mail" "u" "p" 5000000 6000000))
     = [messageWarning (2, 6000000); quotaWarning 6001024]
  /\ In (Printf "Total size of mailbox: %d" [AInt 6001024])
        (logged (checkMailbox true (dialTo (session exampleResponse))
                              "mail" "u" "p" 5000000 6000000)).
Proof.
  assert (HF : Forall passes ["+OK 2 messages"; "1 1024"; "2 6000000"; "."]).
  { constructor; [left; reflexivity|].
    constructor; [right; vm_compute; reflexivity|].
    constructor; [right; vm_compute; reflexivity|].
    constructor; [left; reflexivity|]. constructor. }
  assert (Hc : collected endDot exampleResponse
               = (["+OK 2 messages"; "1 1024"; "2 6000000"; "."], None))
    by (vm_compute; reflexivity).
  split; [exact HF|].
  destruct (@list_evaluation true (dialTo (session exampleResponse))
              "mail" "u" "p" 5000000 6000000 (session exampleResponse) exampleResponse
              ["+OK 2 messages"; "1 1024"; "2 6000000"; "."]
              eq_refl (loggedIn_session exampleResponse) Hc HF)
    as (Hres & Hwarn & Htot & _ & _).
  split; [exact Hres|]. split; [exact Hwarn|]. exact (Htot eq_refl).
Defined.

(** The examples of the specification: the quota warning with the
    thresholds 6,000,000 and 7,000,000, and the end-to-end scenario. *)
Example quota_examples :
  warnings (logged (checkMailbox false (dialTo (session exampleResponse))
                                 "mail" "u" "p" 5000000 6000000))
  = [messageWarning (2, 6000000); quotaWarning 6001024]
  /\ warnings (logged (checkMailbox false (dialTo (session exampleResponse))
                                    "mail" "u" "p" 5000000 7000000))
     = [messageWarning (2, 6000000)].
Proof. split; vm_compute; reflexivity. Qed.

Example end_to_end_scenario :
  checkMailbox false
               (dialTo (session [okLine "+OK 1 messages"; okLine "1 500"; okLine "."]))
               "mail" "u" "p" 1000 1000
  = mkOutcome None
              (Some (mkConn [] [] [] "" [userCmd "u"; passCmd "p"; listCmd] 6 false))
              [].
Proof. vm_compute. reflexivity. Qed.

Lemma greeting_decides_witness :
  written (session exampleResponse) = []
  /\ collected endOK (readResults (session exampleResponse)) = (["+OK POP3 ready"], None)
  /\ hd_error (sent (checkMailbox false (dialTo (session exampleResponse))
                                  "mail" "u" "p" 1000 1000))
     = Some (userCmd "u").
Proof.
  assert (Hc : collected endOK (readResults (session exampleResponse))
               = (["+OK POP3 ready"], None)) by (vm_compute; reflexivity).
  split; [reflexivity|]. split; [exact Hc|].
  destruct (@greeting_decides false (dialTo (session exampleResponse))
              "mail" "u" "p" 1000 1000 (session exampleResponse) eq_refl eq_refl)
    as [Hiff _].
  apply Hiff. exists "+OK POP3 ready". split; [exact Hc|reflexivity].
Defined.

Lemma auth_decides_witness :
  strings.HasPrefix (strings.TrimSpace (fst (okLine "+OK POP3 ready"))) "+OK " = true
  /\ nth_error (sent (checkMailbox false (dialTo (session exampleResponse))
                                   "mail" "u" "p" 1000 1000)) 1
     = Some (passCmd "p")
  /\ nth_error (sent (checkMailbox false (dialTo (session exampleResponse))
                                   "mail" "u" "p" 1000 1000)) 2
     = Some listCmd.
Proof.
  assert (Hg : strings.HasPrefix (strings.TrimSpace (fst (okLine "+OK POP3 ready"))) "+OK "
               = true) by reflexivity.
  split; [exact Hg|].
  destruct (@auth_decides false (dialTo (session exampleResponse))
              "mail" "u" "p" 1000 1000 (session exampleResponse)
              (fst (okLine "+OK POP3 ready")) eq_refl eq_refl Hg)
    as [HU HP].
  split.
  - destruct (HU ([okLine "+OK"; okLine "+OK"] ++ exampleResponse)
                 eq_refl eq_refl eq_refl) as [Hiff _].
    apply Hiff. exists "+OK". split; [vm_compute; reflexivity|reflexivity].
  - destruct (HP (fst (okLine "+OK")) ([okLine "+OK"] ++ exampleResponse)
                 eq_refl eq_refl eq_refl eq_refl eq_refl eq_refl) as [Hiff _].
    apply Hiff. exists "+OK". split; [vm_compute; reflexivity|reflexivity].
Defined.

Lemma messageWarnings_negative w e :
  0 < w -> snd e < 0 -> messageWarnings w [e] = [].
Proof.
  intros Hw He. unfold messageWarnings. cbn [filter].
  destruct (w <? snd e) eqn:H; [apply Z.ltb_lt in H; lia|reflexivity].
Qed.

(** C9.  [Sscanf] accepts a minus sign on both numbers of a LIST line.
    For every line that scans as an entry with a negative size and
    every positive [warnSize], one turn of the loop logs no warning for
    the entry and adds its size to [sizeOfAllMessages].  So the total
    can be below the sum of the sizes that are not negative, and below
    zero: in the session given, the sizes are 100 and -500 and the
    total is -400. *)
Theorem negative_sizes_are_counted :
  (skipped "-2 -500" = false /\ parses "-2 -500" = true
   /\ entryOf "-2 -500" = (-2, -500))
  /\ (forall v w line rest t p,
         0 < w -> skipped line = false -> parses line = true ->
         snd (entryOf line) < 0 ->
         listLoop v w (line :: rest) t p
         = listLoop v w rest (wrapInt (t + snd (entryOf line)))
                    (mkProc (conn p) (log p ++ readEntry v line)))
  /\ (let o := checkMailbox true (dialTo (session negativeResponse))
                            "mail" "u" "p" 50 10485760 in
      result o = None
      /\ entries (fst (collected endDot negativeResponse)) = [(1, 100); (-2, -500)]
      /\ warnings (logged o) = [messageWarning (1, 100)]
      /\ In (Printf "Total size of mailbox: %d" [AInt (-400)]) (logged o)).
Proof.
  split; [|split].
  - split_conj; vm_compute; reflexivity.
  - intros v w line rest t p Hw Hs Hp Hneg.
    rewrite (listLoop_parsed v w line rest t p Hs Hp).
    rewrite (messageWarnings_negative (entryOf line) Hw Hneg), app_nil_r.
    reflexivity.
  - cbv zeta. split_conj; try (vm_compute; reflexivity).
    vm_compute. repeat (first [left; reflexivity | right]).
Qed.

(* ================================================================== *)
(** * Decoding a string *)
(* ================================================================== *)

Lemma take_drop n s : (Utf8.take n s ++ Utf8.drop n s)%string = s.
Proof.
  revert s. induction n as [|n IH]; intros s; [reflexivity|].
  destruct s as [|c s]; [reflexivity|]. cbn. now rewrite IH.
Qed.

Lemma drop_length n s :
  String.length (Utf8.drop n s) = (String.length s - n)%nat.
Proof.
  revert s. induction n as [|n IH]; intros s; cbn; [lia|].
  destruct s as [|c s]; [reflexivity|]. cbn. apply IH.
Qed.

(** A rune of a string that is not empty is one to four bytes wide. *)
Lemma DecodeRuneInString_width c s :
  (1 <= snd (Utf8.DecodeRuneInString (String c s)) <= 4)%nat.
Proof.
  unfold Utf8.DecodeRuneInString.
  repeat match goal with
         | |- context [match ?x with _ => _ end] => destruct x
         end; cbn [snd]; lia.
Qed.

(** The decoding consumes the whole string and loses nothing of it:
    [length s] turns are enough. *)
Lemma decodeAll_fuel fuel : forall s,
  (String.length s <= fuel)%nat -> Utf8.encode (Utf8.decodeAll fuel s) = s.
Proof.
  induction fuel as [|fuel IH]; intros s Hlen.
  - destruct s; [reflexivity|cbn in Hlen; lia].
  - destruct s as [|c s]; [reflexivity|]. cbn [Utf8.decodeAll].
    pose proof (DecodeRuneInString_width c s) as Hw.
    destruct (Utf8.DecodeRuneInString (String c s)) as [r w]. cbn [snd] in Hw.
    cbn [Utf8.encode fold_right snd]. fold (Utf8.encode (Utf8.decodeAll fuel (Utf8.drop w (String c s)))).
    rewrite IH; [apply take_drop|].
    rewrite drop_length. cbn [String.length] in *. lia.
Qed.

Lemma encode_decode s : Utf8.encode (Utf8.decode s) = s.
Proof. unfold Utf8.decode. now apply decodeAll_fuel. Qed.

(* ================================================================== *)
(** * Strings *)
(* ================================================================== *)

Lemma string_app_assoc (a b c : string) : ((a ++ b) ++ c)%string = (a ++ b ++ c)%string.
Proof. induction a as [|x a IH]; [reflexivity|]. cbn. now rewrite IH. Qed.

Lemma string_length_app (a b : string) :
  String.length (a ++ b) = (String.length a + String.length b)%nat.
Proof. induction a as [|x a IH]; [reflexivity|]. cbn. now rewrite IH. Qed.

Lemma string_append_nil (s : string) : (s ++ "")%string = s.
Proof. induction s as [|c s IH]; [reflexivity|]. cbn [String.append]. now rewrite IH. Qed.

Lemma decode_ascii_cons c s :
  Utf8.byteZ c < 128 ->
  Utf8.decode (String c s) = (Utf8.byteZ c, String c "") :: Utf8.decode s.
Proof.
  intros Hc. unfold Utf8.decode. cbn [String.length Utf8.decodeAll].
  unfold Utf8.DecodeRuneInString, Utf8.first.
  replace (Utf8.byteZ c <? 128) with true by (symmetry; apply Z.ltb_lt; exact Hc).
  reflexivity.
Qed.


(* ================================================================== *)
(** * [strings.TrimSpace] and the end of a line *)
(* ================================================================== *)

Lemma first_lo b sz lo hi : Utf8.first b = Utf8.fLead sz lo hi -> 128 <= lo.
Proof.
  unfold Utf8.first, Utf8.locb.
  repeat match goal with
         | |- context [if ?c then _ else _] => destruct c
         end; intros H; inversion H; subst; lia.
Qed.

Lemma inRange_ascii lo hi b : 128 <= lo -> b < 128 -> Utf8.inRange lo hi b = false.
Proof.
  intros Hlo Hb. unfold Utf8.inRange.
  replace (lo <=? b) with false by (symmetry; apply Z.leb_gt; lia). reflexivity.
Qed.

(** A byte below [0x80] after a string does not change the first rune
    of the string. *)
Lemma DecodeRuneInString_app a s c t :
  Utf8.byteZ c < 128 ->
  Utf8.DecodeRuneInString (String a s ++ String c t)
  = Utf8.DecodeRuneInString (String a s).
Proof.
  intros Hc. unfold Utf8.DecodeRuneInString. cbn [String.append].
  destruct (Utf8.first (Utf8.byteZ a)) as [| |sz lo hi] eqn:Hf; try reflexivity.
  pose proof (@first_lo _ _ _ _ Hf) as Hlo.
  destruct s as [|b1 s]; cbn [String.append].
  { now rewrite (@inRange_ascii lo hi (Utf8.byteZ c) Hlo Hc). }
  destruct (negb (Utf8.inRange lo hi (Utf8.byteZ b1))); [reflexivity|].
  destruct (sz <=? 2)%nat; [reflexivity|].
  destruct s as [|b2 s]; cbn [String.append].
  { rewrite (@inRange_ascii Utf8.locb Utf8.hicb (Utf8.byteZ c)); [reflexivity| |exact Hc].
    unfold Utf8.locb. lia. }
  destruct (negb (Utf8.inRange Utf8.locb Utf8.hicb (Utf8.byteZ b2))); [reflexivity|].
  destruct (sz <=? 3)%nat; [reflexivity|].
  destruct s as [|b3 s]; cbn [String.append]; [|reflexivity].
  rewrite (@inRange_ascii Utf8.locb Utf8.hicb (Utf8.byteZ c)); [reflexivity| |exact Hc].
  unfold Utf8.locb. lia.
Qed.

(** A rune is not wider than the string it is decoded from. *)
Lemma DecodeRuneInString_fits a s :
  (snd (Utf8.DecodeRuneInString (String a s)) <= S (String.length s))%nat.
Proof.
  unfold Utf8.DecodeRuneInString.
  repeat match goal with
         | |- context [match ?x with _ => _ end] => destruct x
         end; cbn [snd String.length]; lia.
Qed.

Lemma take_app n s u :
  (n <= String.length s)%nat -> Utf8.take n (s ++ u) = Utf8.take n s.
Proof.
  revert s. induction n as [|n IH]; intros s H; [reflexivity|].
  destruct s as [|c s]; [cbn in H; lia|]. cbn. rewrite IH; [reflexivity|].
  cbn in H. lia.
Qed.

Lemma drop_app n s u :
  (n <= String.length s)%nat -> Utf8.drop n (s ++ u) = (Utf8.drop n s ++ u)%string.
Proof.
  revert s. induction n as [|n IH]; intros s H; [reflexivity|].
  destruct s as [|c s]; [cbn in H; lia|]. cbn. apply IH. cbn in H. lia.
Qed.

Lemma decodeAll_enough fuel : forall fuel' s,
  (String.length s <= fuel)%nat -> (String.length s <= fuel')%nat ->
  Utf8.decodeAll fuel s = Utf8.decodeAll fuel' s.
Proof.
  induction fuel as [|fuel IH]; intros fuel' s H H'.
  - destruct s; [destruct fuel'; reflexivity|cbn in H; lia].
  - destruct s as [|c s]; [destruct fuel'; reflexivity|].
    destruct fuel' as [|fuel']; [cbn in H'; lia|].
    cbn [Utf8.decodeAll].
    pose proof (DecodeRuneInString_width c s) as Hw.
    destruct (Utf8.DecodeRuneInString (String c s)) as [r w]. cbn [snd] in Hw.
    f_equal. apply IH; rewrite drop_length; cbn [String.length] in *; lia.
Qed.

Lemma decodeAll_app fuel : forall s c t,
  (String.length s <= fuel)%nat -> Utf8.byteZ c < 128 ->
  Utf8.decode (s ++ String c t) = Utf8.decodeAll fuel s ++ Utf8.decode (String c t).
Proof.
  induction fuel as [|fuel IH]; intros s c t Hlen Hc.
  - destruct s; [reflexivity|cbn in Hlen; lia].
  - destruct s as [|a s]; [reflexivity|].
    unfold Utf8.decode at 1. cbn [String.append String.length Utf8.decodeAll].
    change (String a (s ++ String c t)) with (String a s ++ String c t)%string.
    rewrite (@DecodeRuneInString_app a s c t Hc).
    pose proof (DecodeRuneInString_width a s) as Hw.
    pose proof (DecodeRuneInString_fits a s) as Hfit.
    destruct (Utf8.DecodeRuneInString (String a s)) as [r w]. cbn [snd] in Hw, Hfit.
    rewrite take_app, drop_app by (cbn [String.length]; lia).
    cbn [app]. f_equal.
    rewrite <- IH by (try exact Hc; rewrite drop_length; cbn [String.length] in *; lia).
    unfold Utf8.decode. apply decodeAll_enough.
    + rewrite !string_length_app, drop_length. cbn [String.length]. lia.
    + apply le_n.
Qed.

Lemma decode_app s c t :
  Utf8.byteZ c < 128 ->
  Utf8.decode (s ++ String c t) = Utf8.decode s ++ Utf8.decode (String c t).
Proof. intros Hc. now apply decodeAll_app. Qed.

Lemma dropSpaces_app_space l x :
  strings.IsSpace (fst x) = true ->
  strings.dropSpaces (rev (strings.dropSpaces (l ++ [x])))
  = strings.dropSpaces (rev (strings.dropSpaces l)).
Proof.
  intros Hx. induction l as [|p l IH].
  - cbn. now rewrite Hx.
  - cbn [app strings.dropSpaces]. destruct (strings.IsSpace (fst p)); [exact IH|].
    change (p :: l ++ [x]) with ((p :: l) ++ [x]).
    rewrite rev_app_distr. cbn [rev app strings.dropSpaces]. now rewrite Hx.
Qed.

(** One white space byte at the end of a string makes no difference to
    [TrimSpace]; so a line feed, or a carriage return and a line feed. *)
Lemma TrimSpace_app_space s c :
  Utf8.byteZ c < 128 -> strings.IsSpace (Utf8.byteZ c) = true ->
  strings.TrimSpace (s ++ String c "") = strings.TrimSpace s.
Proof.
  intros Hc Hs. unfold strings.TrimSpace.
  rewrite (@decode_app s c "" Hc), (@decode_ascii_cons c "" Hc).
  change (Utf8.decode "") with (@nil (Z * string)).
  now rewrite dropSpaces_app_space.
Qed.

Lemma TrimSpace_LF s : strings.TrimSpace (s ++ LF) = strings.TrimSpace s.
Proof. apply TrimSpace_app_space; [cbn; lia|reflexivity]. Qed.

Lemma TrimSpace_CRLF s : strings.TrimSpace (s ++ CRLF) = strings.TrimSpace s.
Proof.
  unfold CRLF. rewrite <- string_app_assoc, TrimSpace_LF.
  apply TrimSpace_app_space; [cbn; lia|reflexivity].
Qed.

(* ------------------------------------------------------------------ *)
(** ** Formatting an entry and scanning it *)

Lemma digitsRev_range fuel : forall n,
  0 <= n -> Forall (fun d => 0 <= d <= 9) (itoa.digitsRev fuel n).
Proof.
  induction fuel as [|fuel IH]; intros n Hn; cbn [itoa.digitsRev]; [constructor|].
  destruct (n <? 10) eqn:H.
  - apply Z.ltb_lt in H. repeat constructor; lia.
  - apply Z.ltb_ge in H. constructor.
    + pose proof (Z.mod_pos_bound n 10 ltac:(lia)). lia.
    + apply IH. apply Z.div_pos; lia.
Qed.

Lemma digitsRev_length fuel n : (List.length (itoa.digitsRev fuel n) <= fuel)%nat.
Proof.
  revert n. induction fuel as [|fuel IH]; intros n; cbn [itoa.digitsRev]; [reflexivity|].
  destruct (n <? 10); cbn [List.length]; [lia|].
  specialize (IH (n / 10)). lia.
Qed.

Lemma digitsRev_nonempty fuel n : itoa.digitsRev (S fuel) n <> [].
Proof. cbn [itoa.digitsRev]. destruct (n <? 10); discriminate. Qed.

(** The value of the digits, last digit first. *)
Lemma digitsRev_value fuel : forall n,
  0 <= n < 2 ^ Z.of_nat fuel ->
  fold_right (fun d acc => acc * 10 + d) 0 (itoa.digitsRev fuel n) = n.
Proof.
  induction fuel as [|fuel IH]; intros n Hn.
  - cbn in *. lia.
  - cbn [itoa.digitsRev]. destruct (n <? 10) eqn:H.
    + cbn. lia.
    + apply Z.ltb_ge in H. cbn [fold_right]. rewrite IH.
      * pose proof (Z.div_mod n 10 ltac:(lia)). lia.
      * split; [apply Z.div_pos; lia|].
        rewrite Nat2Z.inj_succ, Z.pow_succ_r in Hn by lia.
        apply Z.div_lt_upper_bound; lia.
Qed.

Lemma log2_fuel n : 0 <= n -> n < 2 ^ Z.of_nat (S (Z.to_nat (Z.log2 n))).
Proof.
  intros Hn. rewrite Nat2Z.inj_succ, Z2Nat.id by apply Z.log2_nonneg.
  destruct (Z.eq_dec n 0) as [->|Hz]; [cbn; lia|].
  apply Z.log2_spec. lia.
Qed.

Lemma digits_range n : 0 <= n -> Forall (fun d => 0 <= d <= 9) (itoa.digits n).
Proof.
  intros Hn. unfold itoa.digits. apply Forall_rev. now apply digitsRev_range.
Qed.

Lemma digits_nonempty n : itoa.digits n <> [].
Proof.
  unfold itoa.digits. intros H.
  apply (f_equal (@rev Z)) in H. rewrite rev_involutive in H. cbn [rev] in H.
  now apply digitsRev_nonempty in H.
Qed.

Lemma digits_value n : 0 <= n -> digitsValue (itoa.digits n) 0 = n.
Proof.
  intros Hn. unfold digitsValue, itoa.digits.
  rewrite <- (fold_left_rev_right (fun d acc => acc * 10 + d)), rev_involutive.
  apply digitsRev_value. split; [exact Hn|now apply log2_fuel].
Qed.

Lemma digits_length n : 0 <= n < 2 ^ 64 -> (List.length (itoa.digits n) <= 64)%nat.
Proof.
  intros Hn. unfold itoa.digits. rewrite length_rev.
  etransitivity; [apply digitsRev_length|].
  destruct (Z.eq_dec n 0) as [->|Hz]; [cbn; lia|].
  assert (Z.log2 n < 64) by (apply Z.log2_lt_pow2; lia).
  pose proof (Z.log2_nonneg n). lia.
Qed.

Lemma digitsValue_mono ds : forall n,
  Forall (fun d => 0 <= d <= 9) ds -> 0 <= n -> n <= digitsValue ds n.
Proof.
  induction ds as [|d ds IH]; intros n HF Hn; cbn [digitsValue fold_left]; [lia|].
  inversion HF as [|? ? Hd HF']; subst.
  fold (digitsValue ds (n * 10 + d)).
  specialize (IH (n * 10 + d) HF' ltac:(lia)). lia.
Qed.

Lemma ParseUint_loop_digits s0 ds : forall n,
  Forall (fun d => 0 <= d <= 9) ds -> 0 <= n ->
  digitsValue ds n <= strconv.maxUint64 ->
  strconv.ParseUint_loop s0 (map (fun d => 48 + d) ds) n = (digitsValue ds n, None).
Proof.
  induction ds as [|d ds IH]; intros n HF Hn Hmax; [reflexivity|].
  inversion HF as [|? ? Hd HF']; subst.
  cbn [map strconv.ParseUint_loop digitsValue fold_left] in *.
  fold (digitsValue ds (n * 10 + d)) in *.
  pose proof (@digitsValue_mono ds (n * 10 + d) HF' ltac:(lia)) as Hm.
  unfold Utf8.inRange.
  replace (48 <=? 48 + d) with true by (symmetry; apply Z.leb_le; lia).
  replace (48 + d <=? 57) with true by (symmetry; apply Z.leb_le; lia).
  cbn [andb negb].
  assert (Hmu : strconv.maxUint64 = 18446744073709551615) by reflexivity.
  replace (strconv.maxUint64 / 10 + 1 <=? n) with false
    by (symmetry; apply Z.leb_gt; rewrite Hmu in *;
        change (18446744073709551615 / 10) with 1844674407370955161; lia).
  replace (48 + d - 48) with d by lia.
  replace (strconv.maxUint64 <? n * 10 + d) with false
    by (symmetry; apply Z.ltb_ge; lia).
  apply IH; [exact HF'|lia|exact Hmax].
Qed.

Lemma digitRunes_cons n :
  0 <= n ->
  exists d ds, itoa.digits n = d :: ds /\ 0 <= d <= 9
               /\ digitRunes n = (48 + d) :: map (fun d => 48 + d) ds.
Proof.
  intros Hn. pose proof (digits_range Hn) as HF. pose proof (digits_nonempty n) as Hne.
  unfold digitRunes. destruct (itoa.digits n) as [|d ds]; [congruence|].
  inversion HF; subst. exists d, ds. repeat split; lia.
Qed.

Lemma ParseUint_digitRunes n :
  0 <= n <= strconv.maxUint64 ->
  strconv.ParseUint (digitRunes n) = (n, None).
Proof.
  intros [Hn Hmax]. destruct (digitRunes_cons Hn) as (d & ds & Hds & Hd & Hr).
  unfold strconv.ParseUint. rewrite Hr. rewrite <- Hr.
  unfold digitRunes at 2.
  rewrite ParseUint_loop_digits.
  - now rewrite (digits_value Hn).
  - now apply digits_range.
  - lia.
  - now rewrite (digits_value Hn).
Qed.

Lemma ParseInt_intRunes z : inInt z -> strconv.ParseInt (intRunes z) = (z, None).
Proof.
  unfold inInt, minInt, maxInt, intBits. cbn [Z.sub Z.add Z.pos_sub Z.pow Z.pow_pos Pos.iter Z.mul Pos.mul Z.opp Pos.pred_double].
  intros Hz. unfold intRunes, strconv.ParseInt.
  assert (Hmu : strconv.maxUint64 = 18446744073709551615) by reflexivity.
  destruct (z <? 0) eqn:Hneg.
  - apply Z.ltb_lt in Hneg. cbn [Z.eqb Pos.eqb].
    rewrite ParseUint_digitRunes by (rewrite Hmu; lia).
    cbn [negb andb].
    replace (2 ^ 63 <? - z) with false by (symmetry; apply Z.ltb_ge; lia).
    f_equal. lia.
  - apply Z.ltb_ge in Hneg.
    destruct (digitRunes_cons Hneg) as (d & ds & Hds & Hd & Hr).
    rewrite Hr.
    replace (48 + d =? 43) with false by (symmetry; apply Z.eqb_neq; lia).
    replace (48 + d =? 45) with false by (symmetry; apply Z.eqb_neq; lia).
    rewrite <- Hr.
    rewrite ParseUint_digitRunes by (rewrite Hmu; lia).
    cbn [negb andb].
    replace (2 ^ 63 <=? z) with false by (symmetry; apply Z.leb_gt; lia).
    reflexivity.
Qed.

Lemma hugeWid_value : fmt.hugeWid = 1073741824.
Proof. reflexivity. Qed.

Lemma digit_rune_cases r :
  48 <= r <= 57 ->
  r = 48 \/ r = 49 \/ r = 50 \/ r = 51 \/ r = 52 \/ r = 53 \/ r = 54 \/ r = 55
  \/ r = 56 \/ r = 57.
Proof. lia. Qed.

Ltac digit_cases H :=
  apply digit_rune_cases in H;
  repeat (destruct H as [H|H]; [subst; reflexivity|]); subst; reflexivity.

Lemma digit_isSpace r : 48 <= r <= 57 -> fmt.isSpace r = false.
Proof. intros H. digit_cases H. Qed.

Lemma digit_indexRune r : 48 <= r <= 57 -> fmt.indexRune fmt.decimalDigits r = true.
Proof. intros H. digit_cases H. Qed.

Lemma digit_not_sign r : 48 <= r <= 57 -> fmt.indexRune fmt.sign r = false.
Proof. intros H. digit_cases H. Qed.

Lemma SkipSpace_nonspace r l count :
  0 <= count < fmt.hugeWid -> fmt.isSpace r = false ->
  fmt.SkipSpace (r :: l, count) = inr (r :: l, count).
Proof.
  intros Hc Hs. unfold fmt.SkipSpace. cbn [fst snd fmt.SkipSpace_loop].
  replace (fmt.hugeWid <=? count) with false by (symmetry; apply Z.leb_gt; lia).
  destruct (r =? 13) eqn:H13; [apply Z.eqb_eq in H13; subst; discriminate|].
  destruct (r =? 10) eqn:H10; [apply Z.eqb_eq in H10; subst; discriminate|].
  rewrite Hs. cbn [andb negb fmt.UnreadRune]. do 2 f_equal. lia.
Qed.

Lemma getRune_cons r l count :
  0 <= count < fmt.hugeWid ->
  fmt.getRune (r :: l, count) = (r, (l, count + 1)).
Proof.
  intros Hc. unfold fmt.getRune.
  replace (fmt.hugeWid <=? count) with false by (symmetry; apply Z.leb_gt; lia).
  reflexivity.
Qed.

Lemma notEOF_cons r l count :
  0 <= count < fmt.hugeWid -> 0 <= r ->
  fmt.notEOF (r :: l, count) = inr (r :: l, count).
Proof.
  intros Hc Hr. unfold fmt.notEOF. rewrite getRune_cons by exact Hc.
  replace (r =? fmt.eof) with false
    by (symmetry; apply Z.eqb_neq; unfold fmt.eof; lia).
  reflexivity.
Qed.

Lemma accept_member ok r l count buf :
  0 <= count < fmt.hugeWid -> 0 <= r -> fmt.indexRune ok r = true ->
  fmt.accept ok (r :: l, count) buf = (true, (l, count + 1), buf ++ [r]).
Proof.
  intros Hc Hr Hin. unfold fmt.accept. rewrite getRune_cons by exact Hc.
  replace (r =? fmt.eof) with false
    by (symmetry; apply Z.eqb_neq; unfold fmt.eof; lia).
  now rewrite Hin.
Qed.

Lemma accept_other ok r l count buf :
  0 <= count < fmt.hugeWid -> 0 <= r -> fmt.indexRune ok r = false ->
  fmt.accept ok (r :: l, count) buf = (false, (r :: l, count), buf).
Proof.
  intros Hc Hr Hin. unfold fmt.accept. rewrite getRune_cons by exact Hc.
  replace (r =? fmt.eof) with false
    by (symmetry; apply Z.eqb_neq; unfold fmt.eof; lia).
  rewrite Hin. cbn [fmt.UnreadRune]. do 2 f_equal. f_equal. lia.
Qed.

Lemma acceptAll_digits ds : forall rest count buf,
  Forall (fun d => 0 <= d <= 9) ds ->
  numberEnds rest ->
  0 <= count -> count + Z.of_nat (List.length ds) < fmt.hugeWid ->
  fmt.acceptAll fmt.decimalDigits (map (fun d => 48 + d) ds ++ rest) count buf
  = ((rest, count + Z.of_nat (List.length ds)), buf ++ map (fun d => 48 + d) ds).
Proof.
  induction ds as [|d ds IH]; intros rest count buf HF Hend Hc Hlen.
  - cbn [map app List.length Z.of_nat]. rewrite Z.add_0_r, app_nil_r.
    destruct rest as [|r rest]; [reflexivity|]. cbn [fmt.acceptAll].
    cbn [numberEnds] in Hend. rewrite Hend.
    destruct (fmt.hugeWid <=? count); reflexivity.
  - inversion HF as [|? ? Hd HF']; subst.
    cbn [map app fmt.acceptAll].
    cbn [List.length] in Hlen. rewrite Nat2Z.inj_succ in Hlen.
    replace (fmt.hugeWid <=? count) with false by (symmetry; apply Z.leb_gt; lia).
    rewrite digit_indexRune by lia.
    rewrite (IH rest (count + 1) (buf ++ [48 + d]) HF' Hend) by lia.
    cbn [List.length]. rewrite Nat2Z.inj_succ, <- app_assoc. cbn [app].
    do 2 f_equal. lia.
Qed.

Lemma scanNumber_digits d ds rest count buf :
  0 <= d <= 9 -> Forall (fun d => 0 <= d <= 9) ds ->
  numberEnds rest ->
  0 <= count -> count + 1 + Z.of_nat (List.length ds) < fmt.hugeWid ->
  fmt.scanNumber fmt.decimalDigits
                 ((48 + d) :: map (fun d => 48 + d) ds ++ rest, count) buf
  = inr ((rest, count + 1 + Z.of_nat (List.length ds)),
         buf ++ (48 + d) :: map (fun d => 48 + d) ds).
Proof.
  intros Hd HF Hend Hc Hlen. unfold fmt.scanNumber.
  rewrite notEOF_cons by lia.
  rewrite accept_member by (try apply digit_indexRune; lia).
  cbn [negb fst snd].
  rewrite (acceptAll_digits rest (buf ++ [48 + d]) HF Hend) by lia.
  rewrite <- app_assoc. reflexivity.
Qed.

(** Scanning a formatted [int] gives the [int] back and stops where
    the number ends. *)
Lemma scanInt_intRunes z rest count :
  inInt z -> numberEnds rest ->
  0 <= count -> count + 100 < fmt.hugeWid ->
  fmt.scanInt (intRunes z ++ rest, count)
  = inr (z, (rest, count + Z.of_nat (List.length (intRunes z)))).
Proof.
  intros Hz Hend Hc Hlen.
  pose proof (ParseInt_intRunes Hz) as HP.
  pose proof (wrapInt_id Hz) as Hw.
  assert (Hz' : - 2 ^ 63 <= z <= 2 ^ 63 - 1) by exact Hz.
  unfold fmt.scanInt. unfold intRunes in *.
  destruct (z <? 0) eqn:Hneg.
  - apply Z.ltb_lt in Hneg.
    destruct (@digitRunes_cons (- z) ltac:(lia)) as (d & ds & Hds & Hd & Hr).
    assert (Hl : (List.length ds < 64)%nat).
    { pose proof (@digits_length (- z) ltac:(lia)) as HL. rewrite Hds in HL.
      cbn [List.length] in HL. lia. }
    assert (HF : Forall (fun d => 0 <= d <= 9) ds).
    { pose proof (@digits_range (- z) ltac:(lia)) as HF. rewrite Hds in HF.
      now inversion HF. }
    rewrite Hr in *. cbn [app].
    rewrite SkipSpace_nonspace by (try reflexivity; lia).
    rewrite notEOF_cons by lia.
    rewrite accept_member by (try reflexivity; lia).
    rewrite (scanNumber_digits rest (count := count + 1) ([] ++ [45]) Hd HF Hend) by lia.
    cbn [app]. rewrite HP, Hw, Z.eqb_refl. cbn [negb List.length map].
    rewrite length_map. do 3 f_equal. lia.
  - apply Z.ltb_ge in Hneg.
    destruct (@digitRunes_cons z ltac:(lia)) as (d & ds & Hds & Hd & Hr).
    assert (Hl : (List.length ds < 64)%nat).
    { pose proof (@digits_length z ltac:(lia)) as HL. rewrite Hds in HL.
      cbn [List.length] in HL. lia. }
    assert (HF : Forall (fun d => 0 <= d <= 9) ds).
    { pose proof (@digits_range z ltac:(lia)) as HF. rewrite Hds in HF.
      now inversion HF. }
    rewrite Hr in *. cbn [app].
    rewrite SkipSpace_nonspace by (try apply digit_isSpace; lia).
    rewrite notEOF_cons by lia.
    rewrite accept_other by (try apply digit_not_sign; lia).
    rewrite (scanNumber_digits rest (count := count) [] Hd HF Hend) by lia.
    cbn [app]. rewrite HP, Hw, Z.eqb_refl. cbn [negb List.length map].
    rewrite length_map. do 3 f_equal. lia.
Qed.

Lemma runes_ascii_cons c s :
  Utf8.byteZ c < 128 -> Utf8.runes (String c s) = Utf8.byteZ c :: Utf8.runes s.
Proof. intros Hc. unfold Utf8.runes. now rewrite decode_ascii_cons. Qed.

Lemma byteZ_digitChar d : 0 <= d <= 9 -> Utf8.byteZ (itoa.digitChar d) = 48 + d.
Proof.
  intros Hd.
  assert (H : d = 0 \/ d = 1 \/ d = 2 \/ d = 3 \/ d = 4 \/ d = 5 \/ d = 6 \/ d = 7
              \/ d = 8 \/ d = 9) by lia.
  repeat (destruct H as [H|H]; [subst; reflexivity|]). subst; reflexivity.
Qed.

Lemma runes_ofDigits ds s :
  Forall (fun d => 0 <= d <= 9) ds ->
  Utf8.runes (itoa.ofDigits ds ++ s)%string = map (fun d => 48 + d) ds ++ Utf8.runes s.
Proof.
  induction ds as [|d ds IH]; intros HF; [reflexivity|].
  inversion HF as [|? ? Hd HF']; subst.
  cbn [itoa.ofDigits fold_right String.append map app].
  rewrite runes_ascii_cons by (rewrite byteZ_digitChar; lia).
  rewrite byteZ_digitChar by exact Hd. f_equal. apply IH, HF'.
Qed.

Lemma runes_FormatInt z s :
  Utf8.runes (itoa.FormatInt z ++ s)%string = intRunes z ++ Utf8.runes s.
Proof.
  unfold itoa.FormatInt, intRunes, digitRunes.
  destruct (z <? 0) eqn:Hneg.
  - apply Z.ltb_lt in Hneg. cbn [String.append app].
    rewrite runes_ascii_cons by (cbn; lia).
    rewrite runes_ofDigits by (apply digits_range; lia). reflexivity.
  - apply Z.ltb_ge in Hneg. apply runes_ofDigits, digits_range. lia.
Qed.

Lemma runes_FormatInt_alone z : Utf8.runes (itoa.FormatInt z) = intRunes z.
Proof.
  rewrite <- (string_append_nil (itoa.FormatInt z)), runes_FormatInt.
  change (Utf8.runes "") with (@nil Z). apply app_nil_r.
Qed.

Lemma runes_renderEntry e :
  Utf8.runes (renderEntry e) = intRunes (fst e) ++ 32 :: intRunes (snd e).
Proof.
  unfold renderEntry. rewrite runes_FormatInt. f_equal.
  cbn [String.append]. rewrite runes_ascii_cons by (cbn; lia).
  change (Utf8.byteZ " ") with 32. f_equal.
  apply runes_FormatInt_alone.
Qed.

Lemma intRunes_head z :
  inInt z ->
  exists r l, intRunes z = r :: l /\ fmt.isSpace r = false /\ 0 <= r
              /\ (List.length (intRunes z) <= 65)%nat.
Proof.
  intros Hz. assert (Hz' : - 2 ^ 63 <= z <= 2 ^ 63 - 1) by exact Hz.
  unfold intRunes. destruct (z <? 0) eqn:Hneg.
  - apply Z.ltb_lt in Hneg. exists 45, (digitRunes (- z)).
    repeat split; try lia. cbn [List.length]. unfold digitRunes. rewrite length_map.
    pose proof (@digits_length (- z) ltac:(lia)). lia.
  - apply Z.ltb_ge in Hneg.
    destruct (@digitRunes_cons z Hneg) as (d & ds & Hds & Hd & Hr).
    exists (48 + d), (map (fun d => 48 + d) ds).
    split; [exact Hr|]. split; [apply digit_isSpace; lia|]. split; [lia|].
    unfold digitRunes. rewrite length_map.
    pose proof (@digits_length z ltac:(lia)). lia.
Qed.

Lemma advanceSpace_loop_nonspace r l count :
  0 <= count < fmt.hugeWid -> fmt.isSpace r = false ->
  fmt.advanceSpace_loop (r :: l) count = (r :: l, count).
Proof.
  intros Hc Hs. cbn [fmt.advanceSpace_loop]. rewrite Hs.
  destruct (fmt.hugeWid <=? count); reflexivity.
Qed.

(** [Sscanf] reads back the entry that was formatted: every pair of
    [int]s, negative ones too, written in decimal with one space
    between them. *)
Lemma Sscanf_renderEntry e :
  inInt (fst e) -> inInt (snd e) ->
  fmt.Sscanf_d_d (renderEntry e) = fmt.mkScanned 2 None (fst e) (snd e).
Proof.
  intros Hid Hsize. unfold fmt.Sscanf_d_d. rewrite runes_renderEntry.
  destruct (intRunes_head Hid) as (r1 & l1 & Hr1 & Hs1 & Hp1 & Hlen1).
  destruct (intRunes_head Hsize) as (r2 & l2 & Hr2 & Hs2 & Hp2 & Hlen2).
  pose proof hugeWid_value as HW.
  rewrite Hr1 at 1. cbn [app].
  rewrite SkipSpace_nonspace by (try exact Hs1; lia).
  change (r1 :: l1 ++ 32 :: intRunes (snd e)) with ((r1 :: l1) ++ 32 :: intRunes (snd e)).
  rewrite <- Hr1.
  rewrite (@scanInt_intRunes (fst e) (32 :: intRunes (snd e)) 0 Hid)
    by (try reflexivity; lia).
  unfold fmt.advanceSpace. rewrite getRune_cons by lia.
  change (fmt.isSpace 32) with true. change (32 =? 10) with false.
  change (32 =? fmt.eof) with false. cbn [negb andb fst snd].
  rewrite Hr2.
  rewrite advanceSpace_loop_nonspace by (try exact Hs2; lia).
  rewrite SkipSpace_nonspace by (try exact Hs2; lia).
  rewrite <- Hr2. rewrite <- (app_nil_r (intRunes (snd e))).
  rewrite (@scanInt_intRunes (snd e) [] _ Hsize) by (try exact I; lia).
  reflexivity.
Qed.

Lemma FormatInt_head z :
  exists c s, itoa.FormatInt z = String c s /\ c <> "+"%char /\ c <> "."%char.
Proof.
  unfold itoa.FormatInt. destruct (z <? 0) eqn:Hneg.
  - do 2 eexists. split; [reflexivity|]. split; discriminate.
  - apply Z.ltb_ge in Hneg.
    pose proof (digits_range Hneg) as HF. pose proof (digits_nonempty z) as Hne.
    destruct (itoa.digits z) as [|d ds]; [congruence|]. inversion HF as [|? ? Hd _]; subst.
    cbn [itoa.ofDigits fold_right]. do 2 eexists. split; [reflexivity|].
    assert (H : d = 0 \/ d = 1 \/ d = 2 \/ d = 3 \/ d = 4 \/ d = 5 \/ d = 6 \/ d = 7
                \/ d = 8 \/ d = 9) by lia.
    repeat (destruct H as [H|H]; [subst; split; discriminate|]).
    subst; split; discriminate.
Qed.

Lemma skipped_renderEntry e : skipped (renderEntry e) = false.
Proof.
  unfold renderEntry.
  destruct (FormatInt_head (fst e)) as (c & s & Hf & Hplus & Hdot). rewrite Hf.
  unfold skipped, strings.HasPrefix. cbn [String.append String.prefix String.eqb].
  destruct (ascii_dec "+" c) as [Heq|_]; [congruence|].
  destruct (Ascii.eqb c ".") eqn:He; [apply Ascii.eqb_eq in He; congruence|].
  reflexivity.
Qed.

Lemma parses_renderEntry e : intEntry e -> parses (renderEntry e) = true.
Proof.
  intros [Hid Hsize]. unfold parses. now rewrite Sscanf_renderEntry.
Qed.

Lemma entryOf_renderEntry e : intEntry e -> entryOf (renderEntry e) = e.
Proof.
  intros [Hid Hsize]. unfold entryOf. rewrite Sscanf_renderEntry by assumption.
  now destruct e.
Qed.

Lemma entries_rendered es tail :
  Forall intEntry es ->
  entries (map renderEntry es ++ tail) = es ++ entries tail.
Proof.
  induction es as [|e es IH]; intros HF; [reflexivity|].
  inversion HF as [|? ? He HF']; subst. cbn [map app].
  rewrite entries_cons_kept by apply skipped_renderEntry.
  rewrite entryOf_renderEntry by exact He. cbn [app]. f_equal. apply IH, HF'.
Qed.

Lemma passes_rendered es : Forall intEntry es -> Forall passes (map renderEntry es).
Proof.
  induction 1 as [|e es He _ IH]; cbn [map]; constructor; [|exact IH].
  right. now apply parses_renderEntry.
Qed.

(** A response in the usual form: a [+OK] line, one line per entry and
    the terminator. *)
Lemma response_entries hdr es :
  strings.HasPrefix hdr "+OK" = true ->
  Forall intEntry es ->
  entries (hdr :: map renderEntry es ++ ["."]) = es
  /\ Forall passes (hdr :: map renderEntry es ++ ["."]).
Proof.
  intros Hh HF. split.
  - rewrite entries_cons_skipped by (unfold skipped; now rewrite Hh).
    rewrite entries_rendered by exact HF. cbn. apply app_nil_r.
  - constructor; [left; unfold skipped; now rewrite Hh|].
    apply Forall_app. split; [now apply passes_rendered|].
    constructor; [left; reflexivity|constructor].
Qed.

(* ================================================================== *)
(** * [readFile] *)
(* ================================================================== *)

Lemma cutLine_length s line rest :
  cutLine s = Some (line, rest) -> (String.length rest < String.length s)%nat.
Proof.
  revert line rest. induction s as [|c t IH]; intros line rest H; [discriminate|].
  cbn [cutLine] in H. destruct (Ascii.eqb c (ascii_of_nat 10)).
  - inversion H; subst. cbn. lia.
  - destruct (cutLine t) as [[l r]|] eqn:Ht; [|discriminate].
    inversion H; subst. specialize (IH _ _ eq_refl). cbn. lia.
Qed.

Lemma cutLine_app l s : noLF l -> cutLine (l ++ LF ++ s) = Some ((l ++ LF)%string, s).
Proof.
  unfold noLF. induction l as [|c t IH]; intros H; [reflexivity|].
  cbn [cutLine String.append] in *.
  destruct (Ascii.eqb c (ascii_of_nat 10)); [discriminate|].
  destruct (cutLine t) as [[l r]|]; [discriminate|].
  now rewrite IH.
Qed.

Lemma unlines_length ls tail :
  (List.length ls <= String.length (unlines ls ++ tail))%nat.
Proof.
  induction ls as [|l ls IH]; [cbn; lia|].
  cbn [unlines fold_right List.length]. fold (unlines ls).
  rewrite !string_app_assoc, !string_length_app. rewrite string_length_app in IH.
  cbn [String.length LF]. lia.
Qed.

(** The loop of [readFile] on a file of complete lines followed by
    bytes without a line feed. *)
Lemma readFile_loop_lines ls : forall fuel tail flt cl contents,
  Forall noLF ls -> noLF tail ->
  (List.length ls < fuel)%nat ->
  readFile_loop fuel (mkFile (unlines ls ++ tail) flt cl) contents
  = (atEnd flt (contents ++ trimmedLines ls), mkFile "" flt true).
Proof.
  induction ls as [|l ls IH]; intros fuel tail flt cl contents HF Ht Hlen;
    (destruct fuel as [|fuel]; [cbn in Hlen; lia|]).
  - cbn [unlines trimmedLines fold_right String.append readFile_loop].
    unfold File_ReadString. cbn [data fault fileClosed]. rewrite Ht.
    rewrite string_append_nil. unfold atEnd.
    destruct flt as [e|]; [destruct (isEOF e)|]; reflexivity.
  - inversion HF as [|? ? Hl HF']; subst.
    cbn [readFile_loop unlines trimmedLines fold_right].
    fold (unlines ls). fold (trimmedLines ls).
    unfold File_ReadString. cbn [data fault fileClosed].
    rewrite !string_app_assoc. rewrite (cutLine_app _ Hl).
    rewrite IH by (try assumption; cbn [List.length] in Hlen; lia).
    now rewrite TrimSpace_LF, string_app_assoc.
Qed.

(** The loop of [readFile] always closes the file. *)
Lemma readFile_loop_closes fuel : forall fi contents,
  fileClosed (snd (readFile_loop fuel fi contents)) = true.
Proof.
  induction fuel as [|fuel IH]; intros fi contents; [reflexivity|].
  cbn [readFile_loop]. unfold File_ReadString.
  destruct (cutLine (data fi)) as [[line rest]|].
  - apply IH.
  - destruct (isEOF _); reflexivity.
Qed.

(** The loop of [readFile] never runs out of turns. *)
Lemma readFile_loop_enough fuel : forall fuel' fi contents,
  (String.length (data fi) < fuel)%nat -> (String.length (data fi) < fuel')%nat ->
  readFile_loop fuel fi contents = readFile_loop fuel' fi contents.
Proof.
  induction fuel as [|fuel IH]; intros fuel' fi contents H H'; [lia|].
  destruct fuel' as [|fuel']; [lia|].
  cbn [readFile_loop]. unfold File_ReadString.
  destruct (cutLine (data fi)) as [[line rest]|] eqn:Hc; [|reflexivity].
  apply cutLine_length in Hc. apply IH; cbn [data]; lia.
Qed.

Lemma readFile_on_lines open path ls tail flt :
  path <> "" ->
  open path = OpenOk (mkFile (unlines ls ++ tail) flt false) ->
  Forall noLF ls -> noLF tail ->
  readFile open path = (atEnd flt (trimmedLines ls), Some (mkFile "" flt true)).
Proof.
  intros Hp Ho HF Ht. unfold readFile.
  destruct path as [|c path]; [congruence|]. cbn [String.length Nat.eqb].
  rewrite Ho. cbn [data].
  rewrite readFile_loop_lines
    by (try assumption; pose proof (unlines_length ls tail); lia).
  reflexivity.
Qed.

(** X1.  [readFile] on a path that opens.  A file is a sequence of lines
    that end in a line feed, followed by bytes without a line feed.
    [readFile] returns the lines, each trimmed of its white space, one
    after the other with nothing between them; the bytes after the last
    line feed are not part of the result; a read error other than
    [io.EOF] is returned instead, with empty contents; and the file is
    closed in every case. *)
Theorem readFile_lines open path ls tail flt :
  path <> "" ->
  open path = OpenOk (mkFile (unlines ls ++ tail) flt false) ->
  Forall noLF ls -> noLF tail ->
  readFile open path = (atEnd flt (trimmedLines ls), Some (mkFile "" flt true)).
Proof. apply readFile_on_lines. Qed.

Lemma readFile_lines_witness :
  let open := fun _ : string => OpenOk (mkFile ("  hunter2 " ++ LF ++ "tail") None false) in
  Forall noLF ["  hunter2 "] /\ noLF "tail"
  /\ readFile open "pw.txt" = (("hunter2", None), Some (mkFile "" None true)).
Proof.
  cbv zeta.
  assert (HF : Forall noLF ["  hunter2 "]) by (repeat constructor).
  assert (Ht : noLF "tail") by reflexivity.
  split; [exact HF|]. split; [exact Ht|].
  etransitivity;
    [exact (@readFile_lines
              (fun _ : string => OpenOk (mkFile ("  hunter2 " ++ LF ++ "tail") None false))
              "pw.txt" ["  hunter2 "] "tail" None
              ltac:(discriminate) eq_refl HF Ht)
    |vm_compute; reflexivity].
Defined.

(** Every string is a sequence of complete lines followed by bytes
    without a line feed, so the statement above covers every file. *)
Lemma lines_of_string s :
  exists ls tail, s = (unlines ls ++ tail)%string /\ Forall noLF ls /\ noLF tail.
Proof.
  induction s as [|c t (ls & tail & Heq & HF & Ht)].
  - exists [], "". repeat split. constructor.
  - destruct (Ascii.eqb c (ascii_of_nat 10)) eqn:Hc.
    + apply Ascii.eqb_eq in Hc. subst c.
      exists ("" :: ls), tail. split; [|split; [|exact Ht]].
      * cbn [unlines fold_right String.append LF]. fold (unlines ls).
        now rewrite Heq.
      * constructor; [reflexivity|exact HF].
    + destruct ls as [|l ls].
      * exists [], (String c tail). cbn [unlines fold_right String.append] in *.
        split; [now rewrite Heq|]. split; [constructor|].
        unfold noLF in *. cbn [cutLine]. now rewrite Hc, Ht.
      * exists (String c l :: ls), tail.
        cbn [unlines fold_right String.append] in *. fold (unlines ls) in *.
        split; [now rewrite Heq|]. split; [|exact Ht].
        inversion HF as [|? ? Hl HF']; subst. constructor; [|exact HF'].
        unfold noLF in *. cbn [cutLine]. now rewrite Hc, Hl.
Qed.

(** X2.  [readFile] closes every file it opens, whatever the reads
    give, and it opens none for the empty path. *)
Theorem readFile_closes open path :
  match snd (readFile open path) with
  | Some fi => fileClosed fi = true /\ path <> "" /\ exists fi0, open path = OpenOk fi0
  | None => path = "" \/ exists e, open path = OpenFails e
  end.
Proof.
  unfold readFile. destruct path as [|c path]; cbn [String.length Nat.eqb snd].
  - now left.
  - destruct (open (String c path)) as [e|fi] eqn:Ho; cbn [snd].
    + right. now exists e.
    + pose proof (readFile_loop_closes (S (String.length (data fi))) fi "") as Hc.
      destruct (readFile_loop _ fi "") as [r fi']. cbn [snd] in *.
      split; [exact Hc|]. split; [discriminate|now exists fi].
Qed.

(* ================================================================== *)
(** * More on the line session *)
(* ================================================================== *)

(** X3.  When the next read delivers [s] followed by CR LF, or by LF
    alone, [readLine] returns [s] trimmed of its white space and no
    error; it has set one read deadline, consumed that one read and
    logged nothing. *)
Theorem readLine_strips_terminator c lg s rest :
  readResults c = ((s ++ CRLF)%string, None) :: rest
  \/ readResults c = ((s ++ LF)%string, None) :: rest ->
  readLine (mkProc c lg)
  = ((strings.TrimSpace s, None), mkProc (afterReads c rest 1) lg).
Proof.
  intros H. destruct c as [rr wr fr ra wn d cl]. cbn [readResults] in H.
  unfold readLine, setReadDeadline, SetReadDeadline, modifyConn, bind, ReadString, ret.
  cbn [conn log readResults writeResults flushResults remoteAddr written deadlines closed].
  destruct H as [-> | ->]; cbn [afterReads fst snd];
    rewrite ?TrimSpace_CRLF, ?TrimSpace_LF; reflexivity.
Qed.

Lemma readLine_strips_terminator_witness :
  readLine (mkProc (freshConn [okLine " +OK ready "]) [])
  = (("+OK ready", None), mkProc (afterReads (freshConn [okLine " +OK ready "]) [] 1) []).
Proof.
  etransitivity;
    [exact (@readLine_strips_terminator (freshConn [okLine " +OK ready "]) []
              " +OK ready " [] (or_introl eq_refl))
    |vm_compute; reflexivity].
Defined.

(** X4.  [writeLine] hands the line followed by CR LF to the writer,
    once, whether the write succeeds or not, and reads nothing.  It
    returns [nil] exactly when both [WriteString] and [Flush] succeed;
    when [WriteString] fails its error is returned and [Flush] is not
    called; when [Flush] fails its error is returned. *)
Theorem writeLine_result v s c lg :
  let r := writeLine v s (mkProc c lg) in
  let c' := conn (snd r) in
  let we := fst (popResult (writeResults c)) in
  let fe := fst (popResult (flushResults c)) in
  written c' = written c ++ [(s ++ CRLF)%string]
  /\ readResults c' = readResults c
  /\ writeResults c' = snd (popResult (writeResults c))
  /\ match we with
     | Some e => fst r = Some e /\ flushResults c' = flushResults c
     | None => fst r = fe /\ flushResults c' = snd (popResult (flushResults c))
     end.
Proof.
  destruct c as [rr wr fr ra wn d cl].
  unfold writeLine, bind, when, WriteString, Flush, log_Printf, ret.
  destruct v, wr as [|[e|] wr], fr as [|[e'|] fr]; cbn; repeat split.
Qed.

Lemma readScript_shape endCheck script : forall acc,
  let '(r, rest, out, n) := readScript endCheck script acc in
  match snd r with
  | Some _ => fst r = []
  | None =>
    exists new, fst r = acc ++ new
                /\ Forall (fun l => endCheck l = false) (removelast new)
                /\ (List.length new <= List.length script)%nat
  end
  /\ ((List.length rest + n = List.length script)%nat
      \/ (script = [] /\ rest = [] /\ n = 1%nat)
      \/ (rest = [] /\ n = S (List.length script)
          /\ Forall (passesBy endCheck) script)).
Proof.
  induction script as [|[raw [e|]] script IH]; intros acc; cbn [readScript].
  - cbn [snd fst]. split.
    + exists []. rewrite app_nil_r. repeat split; [constructor|reflexivity].
    + right. left. repeat split.
  - destruct (isNetTimeout e || isEOF e); cbn [snd fst]; split;
      try (left; cbn [List.length]; lia); try reflexivity.
    exists []. rewrite app_nil_r. repeat split; [constructor|cbn; lia].
  - destruct (endCheck (strings.TrimSpace raw)) eqn:He.
    + cbn [snd fst]. split; [|left; cbn [List.length]; lia].
      exists [strings.TrimSpace raw]. repeat split; [constructor|cbn; lia].
    + specialize (IH (acc ++ [strings.TrimSpace raw])).
      destruct (readScript endCheck script (acc ++ [strings.TrimSpace raw]))
        as [[[[lines err] rest] out] n].
      cbn [snd fst] in *. destruct IH as [IH1 IH2]. split.
      * destruct err as [e|]; [exact IH1|].
        destruct IH1 as (new & Hl & HF & Hlen).
        exists (strings.TrimSpace raw :: new). rewrite Hl, <- app_assoc.
        split; [reflexivity|]. split; [|cbn [List.length]; lia].
        destruct new as [|l new]; [constructor|].
        change (removelast (strings.TrimSpace raw :: l :: new))
          with (strings.TrimSpace raw :: removelast (l :: new)).
        constructor; assumption.
      * destruct IH2 as [IH2|[(Hs & Hr & Hn)|(Hr & Hn & HF)]].
        -- left. cbn [List.length]. lia.
        -- right. right. subst. repeat split.
           constructor; [split; [reflexivity|exact He]|constructor].
        -- right. right. subst. repeat split.
           constructor; [split; [reflexivity|exact He]|exact HF].
Qed.

(** X5.  What [readLines] returns, on every connection: with an error
    there are no lines; with no error, [endCheck] is false on every
    line but the last, and there are no more lines than reads were
    left.  One deadline is set for each read: as many as read results
    were consumed, and one more when they were used up. *)
Theorem readLines_result_shape endCheck p :
  let r := readLines endCheck p in
  let lines := fst (fst r) in
  let c := conn p in
  let c' := conn (snd r) in
  let consumed := (List.length (readResults c) - List.length (readResults c'))%nat in
  (snd (fst r) <> None -> lines = [])
  /\ (snd (fst r) = None -> Forall (fun l => endCheck l = false) (removelast lines))
  /\ (List.length lines <= List.length (readResults c))%nat
  /\ (deadlines c' = (deadlines c + consumed)%nat
      \/ (readResults c' = [] /\ deadlines c' = (deadlines c + consumed + 1)%nat)).
Proof.
  cbv zeta. rewrite readLines_script.
  pose proof (readScript_shape endCheck (readResults (conn p)) []) as H.
  destruct (readScript endCheck (readResults (conn p)) []) as [[[[lines err] rest] out] n].
  cbn [fst snd conn afterReads readResults deadlines] in *.
  destruct H as [H1 H2]. split; [|split; [|split]].
  - intros Hne. destruct err; [exact H1|congruence].
  - intros ->. destruct H1 as (new & -> & HF & _). exact HF.
  - destruct err; [subst; cbn; lia|].
    destruct H1 as (new & -> & _ & Hlen). exact Hlen.
  - destruct H2 as [H2|[(Hs & Hr & Hn)|(Hr & Hn & _)]].
    + left. lia.
    + right. subst. rewrite Hs. cbn. split; [reflexivity|lia].
    + right. subst. cbn [List.length]. split; [reflexivity|lia].
Qed.

(* ================================================================== *)
(** * The commands of a check *)
(* ================================================================== *)

Lemma Keeps_ret {A} (a : A) : Keeps (ret a).
Proof. intros p. reflexivity. Qed.

Lemma Keeps_bind {A B} (m : M A) (k : A -> M B) :
  Keeps m -> (forall a, Keeps (k a)) -> Keeps (bind m k).
Proof.
  intros Hm Hk p. unfold bind. specialize (Hm p).
  destruct (m p) as [a p1]. cbn [snd] in Hm. rewrite Hk. exact Hm.
Qed.

Lemma Keeps_log f a : Keeps (log_Printf f a).
Proof. intros p. reflexivity. Qed.

Lemma Keeps_when b (m : M unit) : Keeps m -> Keeps (when b m).
Proof. intros H. destruct b; [exact H|apply Keeps_ret]. Qed.

Lemma Keeps_readLines endCheck : Keeps (readLines endCheck).
Proof.
  intros p. rewrite readLines_script.
  destruct (readScript endCheck (readResults (conn p)) []) as [[[r rest] out] n].
  reflexivity.
Qed.

Ltac keeps_step :=
  match goal with
  | |- Keeps (bind _ _) => apply Keeps_bind; [|intros]
  | |- Keeps (ret _) => apply Keeps_ret
  | |- Keeps (log_Printf _ _) => apply Keeps_log
  | |- Keeps (when _ _) => apply Keeps_when
  | |- Keeps (readLines _) => apply Keeps_readLines
  | |- Keeps (match ?x with _ => _ end) => destruct x
  end.

Lemma Keeps_listLoop v w lines : forall t, Keeps (listLoop v w lines t).
Proof.
  induction lines as [|line rest IH]; intros t; cbn [listLoop].
  - apply Keeps_ret.
  - repeat keeps_step; apply IH.
Qed.

(** A command is written, then a part that sends [cmds] follows or the
    check fails without writing. *)
Lemma Sends_after_write v s (k : option error -> M (option error)) cmds :
  (forall err, Sends (k err) cmds \/ (Keeps (k err) /\ forall p, fst (k err p) <> None)) ->
  Sends (bind (writeLine v s) k) ((s ++ CRLF)%string :: cmds).
Proof.
  intros Hk p. unfold bind.
  pose proof (writeLine_written v s p) as Hw.
  destruct (writeLine v s p) as [err p1]. cbn [snd] in Hw.
  destruct (Hk err) as [Hs|[Hkeep Hfail]].
  - destruct (Hs p1) as (n & Hn & Hall). exists (S n).
    rewrite Hn, Hw, <- app_assoc. split; [reflexivity|].
    intros Hnone. cbn [List.length]. f_equal. exact (Hall Hnone).
  - exists 1%nat. rewrite Hkeep, Hw. split; [reflexivity|].
    intros Hnone. now elim (Hfail p1).
Qed.

Lemma Sends_bind {A} (m : M A) (k : A -> M (option error)) cmds :
  Keeps m ->
  (forall a, Sends (k a) cmds \/ (Keeps (k a) /\ forall p, fst (k a p) <> None)) ->
  Sends (bind m k) cmds.
Proof.
  intros Hm Hk p. unfold bind. specialize (Hm p).
  destruct (m p) as [a p1]. cbn [snd] in Hm.
  destruct (Hk a) as [Hs|[Hkeep Hfail]].
  - destruct (Hs p1) as (n & Hn & Hall). exists n. rewrite Hn, Hm. split; [reflexivity|exact Hall].
  - exists 0%nat. rewrite Hkeep, Hm. cbn [firstn]. rewrite app_nil_r.
    split; [reflexivity|]. intros Hnone. now elim (Hfail p1).
Qed.

Lemma fails_log f a (e : error) :
  Keeps (bind (log_Printf f a) (fun _ => ret (Some e)))
  /\ forall p, fst (bind (log_Printf f a) (fun _ => ret (Some e)) p) <> None.
Proof. split; [repeat keeps_step|intros p; discriminate]. Qed.

Lemma Sends_nothing (m : M (option error)) : Keeps m -> Sends m [].
Proof.
  intros Hm p. exists 0%nat. rewrite Hm. cbn. rewrite app_nil_r. split; reflexivity.
Qed.

Lemma Sends_fromList v w q : Sends (fromList v w q) [listCmd].
Proof.
  unfold fromList, listCmd. apply Sends_after_write. intros err. left.
  apply Sends_nothing. repeat (keeps_step || apply Keeps_listLoop).
Qed.

Lemma Sends_fromPass v pass w q : Sends (fromPass v pass w q) [passCmd pass; listCmd].
Proof.
  unfold fromPass, passCmd. cbv zeta. apply Sends_after_write.
  intros [e|]; [right; apply fails_log|].
  left. apply Sends_bind; [apply Keeps_readLines|].
  intros [lines [e|]]; [right; apply fails_log|].
  destruct (negb (lenIs1 lines) || negb (strings.HasPrefix (index0 lines) "+OK"));
    [right; apply fails_log|left; apply Sends_fromList].
Qed.

Lemma Sends_fromUser v user pass w q :
  Sends (fromUser v user pass w q) [userCmd user; passCmd pass; listCmd].
Proof.
  unfold fromUser, userCmd. cbv zeta. apply Sends_after_write.
  intros [e|]; [right; apply fails_log|].
  left. apply Sends_bind; [apply Keeps_readLines|].
  intros [lines [e|]]; [right; apply fails_log|].
  destruct (negb (lenIs1 lines) || negb (strings.HasPrefix (index0 lines) "+OK"));
    [right; apply fails_log|left; apply Sends_fromPass].
Qed.

Lemma Sends_fromGreeting v user pass w q :
  Sends (fromGreeting v user pass w q) [userCmd user; passCmd pass; listCmd].
Proof.
  unfold fromGreeting. apply Sends_bind; [apply Keeps_readLines|].
  intros [lines [e|]]; [right; apply fails_log|].
  destruct (negb (lenIs1 lines)); [right; apply fails_log|].
  destruct (negb (strings.HasPrefix (index0 lines) "+OK "));
    [right; apply fails_log|left; apply Sends_fromUser].
Qed.

(** X6.  The only things a check hands to the writer are the commands
    USER, PASS and LIST with the user name and the password it was
    given, each at most once and in this order; a check that returns
    [nil] has handed over all three.  Nothing is written when the
    connection cannot be made. *)
Theorem commands_in_order v dial host user pass w q :
  let o := checkMailbox v dial host user pass w q in
  match dial (hostPortOf host) with
  | DialFails _ => sent o = []
  | DialOk c =>
    exists n, sent o = written c ++ firstn n [userCmd user; passCmd pass; listCmd]
              /\ (result o = None -> n = 3%nat)
  end.
Proof.
  cbv zeta. unfold checkMailbox.
  destruct (dial (hostPortOf host)) as [e|c]; [reflexivity|].
  rewrite checkMailbox_connected_stages. unfold newConn.
  match goal with
  | |- context [fromGreeting v user pass w q ?p0] =>
    destruct (@Sends_fromGreeting v user pass w q p0) as (n & Hn & Hall);
    destruct (fromGreeting v user pass w q p0) as [r p]
  end.
  cbn [fst snd conn] in *. exists n. unfold sent. cbn [finalConn result].
  split; [exact Hn|exact Hall].
Qed.

Lemma hostPortOf_110 host : hostPortOf host = (host ++ ":110")%string.
Proof.
  unfold hostPortOf. replace (itoa.FormatInt connectPort) with "110"
    by (vm_compute; reflexivity).
  reflexivity.
Qed.

(** X7.  A check dials the host on port 110 and no other address: its
    outcome depends on the network only through the answer for
    [host:110].  When that dial fails, the check returns the error of
    the dial, there is no connection, and apart from the diagnostics
    the log has the one entry of the failure. *)
Theorem dials_port_110 v dial host user pass w q :
  (forall dial',
      dial' (host ++ ":110")%string = dial (host ++ ":110")%string ->
      checkMailbox v dial' host user pass w q = checkMailbox v dial host user pass w q)
  /\ (forall e,
         dial (host ++ ":110")%string = DialFails e ->
         let o := checkMailbox v dial host user pass w q in
         result o = Some e /\ finalConn o = None
         /\ quiet (logged o)
            = [Printf "Failed to connect to [%s]: %s"
                      [AStr (host ++ ":110")%string; AErr e]]).
Proof.
  split.
  - intros dial' H. unfold checkMailbox. rewrite hostPortOf_110, H. reflexivity.
  - intros e H. cbv zeta. unfold checkMailbox. rewrite hostPortOf_110, H.
    cbn [result finalConn logged]. repeat split. destruct v; reflexivity.
Qed.

(* ================================================================== *)
(** * The thresholds *)
(* ================================================================== *)

Lemma plain_app l1 l2 : plain (l1 ++ l2) = plain l1 ++ plain l2.
Proof. unfold plain. apply filter_app. Qed.

Lemma Akin_ret {A} (a : A) : Akin (ret a) (ret a).
Proof. intros p1 p2 H. split; [reflexivity|exact H]. Qed.

Lemma Akin_bind {A B} (m1 m2 : M A) (k1 k2 : A -> M B) :
  Akin m1 m2 -> (forall a, Akin (k1 a) (k2 a)) -> Akin (bind m1 k1) (bind m2 k2).
Proof.
  intros Hm Hk p1 p2 H. unfold bind.
  destruct (Hm p1 p2 H) as [Ha Hp].
  destruct (m1 p1) as [a1 q1], (m2 p2) as [a2 q2]. cbn [fst snd] in *.
  subst a2. apply Hk, Hp.
Qed.

Lemma Akin_log f a : Akin (log_Printf f a) (log_Printf f a).
Proof.
  intros p1 p2 [Hc Hl]. split; [reflexivity|]. split; cbn; [exact Hc|].
  now rewrite !plain_app, Hl.
Qed.

(** A warning that one run logs and the other may not. *)
Lemma Akin_warning b1 b2 f a :
  isWarning (Printf f a) = true ->
  Akin (when b1 (log_Printf f a)) (when b2 (log_Printf f a)).
Proof.
  intros Hw p1 p2 [Hc Hl]. split; [destruct b1, b2; reflexivity|].
  assert (Hp : plain [Printf f a] = []) by (unfold plain; cbn [filter]; now rewrite Hw).
  destruct b1, b2; split; cbn; try exact Hc;
    rewrite ?plain_app, ?Hp, ?app_nil_r; exact Hl.
Qed.

Lemma Akin_when b (m1 m2 : M unit) : Akin m1 m2 -> Akin (when b m1) (when b m2).
Proof. intros H. destruct b; [exact H|apply Akin_ret]. Qed.

Lemma Akin_readLines endCheck : Akin (readLines endCheck) (readLines endCheck).
Proof.
  intros p1 p2 [Hc Hl]. rewrite !readLines_script, Hc.
  destruct (readScript endCheck (readResults (conn p2)) []) as [[[r rest] out] n].
  cbn [fst snd]. split; [reflexivity|]. split; cbn [conn log]; [reflexivity|].
  now rewrite !plain_app, Hl.
Qed.

Lemma Akin_writeLine v s : Akin (writeLine v s) (writeLine v s).
Proof.
  intros p1 p2 [Hc Hl].
  destruct p1 as [c1 l1], p2 as [c2 l2]. cbn [conn log] in *. subst c2.
  destruct c1 as [rr wr fr ra wn d cl].
  unfold writeLine, bind, when, WriteString, Flush, log_Printf, ret.
  destruct v, wr as [|[e|] wr], fr as [|[e'|] fr]; cbn;
    (split; [reflexivity|]); (split; [reflexivity|]); cbn [log];
      rewrite ?plain_app, ?Hl; reflexivity.
Qed.

Ltac akin_step :=
  match goal with
  | |- Akin (bind _ _) (bind _ _) => apply Akin_bind; [|intros]
  | |- Akin (ret _) (ret _) => apply Akin_ret
  | |- Akin (log_Printf _ _) (log_Printf _ _) => apply Akin_log
  | |- Akin (when ?b _) (when ?b _) => apply Akin_when
  | |- Akin (when _ (log_Printf _ _)) (when _ (log_Printf _ _)) =>
    apply Akin_warning; reflexivity
  | |- Akin (readLines _) (readLines _) => apply Akin_readLines
  | |- Akin (writeLine _ _) (writeLine _ _) => apply Akin_writeLine
  | |- Akin (match ?x with _ => _ end) (match ?x with _ => _ end) => destruct x
  end.

Lemma Akin_listLoop v w w' lines :
  forall t, Akin (listLoop v w lines t) (listLoop v w' lines t).
Proof.
  induction lines as [|line rest IH]; intros t; cbn [listLoop].
  - apply Akin_ret.
  - repeat akin_step; apply IH.
Qed.

Lemma Akin_fromList v w q w' q' : Akin (fromList v w q) (fromList v w' q').
Proof. unfold fromList. repeat (akin_step || apply Akin_listLoop). Qed.

Lemma Akin_fromPass v pass w q w' q' :
  Akin (fromPass v pass w q) (fromPass v pass w' q').
Proof. unfold fromPass. repeat akin_step. apply Akin_fromList. Qed.

Lemma Akin_fromUser v user pass w q w' q' :
  Akin (fromUser v user pass w q) (fromUser v user pass w' q').
Proof. unfold fromUser. repeat akin_step. apply Akin_fromPass. Qed.

Lemma Akin_fromGreeting v user pass w q w' q' :
  Akin (fromGreeting v user pass w q) (fromGreeting v user pass w' q').
Proof. unfold fromGreeting. repeat akin_step. apply Akin_fromUser. Qed.

(** X8.  The two thresholds decide which warnings are logged and
    nothing else: with other thresholds a check returns the same error
    or success, reads and writes the same, and logs the same entries
    apart from the warnings.  A warning is never a failure. *)
Theorem thresholds_only_change_warnings v dial host user pass w q w' q' :
  let o := checkMailbox v dial host user pass w q in
  let o' := checkMailbox v dial host user pass w' q' in
  result o = result o'
  /\ finalConn o = finalConn o'
  /\ plain (logged o) = plain (logged o').
Proof.
  cbv zeta. unfold checkMailbox.
  destruct (dial (hostPortOf host)) as [e|c]; [repeat split|].
  rewrite (checkMailbox_connected_stages v user pass w q),
    (checkMailbox_connected_stages v user pass w' q'). unfold newConn.
  match goal with
  | |- context [fromGreeting v user pass w q ?p0] =>
    destruct (@Akin_fromGreeting v user pass w q w' q' p0 p0 (conj eq_refl eq_refl))
      as (Hr & Hc & Hl);
    destruct (fromGreeting v user pass w q p0) as [e1 p1];
    destruct (fromGreeting v user pass w' q' p0) as [e2 p2]
  end.
  cbn [fst snd result finalConn logged] in *. subst. rewrite Hc. repeat split. exact Hl.
Qed.

(* ================================================================== *)
(** * Entries and their lines *)
(* ================================================================== *)

(** X9.  [Sscanf] with the format ["%d %d"] reads back every entry: for
    every id and size in the range of [int], negative or not, the line
    made of the id in decimal, one space and the size in decimal is
    scanned with no error as two operands, that id and that size. *)
Theorem formatted_entry_is_read_back e :
  intEntry e ->
  fmt.Sscanf_d_d (itoa.FormatInt (fst e) ++ " " ++ itoa.FormatInt (snd e))
  = fmt.mkScanned 2 None (fst e) (snd e).
Proof. intros [Hid Hsize]. now apply Sscanf_renderEntry. Qed.

Lemma formatted_entry_is_read_back_witness :
  intEntry (-7, 9223372036854775807)
  /\ (itoa.FormatInt (-7) ++ " " ++ itoa.FormatInt 9223372036854775807)%string
     = "-7 9223372036854775807"
  /\ fmt.Sscanf_d_d "-7 9223372036854775807"
     = fmt.mkScanned 2 None (-7) 9223372036854775807.
Proof.
  assert (He : intEntry (-7, 9223372036854775807)) by (split; split; discriminate).
  split; [exact He|]. split; [vm_compute; reflexivity|].
  etransitivity; [|exact (@formatted_entry_is_read_back (-7, 9223372036854775807) He)].
  vm_compute. reflexivity.
Defined.

(** X10.  The loop of [checkMailbox] over the lines of a list of
    entries in the range of [int]: it ends without an error, it logs a
    warning for each entry above [warnSize] and for no other, in order,
    and [sizeOfAllMessages] has grown by the sizes of the entries, one
    addition of [int]s for each. *)
Theorem loop_over_formatted_entries v w es t p :
  Forall intEntry es ->
  exists out,
    listLoop v w (map renderEntry es) t p
    = ((None, totalAfter t es), mkProc (conn p) (log p ++ out))
    /\ warnings out = messageWarnings w es
    /\ (v = false -> out = messageWarnings w es).
Proof.
  intros HF.
  destruct (@listLoop_passes v w (map renderEntry es) [] t p (passes_rendered HF))
    as (out & Heq & Hw & Hq).
  rewrite app_nil_r in Heq.
  pose proof (entries_rendered [] HF) as He. rewrite !app_nil_r in He.
  rewrite He in *. exists out. repeat split; assumption.
Qed.

Lemma loop_over_formatted_entries_witness :
  Forall intEntry [(1, 1024); (2, 6000000)]
  /\ exists out,
    listLoop false 5000000 ["1 1024"; "2 6000000"] 0 (mkProc (freshConn []) [])
    = ((None, 6001024), mkProc (freshConn []) out)
    /\ out = [messageWarning (2, 6000000)].
Proof.
  assert (HF : Forall intEntry [(1, 1024); (2, 6000000)])
    by (repeat constructor; discriminate).
  split; [exact HF|].
  destruct (@loop_over_formatted_entries false 5000000 [(1, 1024); (2, 6000000)] 0
              (mkProc (freshConn []) []) HF) as (out & Heq & _ & Hq).
  exists out. split; [|exact (Hq eq_refl)].
  etransitivity; [|etransitivity; [exact Heq|]].
  - vm_compute. reflexivity.
  - rewrite (Hq eq_refl). vm_compute. reflexivity.
Defined.

(** X11.  The loop of [checkMailbox] ends with no error or with the
    error "Unable to parse LIST line": [Sscanf] stores two operands
    whenever it reports no error, so the test of [countScanned] never
    fails and the error "Failed to parse LIST line" is never
    returned. *)
Theorem loop_errors v w lines : forall t p,
  fst (fst (listLoop v w lines t p)) = None
  \/ fst (fst (listLoop v w lines t p)) = Some (errors_New "Unable to parse LIST line").
Proof.
  induction lines as [|line lines IH]; intros t p; [now left|].
  destruct (skipped line) eqn:Hs.
  - rewrite listLoop_skipped by exact Hs. apply IH.
  - destruct (parses line) eqn:Hp.
    + rewrite listLoop_parsed by assumption. apply IH.
    + destruct (@listLoop_bad v w line lines t p Hs Hp) as (e & _ & Heq).
      rewrite Heq. now right.
Qed.

(* ================================================================== *)
(** * Numbers outside the range of [int] *)
(* ================================================================== *)

Lemma ParseUint_loop_overflow s0 ds : forall n0,
  Forall (fun d => 0 <= d <= 9) ds -> 0 <= n0 ->
  strconv.maxUint64 < digitsValue ds n0 ->
  n0 <= strconv.maxUint64 ->
  strconv.ParseUint_loop s0 (map (fun d => 48 + d) ds) n0
  = (strconv.maxUint64, Some (strconv_NumError "ParseUint" s0 true)).
Proof.
  induction ds as [|d ds IH]; intros n0 HF Hn Hover Hle.
  - cbn [digitsValue fold_left] in Hover. lia.
  - inversion HF as [|? ? Hd HF']; subst.
    cbn [map strconv.ParseUint_loop digitsValue fold_left] in *.
    fold (digitsValue ds (n0 * 10 + d)) in Hover.
    unfold Utf8.inRange.
    replace (48 <=? 48 + d) with true by (symmetry; apply Z.leb_le; lia).
    replace (48 + d <=? 57) with true by (symmetry; apply Z.leb_le; lia).
    cbn [andb negb].
    destruct (strconv.maxUint64 / 10 + 1 <=? n0); [reflexivity|].
    replace (48 + d - 48) with d by lia.
    destruct (strconv.maxUint64 <? n0 * 10 + d) eqn:Hn1; [reflexivity|].
    apply Z.ltb_ge in Hn1. apply IH; try assumption; lia.
Qed.

Lemma ParseUint_digitRunes_overflow n :
  strconv.maxUint64 < n ->
  strconv.ParseUint (digitRunes n)
  = (strconv.maxUint64, Some (strconv_NumError "ParseUint" (digitRunes n) true)).
Proof.
  intros Hn. assert (Hmu : strconv.maxUint64 = 18446744073709551615) by reflexivity.
  assert (H0 : 0 <= n) by lia.
  destruct (digitRunes_cons H0) as (d & ds & Hds & Hd & Hr).
  unfold strconv.ParseUint. rewrite Hr. rewrite <- Hr.
  unfold digitRunes at 2.
  apply ParseUint_loop_overflow.
  - now apply digits_range.
  - lia.
  - now rewrite (digits_value H0).
  - lia.
Qed.

(** [ParseInt] reports a range error for the decimal form of a number
    that is not an [int]. *)
Lemma ParseInt_out_of_range z :
  ~ inInt z ->
  exists i, strconv.ParseInt (intRunes z)
            = (i, Some (strconv_NumError "ParseInt" (intRunes z) true)).
Proof.
  intros Hz.
  assert (Hz' : z < - 2 ^ 63 \/ 2 ^ 63 - 1 < z).
  { unfold inInt, minInt, maxInt, intBits in Hz.
    change (2 ^ (64 - 1)) with (2 ^ 63) in Hz. lia. }
  assert (Hmu : strconv.maxUint64 = 18446744073709551615) by reflexivity.
  unfold intRunes, strconv.ParseInt.
  destruct (z <? 0) eqn:Hneg.
  - apply Z.ltb_lt in Hneg. cbn [Z.eqb Pos.eqb].
    destruct (Z_le_gt_dec (- z) strconv.maxUint64) as [Hle|Hgt].
    + rewrite ParseUint_digitRunes by lia. cbn [negb andb].
      replace (2 ^ 63 <? - z) with true by (symmetry; apply Z.ltb_lt; lia).
      eexists. reflexivity.
    + rewrite ParseUint_digitRunes_overflow by lia.
      cbn [strconv.isRangeError negb]. eexists. reflexivity.
  - apply Z.ltb_ge in Hneg.
    destruct (digitRunes_cons Hneg) as (d & ds & Hds & Hd & Hr).
    rewrite Hr.
    replace (48 + d =? 43) with false by (symmetry; apply Z.eqb_neq; lia).
    replace (48 + d =? 45) with false by (symmetry; apply Z.eqb_neq; lia).
    rewrite <- Hr.
    destruct (Z_le_gt_dec z strconv.maxUint64) as [Hle|Hgt].
    + rewrite ParseUint_digitRunes by lia. cbn [negb andb].
      replace (2 ^ 63 <=? z) with true by (symmetry; apply Z.leb_le; lia).
      eexists. reflexivity.
    + rewrite ParseUint_digitRunes_overflow by lia.
      cbn [strconv.isRangeError negb]. eexists. reflexivity.
Qed.

Lemma log2_small z : Z.abs z < 2 ^ 1000 -> Z.log2 (Z.abs z) < 1000.
Proof.
  intros H. destruct (Z.eq_dec (Z.abs z) 0) as [->|Hz]; [cbn; lia|].
  apply Z.log2_lt_pow2; lia.
Qed.

Lemma digits_length_log n :
  (List.length (itoa.digits n) <= S (Z.to_nat (Z.log2 n)))%nat.
Proof. unfold itoa.digits. rewrite length_rev. apply digitsRev_length. Qed.

(** Scanning the decimal form of a number that is not an [int]
    reports the range error. *)
Lemma scanInt_out_of_range z rest count :
  ~ inInt z -> Z.abs z < 2 ^ 1000 -> numberEnds rest ->
  0 <= count -> count + 2000 < fmt.hugeWid ->
  fmt.scanInt (intRunes z ++ rest, count)
  = inl (strconv_NumError "ParseInt" (intRunes z) true).
Proof.
  intros Hz Hsmall Hend Hc Hlen.
  destruct (ParseInt_out_of_range Hz) as [i HP].
  pose proof (log2_small _ Hsmall) as Hlog.
  unfold fmt.scanInt. unfold intRunes in *.
  destruct (z <? 0) eqn:Hneg.
  - apply Z.ltb_lt in Hneg.
    destruct (@digitRunes_cons (- z) ltac:(lia)) as (d & ds & Hds & Hd & Hr).
    assert (Hl : (List.length ds < 1001)%nat).
    { pose proof (digits_length_log (- z)) as HL. rewrite Hds in HL.
      cbn [List.length] in HL. replace (Z.abs z) with (- z) in Hlog by lia.
      pose proof (Z.log2_nonneg (- z)). lia. }
    assert (HF : Forall (fun d => 0 <= d <= 9) ds).
    { pose proof (@digits_range (- z) ltac:(lia)) as HF. rewrite Hds in HF.
      now inversion HF. }
    rewrite Hr in *. cbn [app].
    rewrite SkipSpace_nonspace by (try reflexivity; lia).
    rewrite notEOF_cons by lia.
    rewrite accept_member by (try reflexivity; lia).
    rewrite (scanNumber_digits rest (count := count + 1) ([] ++ [45]) Hd HF Hend) by lia.
    cbn [app]. rewrite HP. reflexivity.
  - apply Z.ltb_ge in Hneg.
    destruct (@digitRunes_cons z ltac:(lia)) as (d & ds & Hds & Hd & Hr).
    assert (Hl : (List.length ds < 1001)%nat).
    { pose proof (digits_length_log z) as HL. rewrite Hds in HL.
      cbn [List.length] in HL. replace (Z.abs z) with z in Hlog by lia.
      pose proof (Z.log2_nonneg z). lia. }
    assert (HF : Forall (fun d => 0 <= d <= 9) ds).
    { pose proof (@digits_range z ltac:(lia)) as HF. rewrite Hds in HF.
      now inversion HF. }
    rewrite Hr in *. cbn [app].
    rewrite SkipSpace_nonspace by (try apply digit_isSpace; lia).
    rewrite notEOF_cons by lia.
    rewrite accept_other by (try apply digit_not_sign; lia).
    rewrite (scanNumber_digits rest (count := count) [] Hd HF Hend) by lia.
    cbn [app]. rewrite HP. reflexivity.
Qed.

Lemma inInt_dec z : {inInt z} + {~ inInt z}.
Proof.
  unfold inInt. destruct (Z_le_dec minInt z); destruct (Z_le_dec z maxInt);
    (left; lia) || (right; lia).
Qed.

Lemma intRunes_head_any z :
  Z.abs z < 2 ^ 1000 ->
  exists r l, intRunes z = r :: l /\ fmt.isSpace r = false /\ 0 <= r
              /\ (List.length (intRunes z) <= 1002)%nat.
Proof.
  intros Hsmall. pose proof (log2_small _ Hsmall) as Hlog.
  unfold intRunes. destruct (z <? 0) eqn:Hneg.
  - apply Z.ltb_lt in Hneg. exists 45, (digitRunes (- z)).
    split; [reflexivity|]. split; [reflexivity|]. split; [lia|].
    cbn [List.length]. unfold digitRunes. rewrite length_map.
    pose proof (digits_length_log (- z)) as HL.
    replace (Z.abs z) with (- z) in Hlog by lia.
    pose proof (Z.log2_nonneg (- z)). lia.
  - apply Z.ltb_ge in Hneg.
    destruct (@digitRunes_cons z Hneg) as (d & ds & Hds & Hd & Hr).
    exists (48 + d), (map (fun d => 48 + d) ds).
    split; [exact Hr|]. split; [apply digit_isSpace; lia|]. split; [lia|].
    unfold digitRunes. rewrite length_map.
    pose proof (digits_length_log z) as HL.
    replace (Z.abs z) with z in Hlog by lia.
    pose proof (Z.log2_nonneg z). lia.
Qed.

Lemma Sscanf_size_out_of_range id n :
  inInt id -> ~ inInt n -> Z.abs n < 2 ^ 1000 ->
  fmt.Sscanf_d_d (renderEntry (id, n))
  = fmt.mkScanned 1 (Some (strconv_NumError "ParseInt" (intRunes n) true)) id 0.
Proof.
  intros Hid Hn Hsmall. unfold fmt.Sscanf_d_d. rewrite runes_renderEntry.
  cbn [fst snd].
  destruct (intRunes_head Hid) as (r1 & l1 & Hr1 & Hs1 & Hp1 & Hlen1).
  destruct (@intRunes_head_any _ Hsmall) as (r2 & l2 & Hr2 & Hs2 & Hp2 & Hlen2).
  pose proof hugeWid_value as HW.
  rewrite Hr1 at 1. cbn [app].
  rewrite SkipSpace_nonspace by (try exact Hs1; lia).
  change (r1 :: l1 ++ 32 :: intRunes n) with ((r1 :: l1) ++ 32 :: intRunes n).
  rewrite <- Hr1.
  rewrite (@scanInt_intRunes id (32 :: intRunes n) 0 Hid)
    by (try reflexivity; lia).
  unfold fmt.advanceSpace. rewrite getRune_cons by lia.
  change (fmt.isSpace 32) with true. change (32 =? 10) with false.
  change (32 =? fmt.eof) with false. cbn [negb andb fst snd].
  rewrite Hr2 at 1.
  rewrite advanceSpace_loop_nonspace by (try exact Hs2; lia).
  rewrite SkipSpace_nonspace by (try exact Hs2; lia).
  rewrite <- Hr2. rewrite <- (app_nil_r (intRunes n)) at 1.
  rewrite scanInt_out_of_range by (try assumption; try exact I; lia).
  reflexivity.
Qed.

Lemma Sscanf_id_out_of_range id n :
  ~ inInt id -> Z.abs id < 2 ^ 1000 ->
  fmt.Sscanf_d_d (renderEntry (id, n))
  = fmt.mkScanned 0 (Some (strconv_NumError "ParseInt" (intRunes id) true)) 0 0.
Proof.
  intros Hid Hsmall. unfold fmt.Sscanf_d_d. rewrite runes_renderEntry.
  cbn [fst snd].
  destruct (@intRunes_head_any _ Hsmall) as (r1 & l1 & Hr1 & Hs1 & Hp1 & Hlen1).
  pose proof hugeWid_value as HW.
  rewrite Hr1 at 1. cbn [app].
  rewrite SkipSpace_nonspace by (try exact Hs1; lia).
  change (r1 :: l1 ++ 32 :: intRunes n) with ((r1 :: l1) ++ 32 :: intRunes n).
  rewrite <- Hr1.
  rewrite scanInt_out_of_range by (try assumption; try reflexivity; lia).
  reflexivity.
Qed.

(** X18.  A number on a LIST line that does not fit an [int] is a
    parse failure, not a wrapped value: for an id or a size outside
    the 64-bit range, written in decimal, [Sscanf] reports the range
    error of [strconv.ParseInt] (after storing the id, when it is the
    size that is too large), and the loop of [checkMailbox] stops at
    that line with "Unable to parse LIST line", the total as it was
    before the line. *)
Theorem number_out_of_int_range_is_rejected id n :
  Z.abs id < 2 ^ 1000 -> Z.abs n < 2 ^ 1000 ->
  ~ (inInt id /\ inInt n) ->
  (exists c z,
      fmt.Sscanf_d_d (renderEntry (id, n))
      = fmt.mkScanned c (Some (strconv_NumError "ParseInt" (intRunes z) true))
                      (if c =? 1 then id else 0) 0
      /\ ((c = 0 /\ z = id /\ ~ inInt id) \/ (c = 1 /\ z = n /\ inInt id)))
  /\ forall v w rest t p,
       fst (listLoop v w (renderEntry (id, n) :: rest) t p)
       = (Some (errors_New "Unable to parse LIST line"), t).
Proof.
  intros Hi Hn Hout.
  assert (HS : exists c z,
      fmt.Sscanf_d_d (renderEntry (id, n))
      = fmt.mkScanned c (Some (strconv_NumError "ParseInt" (intRunes z) true))
                      (if c =? 1 then id else 0) 0
      /\ ((c = 0 /\ z = id /\ ~ inInt id) \/ (c = 1 /\ z = n /\ inInt id))).
  { destruct (inInt_dec id) as [Hid|Hid].
    - exists 1, n. split; [|right; auto].
      apply Sscanf_size_out_of_range; tauto.
    - exists 0, id. split; [|left; auto].
      now apply Sscanf_id_out_of_range. }
  split; [exact HS|].
  intros v w rest t p.
  destruct HS as (c & z & HS & _).
  assert (Hp : parses (renderEntry (id, n)) = false).
  { unfold parses. rewrite HS. reflexivity. }
  destruct (@listLoop_bad v w (renderEntry (id, n)) rest t p
              (skipped_renderEntry (id, n)) Hp) as (e & _ & Heq).
  rewrite Heq. reflexivity.
Qed.

Lemma number_out_of_int_range_is_rejected_witness :
  renderEntry (1, 9223372036854775808) = "1 9223372036854775808"
  /\ fmt.Sscanf_d_d "1 9223372036854775808"
     = fmt.mkScanned 1
         (Some (strconv_NumError "ParseInt" (Utf8.runes "9223372036854775808") true)) 1 0
  /\ fst (listLoop false 10 ["1 9223372036854775808"] 5 (mkProc (freshConn []) []))
     = (Some (errors_New "Unable to parse LIST line"), 5).
Proof.
  assert (H1 : Z.abs 1 < 2 ^ 1000) by reflexivity.
  assert (H2 : Z.abs 9223372036854775808 < 2 ^ 1000) by reflexivity.
  assert (H3 : ~ (inInt 1 /\ inInt 9223372036854775808)).
  { intros [_ [_ H]]. apply H. reflexivity. }
  destruct (@number_out_of_int_range_is_rejected 1 9223372036854775808 H1 H2 H3)
    as [_ HL].
  split; [vm_compute; reflexivity|].
  split; [vm_compute; reflexivity|].
  etransitivity; [|exact (HL false 10 [] 5 (mkProc (freshConn []) []))].
  vm_compute. reflexivity.
Defined.

(* ================================================================== *)
(** * The log of a quiet check *)
(* ================================================================== *)

Lemma login_state v dial host user pass w q c rest :
  dial (hostPortOf host) = DialOk c ->
  loggedIn c rest ->
  checkMailbox v dial host user pass w q
  = let '(err, p) :=
        fromList v w q
                 (mkProc (afterLogin c user pass rest)
                         ((if v
                           then [Printf "Connecting to %s..." [AStr host];
                                 Printf "Connected to [%s] (%s)"
                                        [AStr (hostPortOf host); AStr (remoteAddr c)]]
                           else [])
                            ++ writingEntry v ("USER " ++ user)
                            ++ writingEntry v ("PASS " ++ pass))) in
    mkOutcome err (Some (conn p)) (log p).
Proof.
  intros Hd (g & u & pa & Hr & Hg & Hu & Hpa & Hw0 & Hf0 & Hw1 & Hf1).
  unfold checkMailbox. rewrite Hd, checkMailbox_connected_stages. unfold newConn.
  rewrite (greeting_ok v user pass w q c _ Hr Hg).
  rewrite (@user_ok v user pass w q (afterReads c ((u, None) :: (pa, None) :: rest) 1)
                    _ u ((pa, None) :: rest) Hw0 Hf0 eq_refl Hu).
  rewrite (@pass_ok v pass w q
                    (afterReads (afterWrite (afterReads c ((u, None) :: (pa, None) :: rest) 1)
                                            (userCmd user))
                                ((pa, None) :: rest) 1)
                    _ pa rest (succeeds_next Hw1) (succeeds_next Hf1) eq_refl Hpa).
  unfold afterLogin, afterReads, afterWrite.
  cbn [readResults writeResults flushResults remoteAddr written deadlines closed].
  rewrite <- !app_assoc. cbn [app Nat.add].
  destruct v; reflexivity.
Qed.

Lemma endDot_dot s : endDot s = true -> s = ".".
Proof. unfold endDot. apply String.eqb_eq. Qed.

(** X12.  A quiet check logs the warnings and nothing else when the
    server behaves: the login is accepted, the LIST command goes out,
    the response is lines that are skipped or scan, and it ends with
    the terminator.  In particular it logs nothing at all when no
    threshold is passed. *)
Theorem quiet_log_is_the_warnings dial host user pass w q c pre raw rest' :
  dial (hostPortOf host) = DialOk c ->
  loggedIn c (pre ++ (raw, None) :: rest') ->
  succeeds (writeResults c) 2 -> succeeds (flushResults c) 2 ->
  Forall (passesBy endDot) pre ->
  endDot (strings.TrimSpace raw) = true ->
  Forall passes (trimmed pre) ->
  let o := checkMailbox false dial host user pass w q in
  let es := entries (trimmed pre) in
  result o = None
  /\ logged o = messageWarnings w es ++ quotaEntry q (wrapInt (sumSizes es))
  /\ (exists c', finalConn o = Some c' /\ readResults c' = rest').
Proof.
  intros Hd Hlog Hw2 Hf2 Hpre Hdot HF. cbv zeta.
  assert (Ho : checkMailbox false dial host user pass w q
               = mkOutcome None
                   (Some (afterReads
                            (afterWrite (afterLogin c user pass (pre ++ (raw, None) :: rest'))
                                        listCmd)
                            rest' (List.length pre + 1)))
                   (messageWarnings w (entries (trimmed pre))
                    ++ quotaEntry q (wrapInt (sumSizes (entries (trimmed pre)))))).
  { rewrite (login_state false dial host user pass w q Hd Hlog).
    cbn [writingEntry app].
    unfold fromList. unfold bind at 1.
    rewrite writeLine_ok
      by (unfold afterLogin; cbn [writeResults flushResults];
          apply succeeds_next, succeeds_next; assumption).
    cbn [writingEntry app]. unfold bind at 1.
    rewrite readLines_script.
    cbn [conn log afterWrite afterLogin readResults].
    rewrite (readScript_passesBy ((raw, None) :: rest') [] Hpre).
    cbn [app readScript]. rewrite Hdot.
    cbn [afterReads conn log app].
    assert (Hall : Forall passes (trimmed pre ++ [strings.TrimSpace raw])).
    { apply Forall_app. split; [exact HF|].
      constructor; [|constructor]. left. rewrite (endDot_dot _ Hdot). reflexivity. }
    unfold bind at 1.
    match goal with
    | |- context [listLoop false w (trimmed pre ++ [strings.TrimSpace raw]) 0 ?p1] =>
      destruct (@listLoop_passes false w (trimmed pre ++ [strings.TrimSpace raw]) [] 0 p1 Hall)
        as (out & Hloop & _ & Hq)
    end.
    rewrite app_nil_r in Hloop. rewrite Hloop. cbn [listLoop ret]. unfold bind.
    assert (He : entries (trimmed pre ++ [strings.TrimSpace raw]) = entries (trimmed pre)).
    { unfold entries. rewrite filter_app, map_app. cbn [filter].
      rewrite (endDot_dot _ Hdot). cbn. apply app_nil_r. }
    rewrite (Hq eq_refl), He, totalAfter_0.
    unfold when, quotaEntry, quotaWarning, log_Printf, listCmd.
    destruct (q <? wrapInt (sumSizes (entries (trimmed pre))));
      cbn [conn log app fst snd]; rewrite ?app_nil_r; reflexivity. }
  rewrite Ho. cbn [result logged finalConn].
  split; [reflexivity|]. split; [reflexivity|].
  eexists. split; reflexivity.
Qed.

Lemma quiet_log_is_the_warnings_witness :
  result (checkMailbox false (dialTo (session exampleResponse))
                       "mail" "u" "p" 5000000 7000000) = None
  /\ logged (checkMailbox false (dialTo (session exampleResponse))
                          "mail" "u" "p" 5000000 7000000)
     = [messageWarning (2, 6000000)].
Proof.
  assert (Hpre : Forall (passesBy endDot)
                        [okLine "+OK 2 messages"; okLine "1 1024"; okLine "2 6000000"]).
  { constructor; [split; vm_compute; reflexivity|].
    constructor; [split; vm_compute; reflexivity|].
    constructor; [split; vm_compute; reflexivity|]. constructor. }
  assert (HF : Forall passes
                      (trimmed [okLine "+OK 2 messages"; okLine "1 1024";
                                okLine "2 6000000"])).
  { constructor; [left; vm_compute; reflexivity|].
    constructor; [right; vm_compute; reflexivity|].
    constructor; [right; vm_compute; reflexivity|]. constructor. }
  destruct (@quiet_log_is_the_warnings (dialTo (session exampleResponse))
              "mail" "u" "p" 5000000 7000000 (session exampleResponse)
              [okLine "+OK 2 messages"; okLine "1 1024"; okLine "2 6000000"]
              ("." ++ CRLF)%string []
              eq_refl (loggedIn_session exampleResponse) eq_refl eq_refl
              Hpre eq_refl HF)
    as (Hres & Hlog & _).
  split; [exact Hres|].
  etransitivity; [exact Hlog|]. vm_compute. reflexivity.
Defined.

(* ================================================================== *)
(** * [getArgs] and [main] *)
(* ================================================================== *)

Section ArgumentFacts.

Variable errorText : error -> string.

Lemma length_zero_iff (s : string) : Nat.eqb (String.length s) 0 = true <-> s = "".
Proof. destruct s; cbn; split; intros H; congruence. Qed.

Lemma length_nonzero_iff (s : string) : Nat.eqb (String.length s) 0 = false <-> s <> "".
Proof. destruct s; cbn; split; intros H; congruence. Qed.

Lemma getArgs_cases flags open vo :
  let r := getArgs errorText flags open vo in
  let file := readFile open (flagPasswordFile flags) in
  (argsErr r = None
   <-> flagHost flags <> "" /\ flagUser flags <> "" /\ flagPasswordFile flags <> ""
       /\ snd (fst file) = None /\ 0 < flagSize flags /\ 0 < flagQuota flags)
  /\ (argsErr r = None ->
      args r = Some (mkArgDef (flagHost flags) (flagUser flags) (fst (fst file))
                              (flagSize flags) (flagQuota flags))
      /\ argsVerbose r = (flagVerbose flags || vo)%bool
      /\ argsEvents r = []).
Proof.
  cbv zeta. unfold getArgs, argsFail.
  destruct (Nat.eqb (String.length (flagHost flags)) 0) eqn:Hh.
  { apply length_zero_iff in Hh. cbn [argsErr]. split; [split|]; try discriminate.
    intros (H & _). congruence. }
  destruct (Nat.eqb (String.length (flagUser flags)) 0) eqn:Hu.
  { apply length_zero_iff in Hu. cbn [argsErr]. split; [split|]; try discriminate.
    intros (_ & H & _). congruence. }
  destruct (Nat.eqb (String.length (flagPasswordFile flags)) 0) eqn:Hp.
  { apply length_zero_iff in Hp. cbn [argsErr]. split; [split|]; try discriminate.
    intros (_ & _ & H & _). congruence. }
  apply length_nonzero_iff in Hh, Hu, Hp.
  destruct (readFile open (flagPasswordFile flags)) as [[pw [e|]] fi]; cbn [fst snd argsErr].
  { split; [split|]; try discriminate. intros (_ & _ & _ & H & _). discriminate. }
  destruct (flagSize flags <=? 0) eqn:Hs.
  { apply Z.leb_le in Hs. cbn [argsErr]. split; [split|]; try discriminate.
    intros (_ & _ & _ & _ & H & _). lia. }
  destruct (flagQuota flags <=? 0) eqn:Hq.
  { apply Z.leb_le in Hq. cbn [argsErr]. split; [split|]; try discriminate.
    intros (_ & _ & _ & _ & _ & H). lia. }
  apply Z.leb_gt in Hs, Hq. cbn [argsErr args argsVerbose argsEvents].
  split; [split; [intros _; repeat split; assumption|reflexivity]|].
  intros _. repeat split.
Qed.

(** X13.  [getArgs] succeeds exactly when the host, the user name and
    the path of the password file are not empty, the file can be read
    and both thresholds are above zero.  It then returns the host, the
    user name and the thresholds of the flags with the contents of the
    file as the password, prints nothing, and turns [verboseOutput] on
    when the flag asks for it. *)
Theorem getArgs_succeeds_iff flags open vo :
  let r := getArgs errorText flags open vo in
  let file := readFile open (flagPasswordFile flags) in
  (argsErr r = None
   <-> flagHost flags <> "" /\ flagUser flags <> "" /\ flagPasswordFile flags <> ""
       /\ snd (fst file) = None /\ 0 < flagSize flags /\ 0 < flagQuota flags)
  /\ (argsErr r = None ->
      args r = Some (mkArgDef (flagHost flags) (flagUser flags) (fst (fst file))
                              (flagSize flags) (flagQuota flags))
      /\ argsVerbose r = (flagVerbose flags || vo)%bool
      /\ argsEvents r = []).
Proof. apply getArgs_cases. Qed.

(** X14.  When [getArgs] fails it returns no arguments and an error
    whose text it has printed, followed by the usage of the flags; it
    leaves [verboseOutput] as it was, whatever the flag says; and when
    the host, the user name or the path is missing it has not opened
    the password file. *)
Theorem getArgs_failure flags open vo :
  argsErr (getArgs errorText flags open vo) <> None ->
  let r := getArgs errorText flags open vo in
  args r = None
  /\ argsVerbose r = vo
  /\ (exists msg, argsErr r = Some (errors_New msg)
                  /\ argsEvents r = [log_Print msg; flag_PrintDefaults])
  /\ (flagHost flags = "" \/ flagUser flags = "" \/ flagPasswordFile flags = "" ->
      argsFile r = None).
Proof.
  cbv zeta. unfold getArgs, argsFail.
  destruct (Nat.eqb (String.length (flagHost flags)) 0) eqn:Hh;
    [intros _; cbn; repeat split; eexists; split; reflexivity|].
  destruct (Nat.eqb (String.length (flagUser flags)) 0) eqn:Hu;
    [intros _; cbn; repeat split; eexists; split; reflexivity|].
  destruct (Nat.eqb (String.length (flagPasswordFile flags)) 0) eqn:Hp;
    [intros _; cbn; repeat split; eexists; split; reflexivity|].
  apply length_nonzero_iff in Hh, Hu, Hp.
  assert (Hno : flagHost flags = "" \/ flagUser flags = "" \/ flagPasswordFile flags = ""
                -> False) by (intros [H|[H|H]]; congruence).
  destruct (readFile open (flagPasswordFile flags)) as [[pw [e|]] fi].
  { intros _. cbn. repeat split; [eexists; split; reflexivity|intros H; now elim Hno]. }
  destruct (flagSize flags <=? 0);
    [intros _; cbn; repeat split; [eexists; split; reflexivity|intros H; now elim Hno]|].
  destruct (flagQuota flags <=? 0);
    [intros _; cbn; repeat split; [eexists; split; reflexivity|intros H; now elim Hno]|].
  cbn [argsErr]. intros H. now elim H.
Qed.

(** X15.  The password is not validated.  When the password file has
    no line feed in it, as a file written without a final newline, the
    password is empty, and [getArgs] accepts it like any other. *)
Theorem getArgs_accepts_empty_password flags open vo content :
  flagHost flags <> "" -> flagUser flags <> "" -> flagPasswordFile flags <> "" ->
  0 < flagSize flags -> 0 < flagQuota flags ->
  open (flagPasswordFile flags) = OpenOk (mkFile content None false) ->
  noLF content ->
  let r := getArgs errorText flags open vo in
  argsErr r = None
  /\ args r = Some (mkArgDef (flagHost flags) (flagUser flags) ""
                             (flagSize flags) (flagQuota flags)).
Proof.
  intros Hh Hu Hp Hs Hq Ho Hn. cbv zeta. unfold getArgs.
  apply length_nonzero_iff in Hh, Hu. pose proof Hp as Hp'.
  apply length_nonzero_iff in Hp'. rewrite Hh, Hu, Hp'.
  rewrite (@readFile_on_lines open (flagPasswordFile flags) [] content None Hp Ho
             (Forall_nil _) Hn).
  cbn [atEnd trimmedLines fold_right].
  replace (flagSize flags <=? 0) with false by (symmetry; apply Z.leb_gt; lia).
  replace (flagQuota flags <=? 0) with false by (symmetry; apply Z.leb_gt; lia).
  split; reflexivity.
Qed.



End ArgumentFacts.

(** Examples of use. *)

Lemma getArgs_failure_witness :
  argsErr (getArgs exampleText noHostFlags exampleOpen false)
  = Some (errors_New "You must provide a host.")
  /\ args (getArgs exampleText noHostFlags exampleOpen false) = None
  /\ argsVerbose (getArgs exampleText noHostFlags exampleOpen false) = false
  /\ argsFile (getArgs exampleText noHostFlags exampleOpen false) = None.
Proof.
  assert (He : argsErr (getArgs exampleText noHostFlags exampleOpen false) <> None)
    by (vm_compute; discriminate).
  destruct (@getArgs_failure exampleText noHostFlags exampleOpen false He)
    as (Ha & Hv & _ & Hf).
  split; [vm_compute; reflexivity|].
  split; [exact Ha|]. split; [exact Hv|].
  apply Hf. left. reflexivity.
Defined.

Lemma getArgs_accepts_empty_password_witness :
  noLF "secret"
  /\ args (getArgs exampleText exampleFlags exampleOpen false)
     = Some (mkArgDef "mail.example.com" "u" "" defaultSize defaultQuota).
Proof.
  assert (Hn : noLF "secret") by (vm_compute; intuition discriminate).
  split; [exact Hn|].
  refine (proj2 (@getArgs_accepts_empty_password exampleText exampleFlags exampleOpen
                   false "secret" _ _ _ _ _ eq_refl Hn));
    first [discriminate | reflexivity].
Defined.

